(** * Stage 1 of simdjson (structural index discovery) and the JsonStream header

    A shallow embedding of [src/generic/stage1_find_marks.h] and of the
    constructors of [include/simdjson/jsonstream.h], with the properties the
    specification states about them.

    Conventions of the embedding:
    - [uint64_t] masks are [Z] values in [0, 2^64); every operation that can
      leave that range in C++ is wrapped explicitly ([wrap64]);
    - [uint32_t] values (the structural offsets, [base],
      [n_structural_indexes]) are [Z] values wrapped by [wrap32];
    - [size_t] values ([len], [idx]) are [Z]; they index an addressable
      buffer and are never wrapped;
    - a [const uint8_t *] is a function from offsets to bytes, pointer
      arithmetic is [ptr_add];
    - a reference parameter becomes an extra component of the result. *)

From Stdlib Require Import ZArith Lia Bool List.
Import ListNotations.
Local Open Scope Z_scope.

(** ** Machine arithmetic *)

Definition wrap64 (x : Z) : Z := x mod 2 ^ 64.
Definition wrap32 (x : Z) : Z := x mod 2 ^ 32.

(** [0xFFFFFFFFFFFFFFFF] *)
Definition ALL_ONES : Z := 0xFFFFFFFFFFFFFFFF.

(** [~x] on a [uint64_t] *)
Definition not64 (x : Z) : Z := Z.lxor x ALL_ONES.

(** [x << n] on a [uint64_t] *)
Definition shl64 (x n : Z) : Z := wrap64 (Z.shiftl x n).

(** [x + y] on [uint64_t] *)
Definition add64 (x y : Z) : Z := wrap64 (x + y).

(** Modelled from the spec: [add_overflow] is a portability macro that is
    not part of the generic file.  The spec describes it as an addition
    "with checked overflow" whose carry-out of bit 63 is recorded: it stores
    the wrapped sum and returns whether the addition overflowed. *)
Definition add_overflow (x y : Z) : bool * Z :=
  (2 ^ 64 <=? x + y, wrap64 (x + y)).

(** [static_cast<uint64_t>(static_cast<int64_t>(x) >> 63)] *)
Definition sar63 (x : Z) : Z :=
  let signed := if x <? 2 ^ 63 then x else x - 2 ^ 64 in
  wrap64 (Z.shiftr signed 63).

(** ** Bytes, pointers and 64-byte blocks *)

Definition byte := Z.
Definition pointer := Z -> byte.

Definition ptr_add (p : pointer) (off : Z) : pointer := fun i => p (off + i).

(** [memset(dst, c, n)] and [memcpy(dst, src, n)] on arrays seen as functions *)
Definition memset (dst : pointer) (c : byte) (n : Z) : pointer :=
  fun i => if (0 <=? i) && (i <? n) then c else dst i.
Definition memcpy (dst src : pointer) (n : Z) : pointer :=
  fun i => if (0 <=? i) && (i <? n) then src i else dst i.

(** [simd_input64 in64(p)] loads the 64 bytes at [p]. *)
Definition simd_input64 := list byte.
Definition load64 (p : pointer) : simd_input64 :=
  map (fun i => p (Z.of_nat i)) (seq 0 64).

(** A mask with bit [i] set iff the [i]-th byte of the block satisfies [f]. *)
Fixpoint bitmask_of (f : byte -> bool) (l : list byte) : Z :=
  match l with
  | [] => 0
  | b :: l' => Z.b2z (f b) + 2 * bitmask_of f l'
  end.

(** Modelled from the spec: the methods of [simd_input64] live in the
    per-architecture headers.  The spec (4.1) fixes their meaning: each bit of
    the result is set iff the corresponding input byte has the property. *)
Definition simd_eq (in64 : simd_input64) (m : byte) : Z :=
  bitmask_of (fun b => b =? m) in64.
Definition simd_lteq (in64 : simd_input64) (m : byte) : Z :=
  bitmask_of (fun b => b <=? m) in64.

Definition is_whitespace (b : byte) : bool :=
  (b =? 0x20) || (b =? 0x09) || (b =? 0x0A) || (b =? 0x0D).
Definition is_structural (b : byte) : bool :=
  (b =? 0x7B) || (b =? 0x7D) || (b =? 0x5B) || (b =? 0x5D) ||
  (b =? 0x2C) || (b =? 0x3A).

(** Modelled from the spec: [find_whitespace_and_structurals] is
    per-architecture code.  The spec (4.1, Whitespace and structurals) gives
    the exact byte sets: whitespace = {0x20, 0x09, 0x0A, 0x0D}; structural =
    the six bytes of "{ } [ ] , :".  The result is (whitespace, structurals). *)
Definition find_whitespace_and_structurals (in64 : simd_input64) : Z * Z :=
  (bitmask_of is_whitespace in64, bitmask_of is_structural in64).

(** Modelled from the spec: [compute_quote_mask] is per-architecture code (a
    carry-less multiplication by all-ones).  The spec (4.1, Quote mask) gives
    the identity it computes: bit [i] of the result is the XOR over [j <= i]
    of bit [j] of [quote_bits]. *)
Fixpoint prefix_xor (n : nat) (i : Z) (acc : bool) (q : Z) : Z :=
  match n with
  | O => 0
  | S n' =>
      let b := xorb acc (Z.testbit q i) in
      Z.lor (Z.shiftl (Z.b2z b) i) (prefix_xor n' (i + 1) b q)
  end.
Definition compute_quote_mask (quote_bits : Z) : Z :=
  prefix_xor 64 0 false quote_bits.

(** ** The array of structural indexes *)

Definition array := Z -> Z.
Definition array_set (a : array) (i v : Z) : array :=
  fun j => if j =? i then v else a j.

(** Modelled from the spec: [flatten_bits] is per-architecture code.  The
    spec (4.1, Flattening) says that the positions of the set bits of the
    previous iteration's mask are extracted in increasing order, added to the
    base offset and written sequentially to the output array.  The mask handed
    over is the one of the block that starts 64 bytes before [idx] (the
    kernel flushes it one iteration late), so the base offset is [idx - 64];
    [idx], [base] and the stored offsets are [uint32_t]. *)
Definition flatten_step (idx bits : Z) (ab : array * Z) (i : nat) : array * Z :=
  if Z.testbit bits (Z.of_nat i)
  then (array_set (fst ab) (snd ab) (wrap32 (idx - 64 + Z.of_nat i)),
        wrap32 (snd ab + 1))
  else ab.
Definition flatten_bits (base_ptr : array) (base idx bits : Z) : array * Z :=
  fold_left (flatten_step idx bits) (seq 0 64) (base_ptr, base).

(** ** The three mask computations of the generic file *)

Definition even_bits : Z := 0x5555555555555555.
Definition odd_bits : Z := not64 even_bits.

(** Returns [(odd_ends, prev_iter_ends_odd_backslash')]. *)
Definition find_odd_backslash_sequences
    (bs_bits : Z) (prev_iter_ends_odd_backslash : bool) : Z * bool :=
  let start_edges := Z.land bs_bits (not64 (shl64 bs_bits 1)) in
  let even_start_mask := Z.lxor even_bits (Z.b2z prev_iter_ends_odd_backslash) in
  let even_starts := Z.land start_edges even_start_mask in
  let odd_starts := Z.land start_edges (not64 even_start_mask) in
  let even_carries := add64 bs_bits even_starts in
  let '(iter_ends_odd_backslash, odd_carries) := add_overflow bs_bits odd_starts in
  let odd_carries := Z.lor odd_carries (Z.b2z prev_iter_ends_odd_backslash) in
  let even_carry_ends := Z.land even_carries (not64 bs_bits) in
  let odd_carry_ends := Z.land odd_carries (not64 bs_bits) in
  let even_start_odd_end := Z.land even_carry_ends odd_bits in
  let odd_start_even_end := Z.land odd_carry_ends even_bits in
  let odd_ends := Z.lor even_start_odd_end odd_start_even_end in
  (odd_ends, iter_ends_odd_backslash).

Record quote_result := mk_quote_result {
  qr_quote_mask : Z;               (* the returned value *)
  qr_prev_iter_inside_quote : Z;   (* reference parameters, updated *)
  qr_quote_bits : Z;
  qr_error_mask : Z }.

Definition find_quote_mask_and_bits
    (unescaped odd_ends prev_iter_inside_quote quote_bits error_mask : Z)
    : quote_result :=
  let quote_bits := Z.land quote_bits (not64 odd_ends) in
  let quote_mask := compute_quote_mask quote_bits in
  let quote_mask := Z.lxor quote_mask prev_iter_inside_quote in
  let error_mask := Z.lor error_mask (Z.land quote_mask unescaped) in
  let prev_iter_inside_quote := sar63 quote_mask in
  mk_quote_result quote_mask prev_iter_inside_quote quote_bits error_mask.

(** Returns [(structurals, prev_iter_ends_pseudo_pred')]. *)
Definition finalize_structurals
    (structurals whitespace quote_mask quote_bits : Z)
    (prev_iter_ends_pseudo_pred : bool) : Z * bool :=
  let structurals := Z.land structurals (not64 quote_mask) in
  let structurals := Z.lor structurals quote_bits in
  let pseudo_pred := Z.lor structurals whitespace in
  let shifted_pseudo_pred :=
    Z.lor (shl64 pseudo_pred 1) (Z.b2z prev_iter_ends_pseudo_pred) in
  let prev_iter_ends_pseudo_pred' := negb (Z.shiftr pseudo_pred 63 =? 0) in
  let pseudo_structurals :=
    Z.land (Z.land shifted_pseudo_pred (not64 whitespace)) (not64 quote_mask) in
  let structurals := Z.lor structurals pseudo_structurals in
  let structurals :=
    Z.land structurals (not64 (Z.land quote_bits (not64 quote_mask))) in
  (structurals, prev_iter_ends_pseudo_pred').

(** ** Status codes *)

(** Modelled from the spec: the enumeration lives in [simdjson.h]; the spec
    (6, Status codes) lists its members in order, starting at [SUCCESS = 0]. *)
Inductive errorValues : Type :=
  | SUCCESS | CAPACITY | MEMALLOC | TAPE_ERROR | DEPTH_ERROR | STRING_ERROR
  | T_ATOM_ERROR | F_ATOM_ERROR | N_ATOM_ERROR | NUMBER_ERROR | UTF8_ERROR
  | UNINITIALIZED | EMPTY | UNESCAPED_CHARS | UNCLOSED_STRING
  | UNEXPECTED_ERROR.

Definition error_code (e : errorValues) : Z :=
  match e with
  | SUCCESS => 0 | CAPACITY => 1 | MEMALLOC => 2 | TAPE_ERROR => 3
  | DEPTH_ERROR => 4 | STRING_ERROR => 5 | T_ATOM_ERROR => 6
  | F_ATOM_ERROR => 7 | N_ATOM_ERROR => 8 | NUMBER_ERROR => 9
  | UTF8_ERROR => 10 | UNINITIALIZED => 11 | EMPTY => 12
  | UNESCAPED_CHARS => 13 | UNCLOSED_STRING => 14 | UNEXPECTED_ERROR => 15
  end.

(** ** The output object *)

(** The fields of [simdjson::ParsedJson] that stage 1 touches. *)
Record ParsedJson := mk_ParsedJson {
  byte_capacity : Z;
  structural_indexes : array;
  n_structural_indexes : Z }.

(** ** The chunk kernel and the entry point *)

Definition bitmask_array := nat -> Z.
Definition ba_set (a : bitmask_array) (c : nat) (v : Z) : bitmask_array :=
  fun c' => if Nat.eqb c' c then v else a c'.
Definition ba_empty : bitmask_array := fun _ => 0.

(** Running a function over the blocks [0 .. n-1], threading a state; the
    second form also collects a value per block. *)
Definition each_block {S : Type} (n : nat) (f : nat -> S -> S) (s : S) : S :=
  fold_left (fun s c => f c s) (seq 0 n) s.
Definition map_block {S : Type} (n : nat) (f : nat -> S -> Z * S) (s : S)
    : bitmask_array * S :=
  each_block n (fun c '(r, s) => let '(v, s') := f c s in (ba_set r c v, s'))
             (ba_empty, s).

Section Stage1.

(** [SIMD_WIDTH] is fixed by the architecture header that includes the
    generic file; it is a positive multiple of 64.  [NLANES] is
    [SIMD_WIDTH / 64], the number of 64-byte blocks [each64] visits. *)
Variable NLANES : positive.

(** [utf8_checker] is a per-architecture class, opaque to the generic code:
    a default-constructed state, [check_next_input] and the verdict read
    by [errors()]. *)
Variable utf8_checker : Type.
Variable utf8_new : utf8_checker.
Variable check_next_input : utf8_checker -> simd_input64 -> utf8_checker.
Variable has_error : utf8_checker -> bool.

(** Modelled from the spec: [utf8_checker::errors()] is not in the generic
    file.  The spec (7) lists [UTF8_ERROR] as the lexical status of the
    incremental UTF-8 validation, whose final verdict is consulted only
    after the last chunk (4.1, Error reporting). *)
Definition utf8_errors (u : utf8_checker) : errorValues :=
  if has_error u then UTF8_ERROR else SUCCESS.

Definition SIMD_WIDTH : Z := 64 * Z.pos NLANES.

(** Modelled from the spec: [each64] and [map64] are per-architecture
    helpers.  The kernel computes its masks "for every 64-byte lane
    produced from the chunk" (4.1): [each64 f] runs [f 0], [f 1], ... in
    order, [map64 f] collects the values in a [bitmask_array]. *)
Definition each64 {S : Type} (f : nat -> S -> S) (s : S) : S :=
  each_block (Pos.to_nat NLANES) f s.
Definition map64 {S : Type} (f : nat -> S -> Z * S) (s : S)
    : bitmask_array * S :=
  map_block (Pos.to_nat NLANES) f s.

(** The variables the kernel receives by reference. *)
Record scan_state := mk_scan_state {
  idx : Z;
  base_ptr : array;
  base : Z;
  prev_iter_ends_odd_backslash : bool;
  prev_iter_inside_quote : Z;
  prev_iter_ends_pseudo_pred : bool;
  prev_structurals : Z;
  error_mask : Z;
  utf8_state : utf8_checker }.

(** [find_structural_bits(in_buf, idx, base_ptr, base, ...)]: one chunk. *)
Definition find_structural_bits_chunk (in_buf : pointer) (st : scan_state)
    : scan_state :=
  let in64 (chunk : nat) := load64 (ptr_add in_buf (Z.of_nat chunk * 64)) in
  let utf8_state' :=
    each64 (fun chunk u => check_next_input u (in64 chunk)) (utf8_state st) in
  let '(odd_ends, ends_odd_backslash') :=
    map64 (fun chunk prev =>
             find_odd_backslash_sequences (simd_eq (in64 chunk) 0x5C) prev)
          (prev_iter_ends_odd_backslash st) in
  let '(quote_mask, (quote_bits, inside_quote', error_mask')) :=
    map64 (fun chunk '(quote_bits, inside_quote, err) =>
             let quote_bits := ba_set quote_bits chunk (simd_eq (in64 chunk) 0x22) in
             let unescaped := simd_lteq (in64 chunk) 0x1F in
             let r := find_quote_mask_and_bits unescaped (odd_ends chunk)
                        inside_quote (quote_bits chunk) err in
             (qr_quote_mask r,
              (ba_set quote_bits chunk (qr_quote_bits r),
               qr_prev_iter_inside_quote r, qr_error_mask r)))
          (ba_empty, prev_iter_inside_quote st, error_mask st) in
  let '(whitespace, structurals) :=
    each64 (fun chunk '(ws, sts) =>
              let '(w, s) := find_whitespace_and_structurals (in64 chunk) in
              (ba_set ws chunk w, ba_set sts chunk s))
           (ba_empty, ba_empty) in
  let '(idx', base_ptr', base', pseudo_pred', structurals') :=
    each64 (fun chunk '(i, bp, b, pp, ps) =>
              let '(bp', b') := flatten_bits bp b i ps in
              let '(ps', pp') :=
                finalize_structurals (structurals chunk) (whitespace chunk)
                  (quote_mask chunk) (quote_bits chunk) pp in
              (i + 64, bp', b', pp', ps'))
           (idx st, base_ptr st, base st,
            prev_iter_ends_pseudo_pred st, prev_structurals st) in
  mk_scan_state idx' base_ptr' base' ends_odd_backslash' inside_quote'
                pseudo_pred' structurals' error_mask' utf8_state'.

(** [while (idx < last_chunk_idx) find_structural_bits(&buf[idx], idx, ...)].
    The loop is driven by fuel; [None] means the fuel ran out. *)
Fixpoint scan_loop (fuel : nat) (buf : pointer) (last_chunk_idx : Z)
    (st : scan_state) : option scan_state :=
  if idx st <? last_chunk_idx then
    match fuel with
    | O => None
    | S fuel' =>
        scan_loop fuel' buf last_chunk_idx
          (find_structural_bits_chunk (ptr_add buf (idx st)) st)
    end
  else Some st.

(** The state the entry point starts from. *)
Definition initial_state (base_ptr : array) : scan_state :=
  mk_scan_state 0 base_ptr 0 false 0 true 0 0 utf8_new.

(** The local [tmp_buf] of the entry point after its [memset] and
    [memcpy]; the array is not initialised before. *)
Definition tail_buffer (buf : pointer) (len idx : Z) : pointer :=
  let tmp_buf := memset (fun _ => 0) 0x20 SIMD_WIDTH in
  memcpy tmp_buf (ptr_add buf idx) (len - idx).

(** The final, partial chunk: padded with spaces in a local buffer. *)
Definition scan_tail (buf : pointer) (len : Z) (st : scan_state) : scan_state :=
  if idx st <? len then
    find_structural_bits_chunk (tail_buffer buf len (idx st)) st
  else st.

(** Both scanning steps of the entry point. *)
Definition scan (buf : pointer) (len : Z) (base_ptr : array)
    : option scan_state :=
  let last_chunk_idx := if len <? SIMD_WIDTH then 0 else len - SIMD_WIDTH in
  match scan_loop (Z.to_nat len) buf last_chunk_idx (initial_state base_ptr) with
  | None => None
  | Some st => Some (scan_tail buf len st)
  end.

(** The checks of the entry point after the last chunk. *)
Definition finish (len : Z) (pj : ParsedJson) (st : scan_state)
    : errorValues * ParsedJson :=
  if negb (prev_iter_inside_quote st =? 0) then
    (UNCLOSED_STRING,
     mk_ParsedJson (byte_capacity pj) (base_ptr st) (n_structural_indexes pj))
  else
    let '(a, b) := flatten_bits (base_ptr st) (base st) (idx st)
                     (prev_structurals st) in
    let n := b in
    if n =? 0 then (EMPTY, mk_ParsedJson (byte_capacity pj) a n)
    else if a (n - 1) >? len then
      (UNEXPECTED_ERROR, mk_ParsedJson (byte_capacity pj) a n)
    else
      let '(a, n) :=
        if negb (len =? a (n - 1))
        then (array_set a n (wrap32 len), wrap32 (n + 1))
        else (a, n) in
      let a := array_set a n 0 in
      let pj' := mk_ParsedJson (byte_capacity pj) a n in
      if negb (error_mask st =? 0) then (UNESCAPED_CHARS, pj')
      else (utf8_errors (utf8_state st), pj').

(** [int find_structural_bits(const uint8_t *buf, size_t len, ParsedJson &pj)] *)
Definition find_structural_bits (buf : pointer) (len : Z) (pj : ParsedJson)
    : option (errorValues * ParsedJson) :=
  if len >? byte_capacity pj then Some (CAPACITY, pj)
  else
    match scan buf len (structural_indexes pj) with
    | None => None
    | Some st => Some (finish len pj st)
    end.

End Stage1.

Arguments mk_scan_state {utf8_checker}.
Arguments idx {utf8_checker}.
Arguments base_ptr {utf8_checker}.
Arguments base {utf8_checker}.
Arguments prev_iter_ends_odd_backslash {utf8_checker}.
Arguments prev_iter_inside_quote {utf8_checker}.
Arguments prev_iter_ends_pseudo_pred {utf8_checker}.
Arguments prev_structurals {utf8_checker}.
Arguments error_mask {utf8_checker}.
Arguments utf8_state {utf8_checker}.


(** ** Auxiliary notions used to state the properties *)

(** The range of a [uint64_t]. *)
Definition is64 (x : Z) : Prop := 0 <= x < 2 ^ 64.

(** The number whose binary digits, least significant first, are [l]. *)
Fixpoint mask_of_bools (l : list bool) : Z :=
  match l with
  | [] => 0
  | b :: l' => Z.b2z b + 2 * mask_of_bools l'
  end.

(** XOR of the [k] bits of [q] that start at bit [i]. *)
Fixpoint xor_range (q : Z) (i : Z) (k : nat) : bool :=
  match k with
  | O => false
  | S k' => xorb (xor_range q i k') (Z.testbit q (i + Z.of_nat k'))
  end.

(** Carry into bit [n] of the sum [x + y]. *)
Fixpoint carry_in (x y : Z) (n : nat) : bool :=
  match n with
  | O => false
  | S m =>
      let a := Z.testbit x (Z.of_nat m) in
      let b := Z.testbit y (Z.of_nat m) in
      (a && b) || (carry_in x y m && (a || b))
  end.

(** Within one block: is the run of set bits of [bs] that ends just before
    bit [n] of odd length, when [c] tells whether the run that ends just
    before bit 0 is? *)
Fixpoint lane_run_odd (bs : Z) (c : bool) (n : nat) : bool :=
  match n with
  | O => c
  | S m => if Z.testbit bs (Z.of_nat m) then negb (lane_run_odd bs c m) else false
  end.

(** ** The kernel, one 64-byte block at a time *)

Section Blocks.

Variable utf8_checker : Type.
Variable check_next_input : utf8_checker -> simd_input64 -> utf8_checker.

(** Everything the kernel does for one 64-byte block, in one step: the
    kernel runs its passes one after the other over all the blocks of a
    chunk, but each pass only threads its own carry. *)
Definition block_step (in64 : simd_input64) (st : scan_state utf8_checker)
    : scan_state utf8_checker :=
  let '(odd_ends, ends_odd_backslash) :=
    find_odd_backslash_sequences (simd_eq in64 0x5C)
      (prev_iter_ends_odd_backslash st) in
  let r := find_quote_mask_and_bits (simd_lteq in64 0x1F) odd_ends
             (prev_iter_inside_quote st) (simd_eq in64 0x22) (error_mask st) in
  let '(whitespace, structurals) := find_whitespace_and_structurals in64 in
  let '(bp, b) := flatten_bits (base_ptr st) (base st) (idx st)
                    (prev_structurals st) in
  let '(ps, pp) :=
    finalize_structurals structurals whitespace (qr_quote_mask r)
      (qr_quote_bits r) (prev_iter_ends_pseudo_pred st) in
  mk_scan_state (idx st + 64) bp b ends_odd_backslash
    (qr_prev_iter_inside_quote r) pp ps (qr_error_mask r)
    (check_next_input (utf8_state st) in64).

(** The parts of a block step, without pattern matching. *)
Definition step_odd_ends (in64 : simd_input64) (st : scan_state utf8_checker)
    : Z * bool :=
  find_odd_backslash_sequences (simd_eq in64 0x5C)
    (prev_iter_ends_odd_backslash st).
Definition step_quotes (in64 : simd_input64) (st : scan_state utf8_checker)
    : quote_result :=
  find_quote_mask_and_bits (simd_lteq in64 0x1F)
    (fst (step_odd_ends in64 st)) (prev_iter_inside_quote st)
    (simd_eq in64 0x22) (error_mask st).
Definition step_finalize (in64 : simd_input64) (st : scan_state utf8_checker)
    : Z * bool :=
  finalize_structurals (snd (find_whitespace_and_structurals in64))
    (fst (find_whitespace_and_structurals in64))
    (qr_quote_mask (step_quotes in64 st)) (qr_quote_bits (step_quotes in64 st))
    (prev_iter_ends_pseudo_pred st).
Definition step_flatten (st : scan_state utf8_checker) : array * Z :=
  flatten_bits (base_ptr st) (base st) (idx st) (prev_structurals st).

(** The [c]-th 64-byte block of a stream. *)
Definition block (s : pointer) (c : nat) : simd_input64 :=
  load64 (ptr_add s (Z.of_nat c * 64)).

(** The state after the first [n] blocks of the stream [s]. *)
Definition blocks_state (s : pointer) (n : nat) (st : scan_state utf8_checker)
    : scan_state utf8_checker :=
  fold_left (fun st c => block_step (block s c) st) (seq 0 n) st.

End Blocks.

Arguments step_odd_ends {utf8_checker}.
Arguments step_quotes {utf8_checker}.
Arguments step_finalize {utf8_checker}.
Arguments step_flatten {utf8_checker}.

(** The input as the kernel sees it: the bytes of [buf] below [len], then
    spaces. *)
Definition padded (buf : pointer) (len : Z) : pointer :=
  fun i => if i <? len then buf i else 0x20.

(** ** What the masks mean, byte by byte *)

Section Reference.

Variable s : pointer.

Definition byte_at (p : nat) : byte := s (Z.of_nat p).

(** The maximal run of backslashes that ends just before position [p] has
    odd length. *)
Fixpoint run_odd (p : nat) : bool :=
  match p with
  | O => false
  | S q => if byte_at q =? 0x5C then negb (run_odd q) else false
  end.

(** A quote that is not escaped. *)
Definition real_quote (p : nat) : bool :=
  (byte_at p =? 0x22) && negb (run_odd p).

(** The number of unescaped quotes strictly before [p] is odd: position [p]
    follows an opening quote that is not closed yet. *)
Fixpoint inside_before (p : nat) : bool :=
  match p with
  | O => false
  | S q => xorb (inside_before q) (real_quote q)
  end.

(** Bit of the quote mask: the opening quote and the inside of a string. *)
Definition in_quote_mask (p : nat) : bool := inside_before (S p).

(** Structural bytes outside strings, and the unescaped quotes. *)
Definition masked_structural (p : nat) : bool :=
  (is_structural (byte_at p) && negb (in_quote_mask p)) || real_quote p.

Definition pseudo_pred (p : nat) : bool :=
  masked_structural p || is_whitespace (byte_at p).

Definition pred_before (p : nat) : bool :=
  match p with
  | O => true
  | S q => pseudo_pred q
  end.

(** The position is reported in the structural index. *)
Definition structural_at (p : nat) : bool :=
  (masked_structural p ||
   (pred_before p && negb (is_whitespace (byte_at p)) && negb (in_quote_mask p)))
  && negb (real_quote p && negb (in_quote_mask p)).

(** A control byte inside a string. *)
Definition unescaped_control (p : nat) : bool :=
  in_quote_mask p && (byte_at p <=? 0x1F).

(** The 64-bit mask of a property of positions over block [j]. *)
Definition block_mask (f : nat -> bool) (j : nat) : Z :=
  mask_of_bools (map f (seq (64 * j) 64)).

(** The OR of the masks of the blocks [0 .. n-1]. *)
Fixpoint or_masks (f : nat -> bool) (n : nat) : Z :=
  match n with
  | O => 0
  | S m => Z.lor (or_masks f m) (block_mask f m)
  end.

End Reference.

(** Appending one offset to the index array. *)
Definition push (ab : array * Z) (v : Z) : array * Z :=
  (array_set (fst ab) (snd ab) v, wrap32 (snd ab + 1)).

(** The offsets of the structural positions below [n], as stored. *)
Definition offsets (s : pointer) (n : nat) : list Z :=
  map (fun p => wrap32 (Z.of_nat p)) (filter (structural_at s) (seq 0 n)).

(** The mask that waits to be flattened after [n] blocks. *)
Definition pending (s : pointer) (n : nat) : Z :=
  match n with
  | O => 0
  | S m => block_mask (structural_at s) m
  end.

(** [l] is strictly increasing and starts at [lo] or above. *)
Fixpoint increasing_from (lo : Z) (l : list Z) : Prop :=
  match l with
  | [] => True
  | x :: r => lo <= x /\ increasing_from (x + 1) r
  end.

(** The array after the values of [l] have been stored from index [b] on. *)
Definition stored (a : array) (b : Z) (l : list Z) : array :=
  fun i => if (b <=? i) && (i <? b + Z.of_nat (length l))
           then nth (Z.to_nat (i - b)) l 0 else a i.

(** The UTF-8 state after the first [n] blocks of a stream. *)
Definition utf8_after {utf8_checker : Type} (utf8_new : utf8_checker)
    (check_next_input : utf8_checker -> simd_input64 -> utf8_checker)
    (s : pointer) (n : nat) : utf8_checker :=
  fold_left check_next_input (map (block s) (seq 0 n)) utf8_new.

(** The status of the entry point once the index is complete. *)
Definition final_status {utf8_checker : Type} (has_error : utf8_checker -> bool)
    (st : scan_state utf8_checker) : errorValues :=
  if error_mask st =? 0 then utf8_errors utf8_checker has_error (utf8_state st)
  else UNESCAPED_CHARS.

(** ** Inputs given as lists of bytes *)

(** The buffer whose bytes are those of [l]. *)
Definition buffer_of (l : list byte) : pointer :=
  fun i => if i <? 0 then 0 else nth (Z.to_nat i) l 0.

(** The first bytes of [buf] are the bytes of [l]. *)
Definition holds (buf : pointer) (l : list byte) : Prop :=
  forall i, (i < length l)%nat -> buf (Z.of_nat i) = nth i l 0.

(** ** What is assumed of the UTF-8 checker *)

Definition is_ascii (b : byte) : Prop := 0 <= b < 0x80.

(** A checker that has only seen ASCII bytes reports no error. *)
Definition accepts_ascii {utf8_checker : Type} (utf8_new : utf8_checker)
    (check_next_input : utf8_checker -> simd_input64 -> utf8_checker)
    (has_error : utf8_checker -> bool) : Prop :=
  forall blocks : list simd_input64,
    Forall (Forall is_ascii) blocks ->
    has_error (fold_left check_next_input blocks utf8_new) = false.

(** A scalar UTF-8 checker, one instance of the interface the kernel uses:
    it tracks how many continuation bytes the current sequence still needs. *)
Module ScalarUtf8.

Record checker := mk_checker { error : bool; pending_bytes : nat }.

Definition new : checker := mk_checker false 0.

Definition check_byte (u : checker) (b : byte) : checker :=
  match pending_bytes u with
  | O =>
      if b <? 0x80 then u
      else if (0xC2 <=? b) && (b <=? 0xDF) then mk_checker (error u) 1
      else if (0xE0 <=? b) && (b <=? 0xEF) then mk_checker (error u) 2
      else if (0xF0 <=? b) && (b <=? 0xF4) then mk_checker (error u) 3
      else mk_checker true 0
  | S k =>
      if (0x80 <=? b) && (b <=? 0xBF) then mk_checker (error u) k
      else mk_checker true 0
  end.

Definition check_next_input (u : checker) (in64 : simd_input64) : checker :=
  fold_left check_byte in64 u.

Definition has_error (u : checker) : bool := error u.

End ScalarUtf8.

(** ** The backslash pass on its own *)

(** [prev_iter_ends_odd_backslash] when block [j] of the stream is reached. *)
Fixpoint backslash_carry (s : pointer) (j : nat) : bool :=
  match j with
  | O => false
  | S j' =>
      snd (find_odd_backslash_sequences (simd_eq (block s j') 0x5C)
             (backslash_carry s j'))
  end.

(** The value [find_odd_backslash_sequences] returns for block [j]. *)
Definition odd_ends_of (s : pointer) (j : nat) : Z :=
  fst (find_odd_backslash_sequences (simd_eq (block s j) 0x5C)
         (backslash_carry s j)).

(** The [quote_bits] that [find_quote_mask_and_bits] leaves for block [j]. *)
Definition quote_bits_of (s : pointer) (j : nat) : Z :=
  qr_quote_bits
    (find_quote_mask_and_bits 0 (odd_ends_of s j) 0 (simd_eq (block s j) 0x22) 0).

(** Position [p] is in the [odd_ends] mask, resp. in [quote_bits]. *)
Definition in_odd_ends (s : pointer) (p : nat) : bool :=
  Z.testbit (odd_ends_of s (p / 64)) (Z.of_nat (p mod 64)).
Definition in_quote_bits (s : pointer) (p : nat) : bool :=
  Z.testbit (quote_bits_of s (p / 64)) (Z.of_nat (p mod 64)).

(** ** Running the kernel over chunks *)

Section Chunked.

Variable NLANES : positive.
Variable utf8_checker : Type.
Variable check_next_input : utf8_checker -> simd_input64 -> utf8_checker.

(** [k] successive calls of the kernel on the memory at [p]. *)
Fixpoint kernel_iter (k : nat) (p : pointer) (st : scan_state utf8_checker)
    : scan_state utf8_checker :=
  match k with
  | O => st
  | S k' =>
      kernel_iter k' (ptr_add p (SIMD_WIDTH NLANES))
        (find_structural_bits_chunk NLANES utf8_checker check_next_input p st)
  end.

(** The kernel over a chunk held in a buffer of its own, the carry record
    coming from the chunk before. *)
Definition index_chunk (chunk : list byte) (st : scan_state utf8_checker)
    : scan_state utf8_checker :=
  kernel_iter (Z.to_nat (Z.of_nat (length chunk) / SIMD_WIDTH NLANES))
    (buffer_of chunk) st.


End Chunked.

(** ** The stream driver's header *)

Module JsonStream.

(** The data members of [simdjson::JsonStream] with their default member
    initializers; [best_implementation] has none and is left out. *)
Record t := mk {
  buf : pointer;
  next_json : Z;
  batch_size : Z;
  len : Z;
  error_on_last_attempt : bool;
  load_next_batch : bool;
  current_buffer_loc : Z;
  n_parsed_docs : Z;
  n_bytes_parsed : Z }.

(** The value of an argument that has a default: [None] when the caller
    leaves it out. *)
Definition default_arg (given : option Z) (default : Z) : Z :=
  match given with
  | Some v => v
  | None => default
  end.

(** [JsonStream(const char *buf, size_t len, size_t batch_size = 1000000)] *)
Definition of_pointer (buf : pointer) (len : Z) (batch_size : option Z) : t :=
  mk buf 0 (default_arg batch_size 1000000) len false true 0 0 0.

(** [JsonStream(const std::string &s, size_t batch_size = 1000000)],
    which delegates to the constructor above. *)
Definition of_string (s : list byte) (batch_size : option Z) : t :=
  of_pointer (buffer_of s) (Z.of_nat (length s))
    (Some (default_arg batch_size 1000000)).

End JsonStream.

(** ** Notions used to state the claims *)

(** The bytes [o .. c] of [buf] are a string literal: an unescaped quote
    that opens a string, up to the next unescaped quote. *)
Definition string_literal (buf : pointer) (o c : nat) : Prop :=
  real_quote buf o = true /\ inside_before buf o = false /\ (o < c)%nat /\
  real_quote buf c = true /\
  forall p, (o < p < c)%nat -> real_quote buf p = false.

(** A chunk is a positive number of [SIMD_WIDTH]-byte units. *)
Definition whole_chunk (NLANES : positive) (c : list byte) : Prop :=
  exists m, (1 <= m)%nat /\ Z.of_nat (length c) = Z.of_nat m * SIMD_WIDTH NLANES.

(** The offset [x] is one of the reported structural indexes. *)
Definition emitted (pj : ParsedJson) (x : Z) : Prop :=
  exists i, 0 <= i < n_structural_indexes pj /\ structural_indexes pj i = x.

(** A maximal run of [k] backslashes that starts at [start]. *)
Definition backslash_run (s : pointer) (start k : nat) : Prop :=
  (start = 0%nat \/ byte_at s (start - 1) <> 0x5C) /\
  forall i, (i < k)%nat -> byte_at s (start + i) = 0x5C.

(** The inputs of the scenarios of the specification. *)
Definition object_example : list byte := [0x7B; 0x22; 0x61; 0x22; 0x3A; 0x31; 0x7D].
Definition unclosed_example : list byte := [0x22; 0x61; 0x62; 0x63].
Definition control_example : list byte := [0x22; 0x61; 0x01; 0x62; 0x22].

(** An input of 4 GiB: the digit 1, then spaces. *)
Definition huge_input : pointer := fun i => if i =? 0 then 0x31 else 0x20.

(** Two chunks of 64 bytes: the object of scenario 1 padded with spaces, then
    spaces. *)
Definition example_chunks : list (list byte) :=
  [object_example ++ repeat 0x20 57; repeat 0x20 64].

(** ** A scalar reference for the entry point *)

(** Status and reported offsets, computed byte by byte from an input given
    as a list: the reference the bit-parallel code is compared with. *)
Definition reference_index (l : list byte) : errorValues * list Z :=
  let b := buffer_of l in
  let n := length l in
  if inside_before b n then (UNCLOSED_STRING, [])
  else
    match offsets b n with
    | [] => (EMPTY, [])
    | offs =>
        (if existsb (unescaped_control b) (seq 0 n) then UNESCAPED_CHARS
         else SUCCESS,
         offs ++ [Z.of_nat n])
    end.

(** The byte before [p] lets a run of non-whitespace start at [p]: there is
    none, or it is whitespace, a structural character or an unescaped
    quote. *)
Definition starts_run (buf : pointer) (p : nat) : bool :=
  match p with
  | O => true
  | S q =>
      is_whitespace (byte_at buf q) || is_structural (byte_at buf q)
      || real_quote buf q
  end.

(* ================================================================== *)
(** * Properties *)

(** ** Bits of 64-bit values *)

Lemma ALL_ONES_ones : ALL_ONES = Z.ones 64.
Proof. reflexivity. Qed.

Lemma is64_wrap64 x : is64 (wrap64 x).
Proof. unfold is64, wrap64. apply Z.mod_pos_bound. reflexivity. Qed.

Lemma testbit_wrap64 x i : i < 64 -> Z.testbit (wrap64 x) i = Z.testbit x i.
Proof. intros. unfold wrap64. apply Z.mod_pow2_bits_low. lia. Qed.

Lemma testbit_high x i : is64 x -> 64 <= i -> Z.testbit x i = false.
Proof.
  intros [H0 H1] Hi.
  rewrite <- (Z.mod_small x (2 ^ 64)) by lia.
  apply Z.mod_pow2_bits_high. lia.
Qed.

Lemma is64_bits x : (forall i, 64 <= i -> Z.testbit x i = false) -> is64 x.
Proof.
  intros H.
  assert (E : x = wrap64 x).
  { apply Z.bits_inj'. intros i Hi.
    destruct (Z.lt_ge_cases i 64) as [Hlt | Hge].
    - now rewrite testbit_wrap64.
    - rewrite H by assumption. symmetry.
      apply Z.mod_pow2_bits_high. lia. }
  rewrite E. apply is64_wrap64.
Qed.

Lemma wrap64_small x : is64 x -> wrap64 x = x.
Proof. intros. apply Z.mod_small. assumption. Qed.

Lemma testbit_ALL_ONES i : Z.testbit ALL_ONES i = (0 <=? i) && (i <? 64).
Proof. rewrite ALL_ONES_ones. apply Z.testbit_ones. lia. Qed.

Lemma testbit_not64 x i :
  0 <= i < 64 -> Z.testbit (not64 x) i = negb (Z.testbit x i).
Proof.
  intros Hi. unfold not64. rewrite Z.lxor_spec, testbit_ALL_ONES.
  replace (0 <=? i) with true by (symmetry; apply Z.leb_le; lia).
  replace (i <? 64) with true by (symmetry; apply Z.ltb_lt; lia).
  apply xorb_true_r.
Qed.

Lemma is64_not64 x : is64 x -> is64 (not64 x).
Proof.
  intros Hx. apply is64_bits. intros i Hi. unfold not64.
  rewrite Z.lxor_spec, testbit_ALL_ONES, (testbit_high x i Hx Hi).
  replace (i <? 64) with false by (symmetry; apply Z.ltb_ge; lia).
  now rewrite andb_false_r.
Qed.

Lemma is64_land x y : is64 x -> is64 (Z.land x y).
Proof.
  intros Hx. apply is64_bits. intros i Hi.
  now rewrite Z.land_spec, (testbit_high x i Hx Hi).
Qed.

Lemma is64_land_r x y : is64 y -> is64 (Z.land x y).
Proof. intros. rewrite Z.land_comm. now apply is64_land. Qed.

Lemma is64_lor x y : is64 x -> is64 y -> is64 (Z.lor x y).
Proof.
  intros Hx Hy. apply is64_bits. intros i Hi.
  now rewrite Z.lor_spec, (testbit_high x i Hx Hi), (testbit_high y i Hy Hi).
Qed.

Lemma is64_lxor x y : is64 x -> is64 y -> is64 (Z.lxor x y).
Proof.
  intros Hx Hy. apply is64_bits. intros i Hi.
  now rewrite Z.lxor_spec, (testbit_high x i Hx Hi), (testbit_high y i Hy Hi).
Qed.

Lemma is64_b2z b : is64 (Z.b2z b).
Proof. destruct b; unfold is64; simpl; lia. Qed.

Lemma is64_0 : is64 0.
Proof. unfold is64. lia. Qed.

Lemma is64_ALL_ONES : is64 ALL_ONES.
Proof. unfold is64, ALL_ONES. lia. Qed.

Lemma testbit_b2z b i : Z.testbit (Z.b2z b) i = b && (i =? 0).
Proof.
  destruct (Z.eqb_spec i 0) as [-> | Hne].
  - now rewrite Z.b2z_bit0, andb_true_r.
  - rewrite andb_false_r. destruct b; simpl.
    + destruct i; try reflexivity; try lia.
    + apply Z.testbit_0_l.
Qed.

Lemma testbit_shl64_1 x i :
  0 <= i < 64 -> Z.testbit (shl64 x 1) i = Z.testbit x (i - 1).
Proof.
  intros Hi. unfold shl64. rewrite testbit_wrap64 by lia.
  apply Z.shiftl_spec. lia.
Qed.

Lemma is64_eq x y :
  is64 x -> is64 y ->
  (forall i, 0 <= i < 64 -> Z.testbit x i = Z.testbit y i) -> x = y.
Proof.
  intros Hx Hy H. apply Z.bits_inj'. intros i Hi.
  destruct (Z.lt_ge_cases i 64).
  - apply H. lia.
  - now rewrite (testbit_high x), (testbit_high y).
Qed.

Lemma nonzero_bit x i : Z.testbit x i = true -> x <> 0.
Proof. intros H ->. now rewrite Z.testbit_0_l in H. Qed.

Lemma is64_zero_bits x :
  is64 x -> (forall i, 0 <= i < 64 -> Z.testbit x i = false) -> x = 0.
Proof.
  intros Hx H. apply is64_eq; try assumption; try apply is64_0.
  intros i Hi. now rewrite H, Z.testbit_0_l.
Qed.

(** The constant [0x5555555555555555] has exactly the even bits set. *)
Lemma testbit_even_bits i :
  0 <= i < 64 -> Z.testbit even_bits i = Z.even i.
Proof.
  intros Hi.
  assert (A : forallb (fun n => Bool.eqb (Z.testbit even_bits (Z.of_nat n))
                                         (Z.even (Z.of_nat n)))
                      (seq 0 64) = true) by (vm_compute; reflexivity).
  rewrite forallb_forall in A.
  specialize (A (Z.to_nat i)).
  rewrite Z2Nat.id in A by lia.
  apply eqb_prop, A, in_seq. lia.
Qed.

Lemma testbit_odd_bits i :
  0 <= i < 64 -> Z.testbit odd_bits i = Z.odd i.
Proof.
  intros Hi. unfold odd_bits.
  rewrite testbit_not64, testbit_even_bits by assumption.
  now rewrite Z.negb_even.
Qed.

(** ** Masks built from lists of bits *)

Lemma testbit_mask_of_bools l n :
  Z.testbit (mask_of_bools l) (Z.of_nat n) = nth n l false.
Proof.
  revert n. induction l as [| b l IH]; intros n; cbn [mask_of_bools].
  - rewrite Z.testbit_0_l. now destruct n.
  - rewrite Z.add_comm. destruct n as [| n].
    + apply Z.testbit_0_r.
    + rewrite Nat2Z.inj_succ, Z.testbit_succ_r by lia. apply IH.
Qed.

Lemma mask_of_bools_range l :
  0 <= mask_of_bools l < 2 ^ Z.of_nat (length l).
Proof.
  induction l as [| b l IH].
  - simpl. lia.
  - cbn [mask_of_bools length]. rewrite Nat2Z.inj_succ, Z.pow_succ_r by lia.
    destruct b; simpl Z.b2z; lia.
Qed.

Lemma is64_mask_of_bools l : length l = 64%nat -> is64 (mask_of_bools l).
Proof.
  intros H. pose proof (mask_of_bools_range l) as R.
  rewrite H in R. exact R.
Qed.

Lemma bitmask_of_bools f l : bitmask_of f l = mask_of_bools (map f l).
Proof.
  induction l as [| b l IH]; [reflexivity |].
  cbn [bitmask_of map mask_of_bools]. now rewrite IH.
Qed.

Lemma length_load64 p : length (load64 p) = 64%nat.
Proof. unfold load64. now rewrite length_map, length_seq. Qed.

Lemma nth_load64 p n d : (n < 64)%nat -> nth n (load64 p) d = p (Z.of_nat n).
Proof.
  intros H. unfold load64.
  rewrite (nth_indep _ d (p (Z.of_nat 0))) by now rewrite length_map, length_seq.
  rewrite (map_nth (fun i => p (Z.of_nat i))), seq_nth by assumption.
  reflexivity.
Qed.

Lemma is64_bitmask_of f p : is64 (bitmask_of f (load64 p)).
Proof.
  rewrite bitmask_of_bools. apply is64_mask_of_bools.
  now rewrite length_map, length_load64.
Qed.

Lemma testbit_bitmask_of f p n :
  (n < 64)%nat ->
  Z.testbit (bitmask_of f (load64 p)) (Z.of_nat n) = f (p (Z.of_nat n)).
Proof.
  intros H. rewrite bitmask_of_bools, testbit_mask_of_bools.
  rewrite (nth_indep _ false (f 0)) by now rewrite length_map, length_load64.
  rewrite map_nth. now rewrite nth_load64.
Qed.

(** ** The prefix XOR of [compute_quote_mask] *)

Lemma xor_range_peel q i k :
  xor_range q i (S k) = xorb (Z.testbit q i) (xor_range q (i + 1) k).
Proof.
  induction k as [| k IH].
  - simpl. rewrite Z.add_0_r. now destruct (Z.testbit q i).
  - change (xor_range q i (S (S k)))
      with (xorb (xor_range q i (S k)) (Z.testbit q (i + Z.of_nat (S k)))).
    rewrite IH. cbn [xor_range].
    replace (i + 1 + Z.of_nat k) with (i + Z.of_nat (S k)) by lia.
    now rewrite xorb_assoc.
Qed.

Lemma testbit_prefix_xor n i acc q j :
  0 <= i -> 0 <= j ->
  Z.testbit (prefix_xor n i acc q) j =
  if (i <=? j) && (j <? i + Z.of_nat n)
  then xorb acc (xor_range q i (S (Z.to_nat (j - i))))
  else false.
Proof.
  revert i acc. induction n as [| n IH]; intros i acc Hi Hj.
  - simpl. rewrite Z.testbit_0_l.
    destruct (i <=? j) eqn:E1; [| reflexivity].
    destruct (j <? i + 0) eqn:E2; [| reflexivity].
    apply Z.leb_le in E1. apply Z.ltb_lt in E2. lia.
  - cbn [prefix_xor]. rewrite Z.lor_spec, Z.shiftl_spec by assumption.
    rewrite testbit_b2z, IH by lia.
    destruct (Z.eq_dec j i) as [-> | Hne].
    + rewrite Z.sub_diag, Z.eqb_refl, andb_true_r.
      replace (i + 1 <=? i) with false by (symmetry; apply Z.leb_gt; lia).
      rewrite Z.leb_refl.
      replace (i <? i + Z.of_nat (S n)) with true by (symmetry; apply Z.ltb_lt; lia).
      simpl. rewrite Z.add_0_r, orb_false_r. reflexivity.
    + replace (j - i =? 0) with false by (symmetry; apply Z.eqb_neq; lia).
      rewrite andb_false_r, orb_false_l.
      destruct (Z.lt_ge_cases j i) as [Hlt | Hge].
      * replace (i + 1 <=? j) with false by (symmetry; apply Z.leb_gt; lia).
        replace (i <=? j) with false by (symmetry; apply Z.leb_gt; lia).
        reflexivity.
      * replace (i + 1 <=? j) with true by (symmetry; apply Z.leb_le; lia).
        replace (i <=? j) with true by (symmetry; apply Z.leb_le; lia).
        replace (j <? i + 1 + Z.of_nat n) with (j <? i + Z.of_nat (S n))
          by (f_equal; lia).
        destruct (j <? i + Z.of_nat (S n)); [| reflexivity].
        cbn [andb].
        replace (Z.to_nat (j - i)) with (S (Z.to_nat (j - (i + 1)))) by lia.
        rewrite (xor_range_peel q i (S _)). now rewrite xorb_assoc.
Qed.

Lemma is64_compute_quote_mask q : is64 (compute_quote_mask q).
Proof.
  apply is64_bits. intros i Hi. unfold compute_quote_mask.
  rewrite testbit_prefix_xor by lia.
  replace (i <? 0 + Z.of_nat 64) with false by (symmetry; apply Z.ltb_ge; lia).
  now rewrite andb_false_r.
Qed.

Lemma testbit_compute_quote_mask q n :
  (n < 64)%nat ->
  Z.testbit (compute_quote_mask q) (Z.of_nat n) = xor_range q 0 (S n).
Proof.
  intros H. unfold compute_quote_mask. rewrite testbit_prefix_xor by lia.
  replace (0 <=? Z.of_nat n) with true by (symmetry; apply Z.leb_le; lia).
  replace (Z.of_nat n <? 0 + Z.of_nat 64) with true by (symmetry; apply Z.ltb_lt; lia).
  rewrite Z.sub_0_r, Nat2Z.id. reflexivity.
Qed.

(** ** Carries of an addition *)

Lemma testbit_add x y n :
  Z.testbit (x + y) (Z.of_nat n) =
  xorb (xorb (Z.testbit x (Z.of_nat n)) (Z.testbit y (Z.of_nat n)))
       (carry_in x y n).
Proof.
  destruct (Z.add_carry_bits x y false) as (c & Hsum & Hc & Hc0).
  simpl Z.b2z in Hsum. rewrite Z.add_0_r in Hsum.
  assert (C : forall m, Z.testbit c (Z.of_nat m) = carry_in x y m).
  { induction m as [| m IH].
    - exact Hc0.
    - rewrite Nat2Z.inj_succ, <- Z.div2_bits, Hc by lia.
      rewrite Z.lor_spec, !Z.land_spec, Z.lor_spec, IH. reflexivity. }
  rewrite Hsum, !Z.lxor_spec, C. reflexivity.
Qed.

(** ** Odd-length runs of backslashes within one block *)

Section OddBackslash.

Variable bs : Z.
Variable c : bool.
Hypothesis bs64 : is64 bs.

Let start_edges := Z.land bs (not64 (shl64 bs 1)).
Let even_start_mask := Z.lxor even_bits (Z.b2z c).
Let even_starts := Z.land start_edges even_start_mask.
Let odd_starts := Z.land start_edges (not64 even_start_mask).

Let bit (n : nat) := Z.testbit bs (Z.of_nat n).
Let ev (n : nat) := Z.even (Z.of_nat n).
Let r (n : nat) := lane_run_odd bs c n.

Lemma ev_S n : ev (S n) = negb (ev n).
Proof.
  unfold ev. rewrite Nat2Z.inj_succ, Z.even_succ. now rewrite <- Z.negb_even.
Qed.

Lemma start_edges_bit n :
  (n < 64)%nat ->
  Z.testbit start_edges (Z.of_nat n) =
  bit n && negb (match n with O => false | S m => bit m end).
Proof.
  intros H. unfold start_edges.
  rewrite Z.land_spec, testbit_not64, testbit_shl64_1 by lia.
  destruct n as [| m].
  - now rewrite (Z.testbit_neg_r bs (Z.of_nat 0 - 1)) by lia.
  - replace (Z.of_nat (S m) - 1) with (Z.of_nat m) by lia. reflexivity.
Qed.

Lemma even_start_mask_bit n :
  (n < 64)%nat ->
  Z.testbit even_start_mask (Z.of_nat n) =
  xorb (ev n) (match n with O => c | S _ => false end).
Proof.
  intros H. unfold even_start_mask.
  rewrite Z.lxor_spec, testbit_even_bits, testbit_b2z by lia.
  destruct n; [now rewrite andb_true_r |].
  replace (Z.of_nat (S n) =? 0) with false by (symmetry; apply Z.eqb_neq; lia).
  now rewrite andb_false_r.
Qed.

Lemma is64_even_start_mask : is64 even_start_mask.
Proof.
  apply is64_lxor; [unfold is64, even_bits; lia | apply is64_b2z].
Qed.

Lemma even_starts_bit n :
  (n < 64)%nat ->
  Z.testbit even_starts (Z.of_nat n) =
  bit n && negb (match n with O => false | S m => bit m end)
        && xorb (ev n) (match n with O => c | S _ => false end).
Proof.
  intros H. unfold even_starts.
  now rewrite Z.land_spec, start_edges_bit, even_start_mask_bit.
Qed.

Lemma odd_starts_bit n :
  (n < 64)%nat ->
  Z.testbit odd_starts (Z.of_nat n) =
  bit n && negb (match n with O => false | S m => bit m end)
        && negb (xorb (ev n) (match n with O => c | S _ => false end)).
Proof.
  intros H. unfold odd_starts.
  now rewrite Z.land_spec, start_edges_bit, testbit_not64, even_start_mask_bit by lia.
Qed.

Lemma is64_start_edges : is64 start_edges.
Proof. now apply is64_land. Qed.

Lemma is64_even_starts : is64 even_starts.
Proof. apply is64_land, is64_start_edges. Qed.

Lemma is64_odd_starts : is64 odd_starts.
Proof. apply is64_land, is64_start_edges. Qed.

(** A carry runs through a run of backslashes exactly when the run starts
    at a position of the added mask; the parity of the run length is then
    read off the parity of the position the carry arrives at. *)
Lemma carries_run m :
  (m < 64)%nat ->
  carry_in bs even_starts (S m) = bit m && Bool.eqb (r (S m)) (negb (ev (S m))) /\
  carry_in bs odd_starts (S m) = bit m && Bool.eqb (r (S m)) (ev (S m)).
Proof.
  induction m as [| k IH]; intros H.
  - cbn [carry_in]. rewrite even_starts_bit, odd_starts_bit by lia.
    change (Z.testbit bs (Z.of_nat 0)) with (bit 0).
    unfold r. cbn [lane_run_odd]. fold (bit 0).
    rewrite ev_S. change (ev 0) with true.
    destruct (bit 0), c; split; reflexivity.
  - destruct IH as [IHe IHo]; [lia |].
    set (m := S k) in *.
    assert (Ee : Z.testbit even_starts (Z.of_nat m) = bit m && negb (bit k) && ev m).
    { rewrite even_starts_bit by lia. unfold m. now rewrite xorb_false_r. }
    assert (Eo : Z.testbit odd_starts (Z.of_nat m) = bit m && negb (bit k) && negb (ev m)).
    { rewrite odd_starts_bit by lia. unfold m. now rewrite xorb_false_r. }
    assert (R : bit k = false -> r m = false).
    { intros Hk. unfold r, m. cbn [lane_run_odd]. fold (bit k).
      now rewrite Hk. }
    assert (Rm : r (S m) = if bit m then negb (r m) else false) by reflexivity.
    change (carry_in bs even_starts (S m))
      with (let a := bit m in let b := Z.testbit even_starts (Z.of_nat m) in
            a && b || carry_in bs even_starts m && (a || b)).
    change (carry_in bs odd_starts (S m))
      with (let a := bit m in let b := Z.testbit odd_starts (Z.of_nat m) in
            a && b || carry_in bs odd_starts m && (a || b)).
    cbv zeta. rewrite IHe, IHo, Ee, Eo, Rm, (ev_S m).
    destruct (bit k).
    + destruct (bit m), (r m), (ev m); split; reflexivity.
    + rewrite (R eq_refl). destruct (bit m), (ev m); split; reflexivity.
Qed.

Lemma run_needs_backslash m : r (S m) = true -> bit m = true.
Proof.
  unfold r. cbn [lane_run_odd]. fold (bit m). now destruct (bit m).
Qed.

Lemma overflow_bit s : 0 <= s < 2 ^ 65 -> (2 ^ 64 <=? s) = Z.testbit s 64.
Proof.
  intros Hs. destruct (Z.leb_spec (2 ^ 64) s) as [Hle | Hlt].
  - symmetry. apply Z.testbit_true; [lia |].
    replace (s / 2 ^ 64) with 1; [reflexivity |].
    apply Z.div_unique with (r := s - 2 ^ 64); lia.
  - symmetry. apply Z.bits_above_log2; [lia |].
    destruct (Z.eq_dec s 0) as [-> | Hne]; [simpl; lia |].
    apply Z.log2_lt_pow2; lia.
Qed.

Theorem find_odd_backslash_sequences_bits :
  let '(odd_ends, ends_odd) := find_odd_backslash_sequences bs c in
  is64 odd_ends /\
  ends_odd = lane_run_odd bs c 64 /\
  forall n, (n < 64)%nat ->
    Z.testbit odd_ends (Z.of_nat n) = negb (bit n) && lane_run_odd bs c n.
Proof.
  unfold find_odd_backslash_sequences, add_overflow, add64.
  fold start_edges. fold even_start_mask. fold even_starts. fold odd_starts.
  pose proof is64_even_starts as He. pose proof is64_odd_starts as Ho.
  split; [| split].
  - apply is64_lor; apply is64_land_r;
      [unfold odd_bits; apply is64_not64 | ]; unfold is64, even_bits; lia.
  - rewrite overflow_bit by (unfold is64 in *; lia).
    change 64 with (Z.of_nat 64). rewrite testbit_add.
    rewrite (testbit_high bs), (testbit_high odd_starts) by (assumption || simpl; lia).
    destruct (carries_run 63) as [_ Co]; [lia |].
    rewrite Co. fold (r 64). simpl xorb.
    change (ev 64) with true.
    pose proof (run_needs_backslash 63) as B.
    destruct (r 64); [now rewrite B | now rewrite andb_false_r].
  - intros n Hn.
    rewrite Z.lor_spec, !Z.land_spec, Z.lor_spec.
    rewrite !testbit_wrap64, !testbit_add by lia.
    rewrite testbit_not64, testbit_odd_bits, testbit_even_bits by lia.
    rewrite testbit_b2z, even_starts_bit, odd_starts_bit by assumption.
    fold (bit n). fold (ev n). fold (r n).
    rewrite <- Z.negb_even. fold (ev n).
    destruct n as [| m].
    + cbn [carry_in]. change (ev 0) with true. unfold r. cbn [lane_run_odd].
      change (Z.of_nat 0 =? 0) with true.
      destruct (bit 0), c; reflexivity.
    + destruct (carries_run m) as [Ce Co]; [lia |].
      rewrite Ce, Co.
      replace (Z.of_nat (S m) =? 0) with false by (symmetry; apply Z.eqb_neq; lia).
      pose proof (run_needs_backslash m) as B. fold (r (S m)) in *.
      destruct (bit (S m)), (bit m), (r (S m)), (ev (S m)), c;
        try reflexivity; now specialize (B eq_refl).
Qed.

End OddBackslash.

(** ** The sign broadcast and the top bit *)

Lemma top_bit x : is64 x -> (2 ^ 63 <=? x) = Z.testbit x 63.
Proof.
  intros Hx. unfold is64 in Hx.
  destruct (Z.leb_spec (2 ^ 63) x) as [Hle | Hlt].
  - symmetry. apply Z.testbit_true; [lia |].
    replace (x / 2 ^ 63) with 1; [reflexivity |].
    apply Z.div_unique with (r := x - 2 ^ 63); lia.
  - symmetry. apply Z.bits_above_log2; [lia |].
    destruct (Z.eq_dec x 0) as [-> | Hne]; [simpl; lia |].
    apply Z.log2_lt_pow2; lia.
Qed.

Lemma sar63_spec x :
  is64 x -> sar63 x = if Z.testbit x 63 then ALL_ONES else 0.
Proof.
  intros Hx. rewrite <- top_bit by assumption. unfold sar63, is64 in *.
  rewrite Z.shiftr_div_pow2 by lia.
  destruct (Z.leb_spec (2 ^ 63) x) as [Hle | Hlt].
  - replace (x <? 2 ^ 63) with false by (symmetry; apply Z.ltb_ge; lia).
    replace ((x - 2 ^ 64) / 2 ^ 63) with (-1); [reflexivity |].
    apply Z.div_unique with (r := x - 2 ^ 63); lia.
  - replace (x <? 2 ^ 63) with true by (symmetry; apply Z.ltb_lt; lia).
    now rewrite Z.div_small by lia.
Qed.

Lemma shiftr63_nonzero x :
  is64 x -> negb (Z.shiftr x 63 =? 0) = Z.testbit x 63.
Proof.
  intros Hx. rewrite <- top_bit by assumption. unfold is64 in Hx.
  rewrite Z.shiftr_div_pow2 by lia.
  destruct (Z.leb_spec (2 ^ 63) x) as [Hle | Hlt].
  - replace (x / 2 ^ 63) with 1; [reflexivity |].
    apply Z.div_unique with (r := x - 2 ^ 63); lia.
  - now rewrite Z.div_small by lia.
Qed.

Lemma testbit_broadcast (b : bool) i :
  0 <= i < 64 -> Z.testbit (if b then ALL_ONES else 0) i = b.
Proof.
  intros Hi. destruct b.
  - rewrite testbit_ALL_ONES.
    replace (0 <=? i) with true by (symmetry; apply Z.leb_le; lia).
    replace (i <? 64) with true by (symmetry; apply Z.ltb_lt; lia).
    reflexivity.
  - apply Z.testbit_0_l.
Qed.

Lemma is64_broadcast (b : bool) : is64 (if b then ALL_ONES else 0).
Proof. destruct b; [apply is64_ALL_ONES | apply is64_0]. Qed.

(** ** The quote mask of one block *)

Theorem find_quote_mask_and_bits_bits unescaped odd_ends (inside : bool) quote_bits err :
  is64 quote_bits ->
  let r := find_quote_mask_and_bits unescaped odd_ends
             (if inside then ALL_ONES else 0) quote_bits err in
  is64 (qr_quote_mask r) /\ is64 (qr_quote_bits r) /\
  qr_quote_bits r = Z.land quote_bits (not64 odd_ends) /\
  (forall n, (n < 64)%nat ->
     Z.testbit (qr_quote_mask r) (Z.of_nat n) =
     xorb inside (xor_range (qr_quote_bits r) 0 (S n))) /\
  qr_prev_iter_inside_quote r =
    (if xorb inside (xor_range (qr_quote_bits r) 0 64) then ALL_ONES else 0) /\
  qr_error_mask r = Z.lor err (Z.land (qr_quote_mask r) unescaped).
Proof.
  intros Hq. unfold find_quote_mask_and_bits. cbv zeta. cbn [qr_quote_mask qr_quote_bits
    qr_prev_iter_inside_quote qr_error_mask].
  set (qb := Z.land quote_bits (not64 odd_ends)).
  assert (Hm : is64 (Z.lxor (compute_quote_mask qb) (if inside then ALL_ONES else 0))).
  { apply is64_lxor; [apply is64_compute_quote_mask | apply is64_broadcast]. }
  assert (B : forall n, (n < 64)%nat ->
     Z.testbit (Z.lxor (compute_quote_mask qb) (if inside then ALL_ONES else 0))
               (Z.of_nat n) = xorb inside (xor_range qb 0 (S n))).
  { intros n Hn.
    rewrite Z.lxor_spec, testbit_compute_quote_mask, testbit_broadcast by lia.
    apply xorb_comm. }
  split; [exact Hm |]. split; [now apply is64_land |].
  split; [reflexivity |]. split; [exact B |]. split; [| reflexivity].
  rewrite sar63_spec by assumption.
  change 63 with (Z.of_nat 63). now rewrite B by lia.
Qed.

(** ** Finalization of one block *)

Theorem finalize_structurals_bits structurals whitespace quote_mask quote_bits pred :
  is64 structurals -> is64 whitespace -> is64 quote_mask -> is64 quote_bits ->
  let st n := Z.testbit structurals (Z.of_nat n) in
  let ws n := Z.testbit whitespace (Z.of_nat n) in
  let qm n := Z.testbit quote_mask (Z.of_nat n) in
  let qb n := Z.testbit quote_bits (Z.of_nat n) in
  let pp n := (st n && negb (qm n)) || qb n || ws n in
  let '(out, pred') :=
    finalize_structurals structurals whitespace quote_mask quote_bits pred in
  is64 out /\ pred' = pp 63%nat /\
  forall n, (n < 64)%nat ->
    Z.testbit out (Z.of_nat n) =
    ((st n && negb (qm n)) || qb n ||
     ((match n with O => pred | S m => pp m end) && negb (ws n) && negb (qm n)))
    && negb (qb n && negb (qm n)).
Proof.
  intros Hs Hw Hm Hb st ws qm qb pp. unfold finalize_structurals. cbv zeta.
  set (m1 := Z.lor (Z.land structurals (not64 quote_mask)) quote_bits).
  assert (H1 : is64 m1) by (apply is64_lor; [now apply is64_land | assumption]).
  assert (Hp : is64 (Z.lor m1 whitespace)) by now apply is64_lor.
  assert (P : forall n, (n < 64)%nat ->
            Z.testbit (Z.lor m1 whitespace) (Z.of_nat n) = pp n).
  { intros n Hn. unfold m1, pp, st, ws, qm, qb.
    now rewrite !Z.lor_spec, Z.land_spec, testbit_not64 by lia. }
  split; [| split].
  - apply is64_land. apply is64_lor; [assumption |].
    apply is64_land_r. now apply is64_not64.
  - rewrite shiftr63_nonzero by assumption.
    change 63 with (Z.of_nat 63). apply P. lia.
  - intros n Hn.
    rewrite Z.land_spec, Z.lor_spec, !Z.land_spec, Z.lor_spec.
    rewrite !testbit_not64, Z.land_spec, testbit_not64 by lia.
    rewrite testbit_shl64_1, testbit_b2z by lia.
    unfold m1. rewrite Z.lor_spec, Z.land_spec, testbit_not64 by lia.
    fold (st n) (ws n) (qm n) (qb n).
    destruct n as [| m].
    + rewrite (Z.testbit_neg_r _ (Z.of_nat 0 - 1)) by lia.
      change (Z.of_nat 0 =? 0) with true. now rewrite andb_true_r.
    + replace (Z.of_nat (S m) - 1) with (Z.of_nat m) by lia.
      fold m1. rewrite P by lia.
      replace (Z.of_nat (S m) =? 0) with false by (symmetry; apply Z.eqb_neq; lia).
      now rewrite andb_false_r, orb_false_r.
Qed.

(** ** The kernel is a sequence of block steps *)

Section KernelBlocks.

Variable NLANES : positive.
Variable utf8_checker : Type.
Variable check_next_input : utf8_checker -> simd_input64 -> utf8_checker.

Let state := scan_state utf8_checker.
Let step := block_step utf8_checker check_next_input.
Let run := blocks_state utf8_checker check_next_input.

Lemma block_step_eq in64 st :
  step in64 st =
  mk_scan_state (idx st + 64) (fst (step_flatten st)) (snd (step_flatten st))
    (snd (step_odd_ends in64 st))
    (qr_prev_iter_inside_quote (step_quotes in64 st))
    (snd (step_finalize in64 st)) (fst (step_finalize in64 st))
    (qr_error_mask (step_quotes in64 st))
    (check_next_input (utf8_state st) in64).
Proof.
  unfold step, block_step, step_finalize, step_quotes, step_flatten, step_odd_ends.
  destruct (find_odd_backslash_sequences _ _).
  destruct (find_whitespace_and_structurals _).
  destruct (flatten_bits _ _ _ _). cbn [fst snd].
  destruct (finalize_structurals _ _ _ _ _).
  reflexivity.
Qed.

Lemma blocks_state_S s n st :
  run s (S n) st = step (block s n) (run s n st).
Proof.
  unfold run, step, blocks_state. now rewrite seq_S, fold_left_app.
Qed.

Lemma ba_set_same a c v : ba_set a c v c = v.
Proof. unfold ba_set. now rewrite Nat.eqb_refl. Qed.

Lemma ba_set_other a c v c' : c' <> c -> ba_set a c v c' = a c'.
Proof.
  intros H. unfold ba_set.
  now replace (c' =? c)%nat with false by (symmetry; now apply Nat.eqb_neq).
Qed.

Lemma each_block_S {A} (f : nat -> A -> A) n a :
  each_block (S n) f a = f n (each_block n f a).
Proof. unfold each_block. now rewrite seq_S, fold_left_app. Qed.

Lemma each_block_ext {A} (f g : nat -> A -> A) n a :
  (forall c x, (c < n)%nat -> f c x = g c x) ->
  each_block n f a = each_block n g a.
Proof.
  intros H. induction n as [| n IH]; [reflexivity |].
  rewrite !each_block_S, IH, H by auto. reflexivity.
Qed.

(** [map_block] threads the state like [each_block] and stores at [c] the
    value computed from the state reached before block [c]. *)
Lemma map_block_spec {A} (f : nat -> A -> Z * A) n a :
  snd (map_block n f a) = each_block n (fun c s => snd (f c s)) a /\
  forall c, (c < n)%nat ->
    fst (map_block n f a) c = fst (f c (each_block c (fun c s => snd (f c s)) a)).
Proof.
  unfold map_block. induction n as [| n IH].
  - split; [reflexivity | intros; lia].
  - rewrite !each_block_S.
    destruct (each_block n _ (ba_empty, a)) as [r s]. cbn [fst snd] in IH.
    destruct IH as [Hs IH]. cbv beta iota.
    destruct (f n s) as [v s'] eqn:E. cbn [fst snd].
    split; [now rewrite <- Hs, E |].
    intros c Hc. destruct (Nat.eq_dec c n) as [-> | Hne].
    + rewrite ba_set_same. now rewrite <- Hs, E.
    + rewrite ba_set_other by assumption. apply IH. lia.
Qed.

Variable in_buf : pointer.
Variable st0 : state.

Let ST (k : nat) : state := run in_buf k st0.
Let in64 (c : nat) := block in_buf c.

Lemma ST_S n : ST (S n) = step (in64 n) (ST n).
Proof. apply blocks_state_S. Qed.

(** First pass: UTF-8. *)
Lemma pass_utf8 n :
  each_block n (fun chunk u => check_next_input u (in64 chunk)) (utf8_state st0)
  = utf8_state (ST n).
Proof.
  induction n as [| n IH]; [reflexivity |].
  now rewrite each_block_S, IH, ST_S, block_step_eq.
Qed.

(** Second pass: the odd ends of the backslash runs. *)
Let F2 (chunk : nat) (prev : bool) : Z * bool :=
  find_odd_backslash_sequences (simd_eq (in64 chunk) 0x5C) prev.

Lemma pass_odd_ends_carry n :
  each_block n (fun c s => snd (F2 c s)) (prev_iter_ends_odd_backslash st0)
  = prev_iter_ends_odd_backslash (ST n).
Proof.
  induction n as [| n IH]; [reflexivity |].
  now rewrite each_block_S, IH, ST_S, block_step_eq.
Qed.

Lemma pass_odd_ends n c :
  (c < n)%nat ->
  fst (map_block n F2 (prev_iter_ends_odd_backslash st0)) c
  = fst (step_odd_ends (in64 c) (ST c)).
Proof.
  intros H. destruct (map_block_spec F2 n (prev_iter_ends_odd_backslash st0)) as [_ A].
  now rewrite A, pass_odd_ends_carry.
Qed.

(** Third pass: quote bits and quote mask. *)
Let F3 (odd_ends : bitmask_array) (chunk : nat) (s : bitmask_array * Z * Z)
    : Z * (bitmask_array * Z * Z) :=
  let '(quote_bits, inside_quote, err) := s in
  let quote_bits := ba_set quote_bits chunk (simd_eq (in64 chunk) 0x22) in
  let unescaped := simd_lteq (in64 chunk) 0x1F in
  let r := find_quote_mask_and_bits unescaped (odd_ends chunk)
             inside_quote (quote_bits chunk) err in
  (qr_quote_mask r,
   (ba_set quote_bits chunk (qr_quote_bits r),
    qr_prev_iter_inside_quote r, qr_error_mask r)).

Lemma F3_step oe n qb :
  oe n = fst (step_odd_ends (in64 n) (ST n)) ->
  F3 oe n (qb, prev_iter_inside_quote (ST n), error_mask (ST n)) =
  (qr_quote_mask (step_quotes (in64 n) (ST n)),
   (ba_set (ba_set qb n (simd_eq (in64 n) 0x22)) n
      (qr_quote_bits (step_quotes (in64 n) (ST n))),
    qr_prev_iter_inside_quote (step_quotes (in64 n) (ST n)),
    qr_error_mask (step_quotes (in64 n) (ST n)))).
Proof.
  intros H. unfold F3, step_quotes. cbv zeta.
  now rewrite ba_set_same, H.
Qed.

Lemma pass_quotes_carry oe n :
  (forall c, (c < n)%nat -> oe c = fst (step_odd_ends (in64 c) (ST c))) ->
  exists qb,
    each_block n (fun c s => snd (F3 oe c s))
      (ba_empty, prev_iter_inside_quote st0, error_mask st0)
    = (qb, prev_iter_inside_quote (ST n), error_mask (ST n)) /\
    forall c, (c < n)%nat ->
      qb c = qr_quote_bits (step_quotes (in64 c) (ST c)).
Proof.
  induction n as [| n IH]; intros H.
  - exists ba_empty. split; [reflexivity | intros; lia].
  - destruct IH as (qb & E & Q); [intros; apply H; lia |].
    rewrite each_block_S, E, F3_step by (apply H; lia). cbn [snd].
    eexists. split.
    + rewrite ST_S, block_step_eq.
      cbn [prev_iter_inside_quote error_mask]. reflexivity.
    + intros c Hc. destruct (Nat.eq_dec c n) as [-> | Hne].
      * apply ba_set_same.
      * rewrite !ba_set_other by assumption. apply Q. lia.
Qed.

Lemma pass_quotes oe n :
  (forall c, (c < n)%nat -> oe c = fst (step_odd_ends (in64 c) (ST c))) ->
  exists qm qb,
    map_block n (F3 oe) (ba_empty, prev_iter_inside_quote st0, error_mask st0)
    = (qm, (qb, prev_iter_inside_quote (ST n), error_mask (ST n))) /\
    forall c, (c < n)%nat ->
      qm c = qr_quote_mask (step_quotes (in64 c) (ST c)) /\
      qb c = qr_quote_bits (step_quotes (in64 c) (ST c)).
Proof.
  intros H.
  destruct (map_block_spec (F3 oe) n
              (ba_empty, prev_iter_inside_quote st0, error_mask st0)) as [S A].
  destruct (pass_quotes_carry oe n H) as (qb & E & Q).
  destruct (map_block n (F3 oe) _) as [qm s]. cbn [fst snd] in *.
  exists qm, qb. split; [now rewrite S, E |].
  intros c Hc. split; [| now apply Q].
  rewrite A by assumption.
  destruct (pass_quotes_carry oe c) as (qb' & E' & _); [intros; apply H; lia |].
  rewrite E', F3_step by now apply H. reflexivity.
Qed.

(** Fourth pass: whitespace and structural bytes. *)
Let F4 (chunk : nat) (s : bitmask_array * bitmask_array)
    : bitmask_array * bitmask_array :=
  let '(ws, sts) := s in
  let '(w, s) := find_whitespace_and_structurals (in64 chunk) in
  (ba_set ws chunk w, ba_set sts chunk s).

Lemma pass_whitespace n c :
  (c < n)%nat ->
  fst (each_block n F4 (ba_empty, ba_empty)) c
    = fst (find_whitespace_and_structurals (in64 c)) /\
  snd (each_block n F4 (ba_empty, ba_empty)) c
    = snd (find_whitespace_and_structurals (in64 c)).
Proof.
  induction n as [| n IH]; intros H; [lia |].
  rewrite each_block_S.
  destruct (each_block n F4 _) as [ws sts]. cbn [fst snd] in IH.
  unfold F4. destruct (find_whitespace_and_structurals (in64 n)) as [w s] eqn:E.
  cbn [fst snd]. destruct (Nat.eq_dec c n) as [-> | Hne].
  + rewrite !ba_set_same, E. split; reflexivity.
  + rewrite !ba_set_other by assumption. apply IH. lia.
Qed.

(** Fifth pass: flattening of the previous block, finalization of this one. *)
Let F5 (structurals whitespace quote_mask quote_bits : bitmask_array)
    (chunk : nat) (s : Z * array * Z * bool * Z) : Z * array * Z * bool * Z :=
  let '(i, bp, b, pp, ps) := s in
  let '(bp', b') := flatten_bits bp b i ps in
  let '(ps', pp') :=
    finalize_structurals (structurals chunk) (whitespace chunk)
      (quote_mask chunk) (quote_bits chunk) pp in
  (i + 64, bp', b', pp', ps').

Lemma pass_finalize sts ws qm qb n :
  (forall c, (c < n)%nat ->
     sts c = snd (find_whitespace_and_structurals (in64 c)) /\
     ws c = fst (find_whitespace_and_structurals (in64 c)) /\
     qm c = qr_quote_mask (step_quotes (in64 c) (ST c)) /\
     qb c = qr_quote_bits (step_quotes (in64 c) (ST c))) ->
  each_block n (F5 sts ws qm qb)
    (idx st0, base_ptr st0, base st0, prev_iter_ends_pseudo_pred st0,
     prev_structurals st0)
  = (idx (ST n), base_ptr (ST n), base (ST n),
     prev_iter_ends_pseudo_pred (ST n), prev_structurals (ST n)).
Proof.
  induction n as [| n IH]; intros H; [reflexivity |].
  rewrite each_block_S, IH by (intros; apply H; lia).
  unfold F5.
  destruct (H n) as (-> & -> & -> & ->); [lia |].
  rewrite ST_S, block_step_eq.
  cbn [idx base_ptr base prev_iter_ends_pseudo_pred prev_structurals].
  unfold step_flatten, step_finalize.
  destruct (flatten_bits _ _ _ _), (finalize_structurals _ _ _ _ _).
  reflexivity.
Qed.

(** The kernel over [NLANES] blocks. *)
Theorem chunk_blocks :
  find_structural_bits_chunk NLANES utf8_checker check_next_input in_buf st0
  = ST (Pos.to_nat NLANES).
Proof.
  unfold find_structural_bits_chunk, each64, map64.
  set (N := Pos.to_nat NLANES).
  cbv zeta.
  match goal with
  | |- context [each_block N ?f (utf8_state st0)] =>
      change (each_block N f (utf8_state st0))
        with (each_block N (fun chunk u => check_next_input u (in64 chunk))
                (utf8_state st0))
  end.
  rewrite pass_utf8.
  pose proof (pass_odd_ends N) as P2.
  pose proof (pass_odd_ends_carry N) as C2.
  destruct (map_block_spec F2 N (prev_iter_ends_odd_backslash st0)) as [S2 _].
  match goal with
  | |- context [map_block N ?f (prev_iter_ends_odd_backslash st0)] =>
      change f with F2
  end.
  destruct (map_block N F2 _) as [odd_ends eob]. cbn [fst snd] in *.
  destruct (pass_quotes odd_ends N P2) as (qm & qb & E3 & P3).
  match goal with
  | |- context [map_block N ?f (ba_empty, _, _)] =>
      change f with (F3 odd_ends)
  end.
  rewrite E3.
  pose proof (pass_whitespace N) as P4.
  match goal with
  | |- context [each_block N ?f (ba_empty, ba_empty)] => change f with F4
  end.
  destruct (each_block N F4 _) as [ws sts]. cbn [fst snd] in P4.
  match goal with
  | |- context [each_block N ?f (idx st0, _, _, _, _)] =>
      change f with (F5 sts ws qm qb)
  end.
  rewrite pass_finalize.
  - rewrite S2, C2. now destruct (ST N).
  - intros c Hc. destruct (P4 c Hc) as [-> ->]. destruct (P3 c Hc) as [-> ->].
    repeat split; reflexivity.
Qed.

End KernelBlocks.

(** ** From the masks of a block to the bytes of the stream *)

Section BlockMeaning.

Variable s : pointer.

Lemma block_byte j b :
  ptr_add s (Z.of_nat j * 64) (Z.of_nat b) = byte_at s (64 * j + b).
Proof. unfold ptr_add, byte_at. f_equal. lia. Qed.

Lemma testbit_block_bitmask f j b :
  (b < 64)%nat ->
  Z.testbit (bitmask_of f (block s j)) (Z.of_nat b) = f (byte_at s (64 * j + b)).
Proof.
  intros H. unfold block. now rewrite testbit_bitmask_of, block_byte.
Qed.

Lemma testbit_block_mask f j b :
  (b < 64)%nat ->
  Z.testbit (block_mask f j) (Z.of_nat b) = f (64 * j + b)%nat.
Proof.
  intros H. unfold block_mask. rewrite testbit_mask_of_bools.
  rewrite (nth_indep _ false (f 0%nat)) by now rewrite length_map, length_seq.
  now rewrite map_nth, seq_nth.
Qed.

Lemma is64_block_mask f j : is64 (block_mask f j).
Proof.
  apply is64_mask_of_bools. now rewrite length_map, length_seq.
Qed.

Lemma block_mask_eq f j x :
  is64 x ->
  (forall b, (b < 64)%nat -> Z.testbit x (Z.of_nat b) = f (64 * j + b)%nat) ->
  x = block_mask f j.
Proof.
  intros Hx H. apply is64_eq; [assumption | apply is64_block_mask |].
  intros i Hi. rewrite <- (Z2Nat.id i) by lia.
  rewrite H, testbit_block_mask by lia. reflexivity.
Qed.

(** *** Backslash runs *)

Lemma lane_run_odd_global j b :
  (b <= 64)%nat ->
  lane_run_odd (simd_eq (block s j) 0x5C) (run_odd s (64 * j)) b
  = run_odd s (64 * j + b).
Proof.
  induction b as [| b IH]; intros H.
  - now rewrite Nat.add_0_r.
  - cbn [lane_run_odd]. unfold simd_eq at 1.
    rewrite testbit_block_bitmask, IH by lia.
    replace (64 * j + S b)%nat with (S (64 * j + b)) by lia.
    reflexivity.
Qed.

Lemma odd_ends_global j :
  let r := find_odd_backslash_sequences (simd_eq (block s j) 0x5C)
             (run_odd s (64 * j)) in
  is64 (fst r) /\ snd r = run_odd s (64 * S j) /\
  forall b, (b < 64)%nat ->
    Z.testbit (fst r) (Z.of_nat b) =
    negb (byte_at s (64 * j + b) =? 0x5C) && run_odd s (64 * j + b).
Proof.
  pose proof (find_odd_backslash_sequences_bits
                (simd_eq (block s j) 0x5C) (run_odd s (64 * j))
                (is64_bitmask_of _ _)) as H.
  destruct (find_odd_backslash_sequences _ _) as [oe c'].
  destruct H as (H1 & H2 & H3). cbn [fst snd].
  split; [assumption |]. split.
  - rewrite H2, lane_run_odd_global by lia. f_equal. lia.
  - intros b Hb. rewrite H3, lane_run_odd_global by lia.
    unfold simd_eq. now rewrite testbit_block_bitmask.
Qed.

(** *** Quotes *)

Lemma quote_is_not_backslash x : (x =? 0x22) = true -> (x =? 0x5C) = false.
Proof. intros H. apply Z.eqb_eq in H. subst. reflexivity. Qed.

Lemma xor_range_global q j b :
  (b <= 64)%nat ->
  (forall i, (i < 64)%nat -> Z.testbit q (Z.of_nat i) = real_quote s (64 * j + i)) ->
  xorb (inside_before s (64 * j)) (xor_range q 0 b) = inside_before s (64 * j + b).
Proof.
  intros Hb Hq. induction b as [| b IH].
  - rewrite Nat.add_0_r. apply xorb_false_r.
  - cbn [xor_range]. rewrite Z.add_0_l, Hq by lia.
    replace (64 * j + S b)%nat with (S (64 * j + b)) by lia.
    cbn [inside_before]. rewrite <- IH by lia. now rewrite xorb_assoc.
Qed.

Lemma quotes_global j err :
  let r := find_quote_mask_and_bits (simd_lteq (block s j) 0x1F)
             (fst (find_odd_backslash_sequences (simd_eq (block s j) 0x5C)
                     (run_odd s (64 * j))))
             (if inside_before s (64 * j) then ALL_ONES else 0)
             (simd_eq (block s j) 0x22) err in
  qr_quote_mask r = block_mask (in_quote_mask s) j /\
  qr_quote_bits r = block_mask (real_quote s) j /\
  qr_prev_iter_inside_quote r =
    (if inside_before s (64 * S j) then ALL_ONES else 0) /\
  qr_error_mask r = Z.lor err (block_mask (unescaped_control s) j).
Proof.
  destruct (odd_ends_global j) as (O1 & _ & O3).
  pose proof (find_quote_mask_and_bits_bits (simd_lteq (block s j) 0x1F)
                (fst (find_odd_backslash_sequences (simd_eq (block s j) 0x5C)
                        (run_odd s (64 * j))))
                (inside_before s (64 * j)) (simd_eq (block s j) 0x22) err
                (is64_bitmask_of _ _)) as H.
  cbv zeta in *.
  set (r := find_quote_mask_and_bits _ _ _ _ _) in *.
  destruct H as (Hm & Hb & Eb & Bm & Ep & Ee).
  assert (Q : forall i, (i < 64)%nat ->
            Z.testbit (qr_quote_bits r) (Z.of_nat i) = real_quote s (64 * j + i)).
  { intros i Hi. rewrite Eb, Z.land_spec, testbit_not64, O3 by lia.
    unfold simd_eq at 1. rewrite testbit_block_bitmask by assumption.
    unfold real_quote.
    destruct (byte_at s (64 * j + i) =? 0x22) eqn:E; [| reflexivity].
    now rewrite (quote_is_not_backslash _ E). }
  assert (M : forall i, (i < 64)%nat ->
            Z.testbit (qr_quote_mask r) (Z.of_nat i) = in_quote_mask s (64 * j + i)).
  { intros i Hi. rewrite Bm by assumption.
    rewrite (xor_range_global _ j (S i)) by (assumption || lia).
    unfold in_quote_mask. f_equal. lia. }
  split; [now apply block_mask_eq |].
  split; [now apply block_mask_eq |].
  split.
  - rewrite Ep, (xor_range_global _ j 64) by (assumption || lia).
    replace (64 * S j)%nat with (64 * j + 64)%nat by lia. reflexivity.
  - rewrite Ee. f_equal. apply block_mask_eq.
    + now apply is64_land.
    + intros i Hi. rewrite Z.land_spec, M by assumption.
      unfold simd_lteq. rewrite testbit_block_bitmask by assumption.
      reflexivity.
Qed.

(** *** Structural positions *)

Lemma finalize_global j :
  let r := finalize_structurals
             (snd (find_whitespace_and_structurals (block s j)))
             (fst (find_whitespace_and_structurals (block s j)))
             (block_mask (in_quote_mask s) j) (block_mask (real_quote s) j)
             (pred_before s (64 * j)) in
  fst r = block_mask (structural_at s) j /\
  snd r = pred_before s (64 * S j).
Proof.
  pose proof (finalize_structurals_bits
                (snd (find_whitespace_and_structurals (block s j)))
                (fst (find_whitespace_and_structurals (block s j)))
                (block_mask (in_quote_mask s) j) (block_mask (real_quote s) j)
                (pred_before s (64 * j))
                (is64_bitmask_of _ _) (is64_bitmask_of _ _)
                (is64_block_mask _ _) (is64_block_mask _ _)) as H.
  cbv zeta in *. unfold find_whitespace_and_structurals in *.
  cbn [fst snd] in *.
  destruct (finalize_structurals _ _ _ _ _) as [out pred'].
  destruct H as (H1 & H2 & H3). cbn [fst snd] in *.
  assert (P : forall b, (b < 64)%nat ->
     Z.testbit (bitmask_of is_structural (block s j)) (Z.of_nat b)
       && negb (Z.testbit (block_mask (in_quote_mask s) j) (Z.of_nat b))
     || Z.testbit (block_mask (real_quote s) j) (Z.of_nat b)
     || Z.testbit (bitmask_of is_whitespace (block s j)) (Z.of_nat b)
     = pseudo_pred s (64 * j + b)).
  { intros b Hb. rewrite !testbit_block_bitmask, !testbit_block_mask by assumption.
    reflexivity. }
  split.
  - apply block_mask_eq; [assumption |].
    intros b Hb. rewrite H3 by assumption.
    rewrite !testbit_block_bitmask, !testbit_block_mask by assumption.
    unfold structural_at, masked_structural.
    destruct b as [| m].
    + rewrite Nat.add_0_r. reflexivity.
    + rewrite P by lia.
      replace (64 * j + S m)%nat with (S (64 * j + m)) by lia.
      reflexivity.
  - rewrite H2, P by lia.
    replace (64 * S j)%nat with (S (64 * j + 63)) by lia. reflexivity.
Qed.

End BlockMeaning.

(** ** Flattening *)

Lemma flatten_fold idx bits l ab :
  fold_left (flatten_step idx bits) l ab =
  fold_left push
    (map (fun i => wrap32 (idx - 64 + Z.of_nat i))
         (filter (fun i => Z.testbit bits (Z.of_nat i)) l)) ab.
Proof.
  revert ab. induction l as [| i l IH]; intros ab; [reflexivity |].
  cbn [fold_left filter]. rewrite IH. unfold flatten_step at 1.
  destruct (Z.testbit bits (Z.of_nat i)); reflexivity.
Qed.

Lemma flatten_bits_push bp b idx bits :
  flatten_bits bp b idx bits =
  fold_left push
    (map (fun i => wrap32 (idx - 64 + Z.of_nat i))
         (filter (fun i => Z.testbit bits (Z.of_nat i)) (seq 0 64))) (bp, b).
Proof. apply flatten_fold. Qed.

Lemma flatten_bits_0 bp b idx : flatten_bits bp b idx 0 = (bp, b).
Proof.
  rewrite flatten_bits_push.
  replace (filter _ (seq 0 64)) with (@nil nat); [reflexivity |].
  symmetry.
  induction (seq 0 64) as [| i l IH]; [reflexivity |].
  cbn [filter]. now rewrite Z.testbit_0_l.
Qed.

Lemma filter_block_bits (f : nat -> bool) bits start (g : nat -> Z) (g' : nat -> Z) k :
  (k <= 64)%nat ->
  (forall i, (i < 64)%nat -> Z.testbit bits (Z.of_nat i) = f (start + i)%nat) ->
  (forall i, g i = g' (start + i)%nat) ->
  map g (filter (fun i => Z.testbit bits (Z.of_nat i)) (seq 0 k))
  = map g' (filter f (seq start k)).
Proof.
  intros Hk Hb Hg. induction k as [| k IH]; [reflexivity |].
  rewrite !seq_S, !filter_app, !map_app, IH by lia.
  f_equal. cbn [filter]. rewrite Nat.add_0_l, Hb by lia.
  destruct (f (start + k)%nat); [| reflexivity].
  cbn [map]. now rewrite Hg.
Qed.

Lemma offsets_block s m :
  offsets s (64 * S m) =
  offsets s (64 * m) ++
  map (fun p => wrap32 (Z.of_nat p)) (filter (structural_at s) (seq (64 * m) 64)).
Proof.
  unfold offsets.
  replace (64 * S m)%nat with (64 * m + 64)%nat by lia.
  now rewrite seq_app, filter_app, map_app.
Qed.

Lemma flatten_block s m bp b :
  flatten_bits bp b (64 * Z.of_nat (S m)) (block_mask (structural_at s) m) =
  fold_left push
    (map (fun p => wrap32 (Z.of_nat p)) (filter (structural_at s) (seq (64 * m) 64)))
    (bp, b).
Proof.
  rewrite flatten_bits_push. f_equal.
  apply filter_block_bits; [lia | |].
  - intros i Hi. now apply testbit_block_mask.
  - intros i. f_equal. lia.
Qed.

(** ** The state after [n] blocks, in terms of the bytes of the stream *)

Section StreamMeaning.

Variable utf8_checker : Type.
Variable utf8_new : utf8_checker.
Variable check_next_input : utf8_checker -> simd_input64 -> utf8_checker.
Variable s : pointer.
Variable a0 : array.

Let ST (n : nat) : scan_state utf8_checker :=
  blocks_state utf8_checker check_next_input s n
    (initial_state utf8_checker utf8_new a0).

Theorem blocks_state_meaning n :
  idx (ST n) = 64 * Z.of_nat n /\
  prev_iter_ends_odd_backslash (ST n) = run_odd s (64 * n) /\
  prev_iter_inside_quote (ST n)
    = (if inside_before s (64 * n) then ALL_ONES else 0) /\
  prev_iter_ends_pseudo_pred (ST n) = pred_before s (64 * n) /\
  prev_structurals (ST n) = pending s n /\
  error_mask (ST n) = or_masks (unescaped_control s) n /\
  (base_ptr (ST n), base (ST n))
    = fold_left push (offsets s (64 * pred n)) (a0, 0).
Proof.
  induction n as [| n IH].
  - repeat split; reflexivity.
  - destruct IH as (I1 & I2 & I3 & I4 & I5 & I6 & I7).
    unfold ST. rewrite blocks_state_S, block_step_eq. fold (ST n).
    cbn [idx prev_iter_ends_odd_backslash prev_iter_inside_quote
         prev_iter_ends_pseudo_pred prev_structurals error_mask base_ptr base].
    destruct (odd_ends_global s n) as (_ & O2 & _).
    pose proof (quotes_global s n (error_mask (ST n))) as Q.
    pose proof (finalize_global s n) as F.
    cbv zeta in O2, Q, F.
    unfold step_finalize, step_quotes, step_odd_ends.
    rewrite I2, I3, I4.
    destruct Q as (Q1 & Q2 & Q3 & Q4). rewrite Q1, Q2, Q3, Q4.
    destruct F as (F1 & F2). rewrite F1, F2, O2, I6.
    split; [lia |]. do 5 (split; [reflexivity |]).
    rewrite <- surjective_pairing. unfold step_flatten.
    apply (f_equal fst) in I7 as A. apply (f_equal snd) in I7 as B.
    cbn [fst snd] in A, B. rewrite I1, I5.
    destruct n as [| m].
    + rewrite flatten_bits_0, A, B. now rewrite <- surjective_pairing.
    + cbn [pending pred] in *. rewrite flatten_block, A, B.
      rewrite <- surjective_pairing, <- fold_left_app, <- offsets_block.
      reflexivity.
Qed.

(** Flattening the pending mask completes the list of offsets. *)
Lemma pending_flatten n :
  flatten_bits (base_ptr (ST n)) (base (ST n)) (idx (ST n))
    (prev_structurals (ST n))
  = fold_left push (offsets s (64 * n)) (a0, 0).
Proof.
  destruct (blocks_state_meaning n) as (I1 & _ & _ & _ & I5 & _ & I7).
  apply (f_equal fst) in I7 as A. apply (f_equal snd) in I7 as B.
  cbn [fst snd] in A, B. rewrite I1, I5, A, B.
  destruct n as [| m].
  - rewrite flatten_bits_0. now rewrite <- surjective_pairing.
  - cbn [pending pred]. rewrite flatten_block.
    rewrite <- surjective_pairing, <- fold_left_app, <- offsets_block.
    reflexivity.
Qed.

Lemma utf8_state_blocks n :
  utf8_state (ST n) = utf8_after utf8_new check_next_input s n.
Proof.
  induction n as [| n IH]; [reflexivity |].
  unfold ST. rewrite blocks_state_S, block_step_eq. cbn [utf8_state].
  fold (ST n). rewrite IH. unfold utf8_after.
  now rewrite seq_S, map_app, fold_left_app.
Qed.

End StreamMeaning.

(** ** The scan of the entry point as a sequence of block steps *)

Section ScanBlocks.

Variable NLANES : positive.
Variable utf8_checker : Type.
Variable utf8_new : utf8_checker.
Variable check_next_input : utf8_checker -> simd_input64 -> utf8_checker.

Let N : nat := Pos.to_nat NLANES.
Let SW : Z := SIMD_WIDTH NLANES.
Let run := blocks_state utf8_checker check_next_input.
Let kernel := find_structural_bits_chunk NLANES utf8_checker check_next_input.

Lemma SW_N : SW = 64 * Z.of_nat N.
Proof. unfold SW, SIMD_WIDTH, N. now rewrite positive_nat_Z. Qed.

Lemma N_pos : (0 < N)%nat.
Proof. apply Pos2Nat.is_pos. Qed.

Lemma SW_pos : 64 <= SW.
Proof. rewrite SW_N. pose proof N_pos. lia. Qed.

Lemma load64_ext p q :
  (forall i, 0 <= i < 64 -> p i = q i) -> load64 p = load64 q.
Proof.
  intros H. unfold load64. apply map_ext_in.
  intros i Hi. apply in_seq in Hi. apply H. lia.
Qed.

Lemma blocks_state_ext s1 s2 n st :
  (forall i, 0 <= i < 64 * Z.of_nat n -> s1 i = s2 i) ->
  run s1 n st = run s2 n st.
Proof.
  intros H. induction n as [| n IH]; [reflexivity |].
  unfold run in *. rewrite !blocks_state_S, IH by (intros; apply H; lia).
  f_equal. unfold block. apply load64_ext.
  intros i Hi. unfold ptr_add. apply H. lia.
Qed.

Lemma blocks_state_add s n m st :
  run s (n + m) st = run (ptr_add s (64 * Z.of_nat n)) m (run s n st).
Proof.
  induction m as [| m IH].
  - now rewrite Nat.add_0_r.
  - replace (n + S m)%nat with (S (n + m)) by lia.
    unfold run in *. rewrite !blocks_state_S, IH. f_equal.
    unfold block. apply load64_ext. intros i Hi.
    unfold ptr_add. f_equal. lia.
Qed.

Lemma idx_blocks_state s n st : idx (run s n st) = idx st + 64 * Z.of_nat n.
Proof.
  induction n as [| n IH];
    [unfold run, blocks_state; cbn [seq fold_left]; lia |].
  unfold run in *. rewrite blocks_state_S, block_step_eq.
  cbn [idx]. rewrite IH. lia.
Qed.

Lemma kernel_blocks in_buf st : kernel in_buf st = run in_buf N st.
Proof. apply chunk_blocks. Qed.

Variable buf : pointer.
Variable a0 : array.

Let init := initial_state utf8_checker utf8_new a0.

(** The state after [k] whole chunks of the buffer. *)
Let chunks (k : nat) := run buf (N * k) init.

Lemma idx_chunks k : idx (chunks k) = SW * Z.of_nat k.
Proof. unfold chunks. rewrite idx_blocks_state, SW_N. simpl idx. lia. Qed.

Lemma kernel_chunks k :
  kernel (ptr_add buf (idx (chunks k))) (chunks k) = chunks (S k).
Proof.
  rewrite kernel_blocks, idx_chunks. unfold chunks.
  replace (N * S k)%nat with (N * k + N)%nat by lia.
  rewrite blocks_state_add. f_equal. f_equal. rewrite SW_N. lia.
Qed.

(** The loop stops after the least number of chunks that reaches
    [last_chunk_idx], provided the fuel suffices. *)
Lemma scan_loop_chunks fuel last k :
  last - SW * Z.of_nat k <= SW * Z.of_nat fuel ->
  exists k',
    scan_loop NLANES utf8_checker check_next_input fuel buf last (chunks k)
      = Some (chunks k') /\
    (k <= k')%nat /\ last <= SW * Z.of_nat k' /\
    (k' = k \/ SW * (Z.of_nat k' - 1) < last).
Proof.
  pose proof SW_pos as P.
  revert k. induction fuel as [| fuel IH]; intros k H.
  - exists k. cbn [scan_loop]. rewrite idx_chunks.
    replace (SW * Z.of_nat k <? last) with false by (symmetry; apply Z.ltb_ge; lia).
    split; [reflexivity |]. split; [lia |]. split; [lia | now left].
  - cbn [scan_loop]. rewrite idx_chunks.
    destruct (Z.ltb_spec (SW * Z.of_nat k) last) as [Hlt | Hge].
    + rewrite <- idx_chunks. fold kernel. rewrite kernel_chunks.
      destruct (IH (S k)) as (k' & E & L1 & L2 & L3); [lia |].
      exists k'. split; [exact E |]. split; [lia |]. split; [lia |].
      right. destruct L3 as [-> | L3]; lia.
    + exists k. split; [reflexivity |]. split; [lia |]. split; [lia | now left].
Qed.

(** The padded tail. *)
Lemma scan_tail_chunks len k :
  scan_tail NLANES utf8_checker check_next_input buf len
    (run (padded buf len) (N * k) init)
  = run (padded buf len) (N * (if SW * Z.of_nat k <? len then S k else k)) init.
Proof.
  unfold scan_tail.
  rewrite idx_blocks_state. simpl idx.
  replace (0 + 64 * Z.of_nat (N * k)) with (SW * Z.of_nat k) by (rewrite SW_N; lia).
  destruct (SW * Z.of_nat k <? len) eqn:E; [| reflexivity].
  fold kernel. rewrite kernel_blocks.
  replace (N * S k)%nat with (N * k + N)%nat by lia.
  rewrite blocks_state_add. apply blocks_state_ext.
  intros i Hi. unfold tail_buffer. fold SW. unfold memcpy, memset, ptr_add, padded.
  replace (64 * Z.of_nat (N * k)) with (SW * Z.of_nat k) by (rewrite SW_N; lia).
  rewrite <- SW_N in Hi.
  replace (0 <=? i) with true by (symmetry; apply Z.leb_le; lia).
  replace (i <? SW) with true by (symmetry; apply Z.ltb_lt; lia).
  cbn [andb].
  destruct (Z.ltb_spec i (len - SW * Z.of_nat k)).
  - now replace (SW * Z.of_nat k + i <? len) with true
      by (symmetry; apply Z.ltb_lt; lia).
  - now replace (SW * Z.of_nat k + i <? len) with false
      by (symmetry; apply Z.ltb_ge; lia).
Qed.

Lemma chunks_padded len k :
  SW * Z.of_nat k <= len -> chunks k = run (padded buf len) (N * k) init.
Proof.
  intros H. unfold chunks. apply blocks_state_ext.
  intros i Hi. unfold padded.
  replace (i <? len) with true; [reflexivity |].
  symmetry. apply Z.ltb_lt. rewrite SW_N in H. lia.
Qed.

(** The scan always terminates; it has then run the block step over the
    least number of whole chunks that covers the padded input. *)
Theorem scan_blocks len :
  0 <= len ->
  exists K,
    scan NLANES utf8_checker utf8_new check_next_input buf len a0
      = Some (run (padded buf len) (N * K) init) /\
    len <= SW * Z.of_nat K < len + SW.
Proof.
  intros Hlen. pose proof SW_pos as P. unfold scan. fold SW.
  set (last := if len <? SW then 0 else len - SW).
  assert (L : 0 <= last <= len /\ (len < SW -> last = 0) /\
              (SW <= len -> last = len - SW)).
  { unfold last. destruct (Z.ltb_spec len SW); lia. }
  destruct (scan_loop_chunks (Z.to_nat len) last 0) as (k & E & _ & L2 & L3).
  { rewrite Z2Nat.id by lia. nia. }
  unfold chunks at 1 in E. rewrite Nat.mul_0_r in E.
  change (run buf 0 init) with init in E. fold init. rewrite E.
  assert (B : SW * Z.of_nat k <= len).
  { destruct L3 as [-> | L3]; [lia |].
    destruct (Z.lt_ge_cases len SW) as [Hs | Hs].
    - assert (Z.of_nat k < 1) by nia.
      replace (Z.of_nat k) with 0 by lia. lia.
    - rewrite Z.mul_sub_distr_l in L3. lia. }
  rewrite (chunks_padded len k B), scan_tail_chunks.
  eexists. split; [reflexivity |].
  destruct (Z.ltb_spec (SW * Z.of_nat k) len); [| lia].
  rewrite Nat2Z.inj_succ, Z.mul_succ_r.
  destruct (Z.lt_ge_cases len SW); lia.
Qed.



(** The kernel called [k] times on consecutive chunks. *)
Lemma kernel_iter_blocks k p st :
  kernel_iter NLANES utf8_checker check_next_input k p st = run p (N * k) st.
Proof.
  revert p st. induction k as [| k IH]; intros p st.
  - now rewrite Nat.mul_0_r.
  - cbn [kernel_iter]. fold kernel. rewrite IH, kernel_blocks.
    replace (N * S k)%nat with (N + N * k)%nat by lia.
    rewrite blocks_state_add. f_equal. f_equal. fold SW. rewrite SW_N.
    reflexivity.
Qed.


End ScanBlocks.

(** ** The reference predicates only look at the bytes before them *)

Section ReferenceFacts.

Lemma run_odd_ext s1 s2 p :
  (forall q, (q < p)%nat -> byte_at s1 q = byte_at s2 q) ->
  run_odd s1 p = run_odd s2 p.
Proof.
  induction p as [| p IH]; intros H; [reflexivity |].
  cbn [run_odd]. rewrite H, IH by auto. reflexivity.
Qed.

Lemma real_quote_ext s1 s2 p :
  (forall q, (q <= p)%nat -> byte_at s1 q = byte_at s2 q) ->
  real_quote s1 p = real_quote s2 p.
Proof.
  intros H. unfold real_quote.
  rewrite H, (run_odd_ext s1 s2 p) by auto with arith. reflexivity.
Qed.

Lemma inside_before_ext s1 s2 p :
  (forall q, (q < p)%nat -> byte_at s1 q = byte_at s2 q) ->
  inside_before s1 p = inside_before s2 p.
Proof.
  induction p as [| p IH]; intros H; [reflexivity |].
  cbn [inside_before]. rewrite IH by auto.
  f_equal. apply real_quote_ext. intros q Hq. apply H. lia.
Qed.

Lemma pseudo_pred_ext s1 s2 p :
  (forall q, (q <= p)%nat -> byte_at s1 q = byte_at s2 q) ->
  pseudo_pred s1 p = pseudo_pred s2 p.
Proof.
  intros H. unfold pseudo_pred, masked_structural, in_quote_mask.
  rewrite H by auto with arith.
  rewrite (real_quote_ext s1 s2 p) by assumption.
  rewrite (inside_before_ext s1 s2 (S p)) by (intros q Hq; apply H; lia).
  reflexivity.
Qed.

Lemma structural_at_ext s1 s2 p :
  (forall q, (q <= p)%nat -> byte_at s1 q = byte_at s2 q) ->
  structural_at s1 p = structural_at s2 p.
Proof.
  intros H. unfold structural_at, masked_structural, in_quote_mask.
  rewrite H by auto with arith.
  rewrite (real_quote_ext s1 s2 p) by assumption.
  rewrite (inside_before_ext s1 s2 (S p)) by (intros q Hq; apply H; lia).
  replace (pred_before s1 p) with (pred_before s2 p); [reflexivity |].
  destruct p as [| p]; [reflexivity |]. cbn [pred_before].
  symmetry. apply pseudo_pred_ext. intros q Hq. apply H. lia.
Qed.

Lemma unescaped_control_ext s1 s2 p :
  (forall q, (q <= p)%nat -> byte_at s1 q = byte_at s2 q) ->
  unescaped_control s1 p = unescaped_control s2 p.
Proof.
  intros H. unfold unescaped_control, in_quote_mask.
  rewrite H by auto with arith.
  rewrite (inside_before_ext s1 s2 (S p)) by (intros q Hq; apply H; lia).
  reflexivity.
Qed.

Lemma filter_ext_seq (f g : nat -> bool) a n :
  (forall p, (a <= p < a + n)%nat -> f p = g p) ->
  filter f (seq a n) = filter g (seq a n).
Proof.
  intros H. apply filter_ext_in. intros p Hp. apply in_seq in Hp. now apply H.
Qed.

Lemma offsets_ext s1 s2 n :
  (forall q, (q < n)%nat -> byte_at s1 q = byte_at s2 q) ->
  offsets s1 n = offsets s2 n.
Proof.
  intros H. unfold offsets. f_equal. apply filter_ext_seq.
  intros p Hp. apply structural_at_ext. intros q Hq. apply H. lia.
Qed.

(** A space is never reported, is no quote and no control byte. *)
Lemma space_not_structural s p :
  byte_at s p = 0x20 -> structural_at s p = false.
Proof.
  intros H. unfold structural_at, masked_structural, real_quote.
  rewrite H. cbn. now rewrite andb_false_r.
Qed.

Lemma space_not_quote s p : byte_at s p = 0x20 -> real_quote s p = false.
Proof. intros H. unfold real_quote. now rewrite H. Qed.

Lemma space_not_control s p : byte_at s p = 0x20 -> unescaped_control s p = false.
Proof. intros H. unfold unescaped_control. rewrite H. apply andb_false_r. Qed.

(** Beyond the end of the input, the padded stream holds spaces. *)
Variable buf : pointer.
Variable len : Z.
Hypothesis len_nonneg : 0 <= len.

Let s := padded buf len.
Let L := Z.to_nat len.

Lemma padded_below p : (p < L)%nat -> byte_at s p = byte_at buf p.
Proof.
  intros H. unfold byte_at, s, padded.
  now replace (Z.of_nat p <? len) with true by (symmetry; apply Z.ltb_lt; lia).
Qed.

Lemma padded_beyond p : (L <= p)%nat -> byte_at s p = 0x20.
Proof.
  intros H. unfold byte_at, s, padded.
  now replace (Z.of_nat p <? len) with false by (symmetry; apply Z.ltb_ge; lia).
Qed.

Lemma inside_before_beyond p :
  (L <= p)%nat -> inside_before s p = inside_before s L.
Proof.
  induction p as [| p IH]; intros H.
  - now replace L with 0%nat by lia.
  - destruct (Nat.eq_dec (S p) L) as [-> | Hne]; [reflexivity |].
    cbn [inside_before].
    rewrite IH, space_not_quote by (try apply padded_beyond; lia).
    apply xorb_false_r.
Qed.

Lemma offsets_beyond n : (L <= n)%nat -> offsets s n = offsets s L.
Proof.
  intros H. unfold offsets. f_equal.
  replace n with (L + (n - L))%nat by lia.
  rewrite seq_app, filter_app, Nat.add_0_l.
  replace (filter _ (seq L (n - L))) with (@nil nat); [apply app_nil_r |].
  symmetry. induction (n - L)%nat as [| k IH]; [reflexivity |].
  rewrite seq_S, filter_app, IH. cbn [filter app].
  now rewrite space_not_structural by (apply padded_beyond; lia).
Qed.

Lemma offsets_padded : offsets s L = offsets buf L.
Proof. apply offsets_ext. intros q Hq. now apply padded_below. Qed.

Lemma inside_before_padded : inside_before s L = inside_before buf L.
Proof. apply inside_before_ext. intros q Hq. now apply padded_below. Qed.

End ReferenceFacts.

(** ** The sticky error mask *)

Lemma is64_or_masks f n : is64 (or_masks f n).
Proof.
  induction n as [| n IH]; [apply is64_0 |].
  cbn [or_masks]. apply is64_lor; [assumption | apply is64_block_mask].
Qed.

Lemma block_mask_zero_iff f m :
  block_mask f m = 0 <-> forall b, (b < 64)%nat -> f (64 * m + b)%nat = false.
Proof.
  split.
  - intros H b Hb. rewrite <- (testbit_block_mask f m b Hb), H.
    apply Z.testbit_0_l.
  - intros H. apply is64_zero_bits; [apply is64_block_mask |].
    intros i Hi. rewrite <- (Z2Nat.id i) by lia.
    rewrite testbit_block_mask by lia. apply H. lia.
Qed.

Lemma or_masks_zero_iff f n :
  or_masks f n = 0 <-> forall p, (p < 64 * n)%nat -> f p = false.
Proof.
  induction n as [| n IH].
  - split; [intros _ p Hp; lia | reflexivity].
  - cbn [or_masks]. rewrite Z.lor_eq_0_iff, IH, block_mask_zero_iff. split.
    + intros [H1 H2] p Hp.
      destruct (Nat.lt_ge_cases p (64 * n)) as [Hlt | Hge]; [now apply H1 |].
      replace p with (64 * n + (p - 64 * n))%nat by lia. apply H2. lia.
    + intros H. split; intros; apply H; lia.
Qed.

(** ** Storing a list of offsets *)

Lemma wrap32_small x : 0 <= x < 2 ^ 32 -> wrap32 x = x.
Proof. intros. now apply Z.mod_small. Qed.

Lemma array_set_same a i v : array_set a i v i = v.
Proof. unfold array_set. now rewrite Z.eqb_refl. Qed.

Lemma array_set_other a i v j : j <> i -> array_set a i v j = a j.
Proof.
  intros H. unfold array_set.
  now replace (j =? i) with false by (symmetry; now apply Z.eqb_neq).
Qed.

Lemma fold_push l : forall a b,
  0 <= b -> b + Z.of_nat (length l) < 2 ^ 32 ->
  snd (fold_left push l (a, b)) = b + Z.of_nat (length l) /\
  forall i, fst (fold_left push l (a, b)) i = stored a b l i.
Proof.
  induction l as [| x l IH]; intros a b Hb Hl.
  - cbn [fold_left length fst snd]. split; [lia |].
    intros i. unfold stored. cbn [length].
    destruct (Z.leb_spec b i), (Z.ltb_spec i (b + Z.of_nat 0)); try reflexivity; lia.
  - cbn [length] in Hl.
    change (fold_left push (x :: l) (a, b))
      with (fold_left push l (array_set a b x, wrap32 (b + 1))).
    rewrite wrap32_small by lia.
    destruct (IH (array_set a b x) (b + 1)) as [E1 E2]; [lia | lia |].
    split; [rewrite E1; cbn [length]; lia |].
    intros i. rewrite E2. unfold stored. cbn [length].
    destruct (Z.eq_dec i b) as [-> | Hne].
    + replace (b + 1 <=? b) with false by (symmetry; apply Z.leb_gt; lia).
      rewrite Z.leb_refl.
      replace (b <? b + Z.of_nat (S (length l))) with true
        by (symmetry; apply Z.ltb_lt; lia).
      cbn [andb]. rewrite Z.sub_diag. apply array_set_same.
    + rewrite array_set_other by assumption.
      destruct (Z.leb_spec (b + 1) i) as [H1 | H1].
      * replace (b <=? i) with true by (symmetry; apply Z.leb_le; lia).
        replace (i <? b + Z.of_nat (S (length l)))
          with (i <? b + 1 + Z.of_nat (length l)) by (f_equal; lia).
        cbn [andb]. destruct (i <? b + 1 + Z.of_nat (length l)); [| reflexivity].
        replace (Z.to_nat (i - b)) with (S (Z.to_nat (i - (b + 1)))) by lia.
        reflexivity.
      * replace (b <=? i) with false by (symmetry; apply Z.leb_gt; lia).
        reflexivity.
Qed.

Lemma stored_below a b l i : i < b -> stored a b l i = a i.
Proof.
  intros H. unfold stored.
  now replace (b <=? i) with false by (symmetry; apply Z.leb_gt; lia).
Qed.

Lemma stored_beyond a b l i : b + Z.of_nat (length l) <= i -> stored a b l i = a i.
Proof.
  intros H. unfold stored.
  replace (i <? b + Z.of_nat (length l)) with false by (symmetry; apply Z.ltb_ge; lia).
  now rewrite andb_false_r.
Qed.

Lemma stored_at a l k :
  (k < length l)%nat -> stored a 0 l (Z.of_nat k) = nth k l 0.
Proof.
  intros H. unfold stored.
  replace (0 <=? Z.of_nat k) with true by (symmetry; apply Z.leb_le; lia).
  replace (Z.of_nat k <? 0 + Z.of_nat (length l)) with true
    by (symmetry; apply Z.ltb_lt; lia).
  cbn [andb]. now rewrite Z.sub_0_r, Nat2Z.id.
Qed.

(** ** Strictly increasing lists *)

Lemma increasing_from_weaken lo lo' l :
  lo' <= lo -> increasing_from lo l -> increasing_from lo' l.
Proof. destruct l; [trivial |]. cbn. intros H [H1 H2]. split; [lia | assumption]. Qed.

Lemma increasing_from_bound lo l k :
  increasing_from lo l -> (k < length l)%nat -> lo <= nth k l 0.
Proof.
  revert lo k. induction l as [| x l IH]; intros lo k H Hk; [cbn in Hk; lia |].
  destruct H as [H1 H2]. destruct k as [| k]; [exact H1 |].
  cbn [nth]. cbn [length] in Hk.
  specialize (IH (x + 1) k H2). lia.
Qed.

Lemma increasing_from_nth lo l i j :
  increasing_from lo l -> (i < j < length l)%nat -> nth i l 0 < nth j l 0.
Proof.
  revert lo i j. induction l as [| x l IH]; intros lo i j H Hij; [cbn in Hij; lia |].
  destruct H as [H1 H2]. cbn [length] in Hij.
  destruct j as [| j]; [lia |]. destruct i as [| i].
  - cbn [nth]. pose proof (increasing_from_bound (x + 1) l j H2). lia.
  - cbn [nth]. apply (IH (x + 1)); [assumption | lia].
Qed.

Lemma increasing_from_app lo l x :
  increasing_from lo l -> Forall (fun y => y < x) l -> lo <= x ->
  increasing_from lo (l ++ [x]).
Proof.
  revert lo. induction l as [| y l IH]; intros lo H F Hx.
  - cbn. lia.
  - destruct H as [H1 H2]. inversion F; subst.
    cbn [app increasing_from]. split; [assumption |].
    apply IH; [assumption | assumption | lia].
Qed.

Lemma positions_increasing (f : nat -> bool) a n :
  increasing_from (Z.of_nat a) (map Z.of_nat (filter f (seq a n))) /\
  Forall (fun y => y < Z.of_nat (a + n)) (map Z.of_nat (filter f (seq a n))).
Proof.
  revert a. induction n as [| n IH]; intros a.
  - cbn. split; [trivial | constructor].
  - cbn [seq filter]. destruct (IH (S a)) as [I F].
    replace (S a + n)%nat with (a + S n)%nat in F by lia.
    destruct (f a).
    + cbn [map increasing_from]. split.
      * split; [lia |]. now replace (Z.of_nat a + 1) with (Z.of_nat (S a)) by lia.
      * constructor; [lia | assumption].
    + split; [| assumption].
      apply (increasing_from_weaken (Z.of_nat (S a))); [lia | assumption].
Qed.

Lemma offsets_positions s n :
  Z.of_nat n <= 2 ^ 32 ->
  offsets s n = map Z.of_nat (filter (structural_at s) (seq 0 n)).
Proof.
  intros H. unfold offsets. apply map_ext_in.
  intros p Hp. apply filter_In in Hp. destruct Hp as [Hp _].
  apply in_seq in Hp. apply wrap32_small. lia.
Qed.

Lemma length_offsets s n : (length (offsets s n) <= n)%nat.
Proof.
  unfold offsets. rewrite length_map.
  pose proof (filter_length_le (structural_at s) (seq 0 n)) as H.
  now rewrite length_seq in H.
Qed.

Lemma in_offsets s n x :
  Z.of_nat n <= 2 ^ 32 ->
  In x (offsets s n) <->
  exists p, x = Z.of_nat p /\ (p < n)%nat /\ structural_at s p = true.
Proof.
  intros H. rewrite offsets_positions by assumption.
  rewrite in_map_iff. split.
  - intros (p & <- & Hp). apply filter_In in Hp. destruct Hp as [Hp Hs].
    apply in_seq in Hp. exists p. repeat split; [lia | assumption].
  - intros (p & -> & Hp & Hs). exists p. split; [reflexivity |].
    apply filter_In. split; [apply in_seq; lia | assumption].
Qed.

(** ** What the entry point computes *)

Lemma fold_left_over_map {A B C} (f : A -> B -> A) (g : C -> B) l a :
  fold_left f (map g l) a = fold_left (fun a x => f a (g x)) l a.
Proof. revert a. induction l as [| x l IH]; intros a; [reflexivity | apply IH]. Qed.

Section Entry.

Variable NLANES : positive.
Variable utf8_checker : Type.
Variable utf8_new : utf8_checker.
Variable check_next_input : utf8_checker -> simd_input64 -> utf8_checker.
Variable has_error : utf8_checker -> bool.

Variable buf : pointer.
Variable len : Z.
Variable a0 : array.
Hypothesis len_nonneg : 0 <= len.

Let L := Z.to_nat len.

(** The scan terminates, and its final state is described by the bytes of
    the input alone. *)
Theorem scan_summary :
  exists st n,
    scan NLANES utf8_checker utf8_new check_next_input buf len a0 = Some st /\
    len <= 64 * Z.of_nat n /\
    prev_iter_inside_quote st = (if inside_before buf L then ALL_ONES else 0) /\
    (error_mask st = 0 <-> forall p, (p < L)%nat -> unescaped_control buf p = false) /\
    flatten_bits (base_ptr st) (base st) (idx st) (prev_structurals st)
      = fold_left push (offsets buf L) (a0, 0) /\
    utf8_state st = utf8_after utf8_new check_next_input (padded buf len) n.
Proof.
  destruct (scan_blocks NLANES utf8_checker utf8_new check_next_input buf a0 len
              len_nonneg) as (K & E & B1 & _).
  rewrite SW_N in B1.
  remember (Pos.to_nat NLANES * K)%nat as n eqn:En.
  assert (Hn : (L <= 64 * n)%nat) by (unfold L; lia).
  exists (blocks_state utf8_checker check_next_input (padded buf len) n
            (initial_state utf8_checker utf8_new a0)), n.
  split; [exact E |]. split; [lia |].
  destruct (blocks_state_meaning utf8_checker utf8_new check_next_input
              (padded buf len) a0 n) as (_ & _ & I3 & _ & _ & I6 & _).
  split; [| split; [| split]].
  - rewrite I3. unfold L.
    now rewrite inside_before_beyond, inside_before_padded by (assumption || lia).
  - rewrite I6, or_masks_zero_iff. split.
    + intros H p Hp. rewrite <- (H p) by lia.
      apply unescaped_control_ext. intros q Hq. symmetry.
      apply padded_below; solve [assumption | fold L; lia].
    + intros H p Hp. destruct (Nat.lt_ge_cases p L) as [Hlt | Hge].
      * rewrite <- (H p Hlt). apply unescaped_control_ext. intros q Hq.
        apply padded_below; solve [assumption | fold L; lia].
      * apply space_not_control, padded_beyond; solve [assumption | fold L; lia].
  - rewrite pending_flatten. f_equal. unfold L.
    now rewrite offsets_beyond, offsets_padded by (assumption || lia).
  - apply utf8_state_blocks.
Qed.

Variable pj : ParsedJson.
Hypothesis within_capacity : len <= byte_capacity pj.

Theorem entry_point st :
  scan NLANES utf8_checker utf8_new check_next_input buf len (structural_indexes pj)
    = Some st ->
  find_structural_bits NLANES utf8_checker utf8_new check_next_input has_error
    buf len pj = Some (finish utf8_checker has_error len pj st).
Proof.
  intros E. unfold find_structural_bits.
  rewrite Z.gtb_ltb.
  replace (byte_capacity pj <? len) with false by (symmetry; apply Z.ltb_ge; lia).
  rewrite E. reflexivity.
Qed.

End Entry.

(** ** The checks after the last chunk *)

Lemma increasing_length lo hi l :
  increasing_from lo l -> Forall (fun y => y < hi) l -> lo <= hi ->
  lo + Z.of_nat (length l) <= hi.
Proof.
  revert lo. induction l as [| x l IH]; intros lo H F Hlo; [cbn; lia |].
  destruct H as [H1 H2]. inversion F; subst.
  specialize (IH (x + 1) H2 H4). cbn [length]. lia.
Qed.

Section Finish.

Variable utf8_checker : Type.
Variable has_error : utf8_checker -> bool.
Variable len : Z.
Variable pj : ParsedJson.
Variable st : scan_state utf8_checker.

Lemma finish_unclosed :
  prev_iter_inside_quote st <> 0 ->
  finish utf8_checker has_error len pj st =
  (UNCLOSED_STRING,
   mk_ParsedJson (byte_capacity pj) (base_ptr st) (n_structural_indexes pj)).
Proof.
  intros H. unfold finish.
  now replace (prev_iter_inside_quote st =? 0) with false
    by (symmetry; now apply Z.eqb_neq).
Qed.

Lemma finish_empty a0 :
  prev_iter_inside_quote st = 0 ->
  flatten_bits (base_ptr st) (base st) (idx st) (prev_structurals st) = (a0, 0) ->
  finish utf8_checker has_error len pj st =
  (EMPTY, mk_ParsedJson (byte_capacity pj) a0 0).
Proof.
  intros Hq Hf. unfold finish. rewrite Hq, Hf. reflexivity.
Qed.

Lemma finish_indexed a0 offs :
  0 <= len -> len + 1 < 2 ^ 32 ->
  prev_iter_inside_quote st = 0 ->
  flatten_bits (base_ptr st) (base st) (idx st) (prev_structurals st)
    = fold_left push offs (a0, 0) ->
  increasing_from 0 offs -> Forall (fun y => y < len) offs ->
  offs <> [] ->
  exists pj',
    finish utf8_checker has_error len pj st = (final_status has_error st, pj') /\
    byte_capacity pj' = byte_capacity pj /\
    n_structural_indexes pj' = Z.of_nat (length offs) + 1 /\
    forall i, structural_indexes pj' i =
              if i =? Z.of_nat (length offs) + 1 then 0
              else stored a0 0 (offs ++ [len]) i.
Proof.
  intros Hlen Hmax Hq Hf Hinc Hlt Hne.
  pose proof (increasing_length 0 len offs Hinc Hlt Hlen) as Hcount.
  assert (Hpos : (0 < length offs)%nat) by (destruct offs; [congruence | cbn; lia]).
  destruct (fold_push offs a0 0) as [E1 E2]; [lia | lia |].
  unfold finish. rewrite Hq, Hf. change (negb (0 =? 0)) with false. cbv iota.
  destruct (fold_left push offs (a0, 0)) as [a b]. cbn [fst snd] in E1, E2.
  rewrite Z.add_0_l in E1. subst b.
  set (n := Z.of_nat (length offs)) in *.
  assert (Hlast : a (n - 1) < len).
  { rewrite E2. unfold n.
    replace (Z.of_nat (length offs) - 1) with (Z.of_nat (length offs - 1)) by lia.
    rewrite stored_at by lia.
    rewrite Forall_forall in Hlt. apply Hlt, nth_In. lia. }
  replace (n =? 0) with false by (symmetry; apply Z.eqb_neq; lia).
  rewrite Z.gtb_ltb.
  replace (len <? a (n - 1)) with false by (symmetry; apply Z.ltb_ge; lia).
  replace (len =? a (n - 1)) with false by (symmetry; apply Z.eqb_neq; lia).
  cbn [negb]. rewrite (wrap32_small len), (wrap32_small (n + 1)) by lia.
  unfold final_status.
  eexists. split.
  - destruct (error_mask st =? 0); reflexivity.
  - cbn [byte_capacity n_structural_indexes structural_indexes].
    split; [reflexivity |]. split; [reflexivity |].
    intros i. destruct (Z.eqb_spec i (n + 1)) as [-> | H1].
    + apply array_set_same.
    + rewrite array_set_other by assumption.
      destruct (Z.eq_dec i n) as [-> | H2].
      * rewrite array_set_same. unfold stored, n.
        rewrite length_app. cbn [length].
        replace (0 <=? Z.of_nat (length offs)) with true
          by (symmetry; apply Z.leb_le; lia).
        replace (Z.of_nat (length offs) <? 0 + Z.of_nat (length offs + 1)) with true
          by (symmetry; apply Z.ltb_lt; lia).
        cbn [andb]. rewrite Z.sub_0_r, Nat2Z.id, app_nth2, Nat.sub_diag by lia.
        reflexivity.
      * rewrite array_set_other, E2 by assumption. unfold stored.
        rewrite length_app. cbn [length]. fold n.
        destruct (Z.leb_spec 0 i) as [H3 | H3]; [| reflexivity].
        cbn [andb].
        destruct (Z.ltb_spec i (0 + n)) as [H4 | H4].
        -- replace (i <? 0 + Z.of_nat (length offs + 1)) with true
             by (symmetry; apply Z.ltb_lt; lia).
           rewrite app_nth1 by lia. reflexivity.
        -- replace (i <? 0 + Z.of_nat (length offs + 1)) with false
             by (symmetry; apply Z.ltb_ge; unfold n in *; lia).
           reflexivity.
Qed.

End Finish.

(** ** The result of the entry point, from the bytes of the input *)

Section IndexResult.

Variable NLANES : positive.
Variable utf8_checker : Type.
Variable utf8_new : utf8_checker.
Variable check_next_input : utf8_checker -> simd_input64 -> utf8_checker.
Variable has_error : utf8_checker -> bool.

Variable buf : pointer.
Variable len : Z.
Variable pj : ParsedJson.
Hypothesis len_nonneg : 0 <= len.
Hypothesis within_capacity : len <= byte_capacity pj.

Let L := Z.to_nat len.
Let fsb := find_structural_bits NLANES utf8_checker utf8_new check_next_input
             has_error buf len pj.

Lemma offsets_sorted :
  len < 2 ^ 32 ->
  increasing_from 0 (offsets buf L) /\ Forall (fun y => y < len) (offsets buf L).
Proof.
  intros H. rewrite offsets_positions by (unfold L; lia).
  destruct (positions_increasing (structural_at buf) 0 L) as [I F].
  split; [exact I |].
  replace len with (Z.of_nat (0 + L)) by (unfold L; lia). exact F.
Qed.

Theorem index_result :
  exists st n,
    scan NLANES utf8_checker utf8_new check_next_input buf len
      (structural_indexes pj) = Some st /\
    fsb = Some (finish utf8_checker has_error len pj st) /\
    len <= 64 * Z.of_nat n /\
    prev_iter_inside_quote st = (if inside_before buf L then ALL_ONES else 0) /\
    (error_mask st = 0 <->
     forall p, (p < L)%nat -> unescaped_control buf p = false) /\
    utf8_state st = utf8_after utf8_new check_next_input (padded buf len) n /\
    (inside_before buf L = true ->
     fsb = Some (UNCLOSED_STRING,
                 mk_ParsedJson (byte_capacity pj) (base_ptr st)
                   (n_structural_indexes pj))) /\
    (inside_before buf L = false -> offsets buf L = [] ->
     fsb = Some (EMPTY,
                 mk_ParsedJson (byte_capacity pj) (structural_indexes pj) 0)) /\
    (inside_before buf L = false -> offsets buf L <> [] -> len + 1 < 2 ^ 32 ->
     exists pj',
       fsb = Some (final_status has_error st, pj') /\
       byte_capacity pj' = byte_capacity pj /\
       n_structural_indexes pj' = Z.of_nat (length (offsets buf L)) + 1 /\
       forall i, structural_indexes pj' i =
                 if i =? Z.of_nat (length (offsets buf L)) + 1 then 0
                 else stored (structural_indexes pj) 0 (offsets buf L ++ [len]) i).
Proof.
  destruct (scan_summary NLANES utf8_checker utf8_new check_next_input buf len
              (structural_indexes pj) len_nonneg)
    as (st & n & E & Hn & Hq & He & Hf & Hu).
  pose proof (entry_point NLANES utf8_checker utf8_new check_next_input has_error
                buf len pj within_capacity st E) as R.
  fold fsb in R. fold L in Hq, He, Hf.
  exists st, n.
  do 6 (split; [assumption |]).
  split; [| split].
  - intros Hin. rewrite R, finish_unclosed; [reflexivity |].
    rewrite Hq, Hin. discriminate.
  - intros Hin Hnil. rewrite R. f_equal. apply finish_empty.
    + now rewrite Hq, Hin.
    + now rewrite Hf, Hnil.
  - intros Hin Hne Hmax.
    destruct offsets_sorted as [I F]; [lia |].
    destruct (finish_indexed utf8_checker has_error len pj st
                (structural_indexes pj) (offsets buf L))
      as (pj' & F1 & F2 & F3 & F4); try assumption.
    + now rewrite Hq, Hin.
    + exists pj'. rewrite R, F1. repeat split; assumption.
Qed.

End IndexResult.

(** ** Inputs given as lists of bytes *)

Lemma buffer_of_nth l q : byte_at (buffer_of l) q = nth q l 0.
Proof.
  unfold byte_at, buffer_of.
  replace (Z.of_nat q <? 0) with false by (symmetry; apply Z.ltb_ge; lia).
  now rewrite Nat2Z.id.
Qed.

Lemma holds_buffer_of l : holds (buffer_of l) l.
Proof. intros i _. apply buffer_of_nth. Qed.

Lemma holds_byte_at buf l q :
  holds buf l -> (q < length l)%nat -> byte_at buf q = byte_at (buffer_of l) q.
Proof. intros H Hq. rewrite buffer_of_nth. now apply H. Qed.

Lemma existsb_seq_false (f : nat -> bool) n :
  existsb f (seq 0 n) = false <-> forall p, (p < n)%nat -> f p = false.
Proof.
  split.
  - intros H p Hp. destruct (f p) eqn:E; [| reflexivity].
    rewrite <- H. symmetry. apply existsb_exists. exists p.
    split; [apply in_seq; lia | assumption].
  - intros H. destruct (existsb f (seq 0 n)) eqn:E; [| reflexivity].
    apply existsb_exists in E. destruct E as (p & Hp & Hf).
    apply in_seq in Hp. rewrite H in Hf by lia. discriminate.
Qed.

(** ** ASCII input passes the UTF-8 check *)

Lemma Forall_load64 (P : byte -> Prop) p :
  (forall i, 0 <= i < 64 -> P (p i)) -> Forall P (load64 p).
Proof.
  intros H. unfold load64. apply Forall_forall. intros x Hx.
  apply in_map_iff in Hx. destruct Hx as (i & <- & Hi).
  apply in_seq in Hi. apply H. lia.
Qed.

Lemma ascii_padded (utf8_checker : Type) (utf8_new : utf8_checker)
    check_next_input has_error buf len n :
  accepts_ascii utf8_new check_next_input has_error ->
  (forall i, 0 <= i < len -> is_ascii (buf i)) ->
  has_error (utf8_after utf8_new check_next_input (padded buf len) n) = false.
Proof.
  intros A H. unfold utf8_after. apply A.
  apply Forall_forall. intros b Hb. apply in_map_iff in Hb.
  destruct Hb as (c & <- & _). unfold block. apply Forall_load64.
  intros i Hi. unfold ptr_add, padded.
  destruct (Z.ltb_spec (Z.of_nat c * 64 + i) len).
  - apply H. lia.
  - unfold is_ascii. lia.
Qed.

Lemma scalar_utf8_accepts_ascii :
  accepts_ascii ScalarUtf8.new ScalarUtf8.check_next_input ScalarUtf8.has_error.
Proof.
  intros blocks H.
  assert (E : fold_left ScalarUtf8.check_next_input blocks ScalarUtf8.new
              = ScalarUtf8.new); [| now rewrite E].
  induction H as [| b blocks Hb _ IH]; [reflexivity |].
  cbn [fold_left].
  replace (ScalarUtf8.check_next_input ScalarUtf8.new b) with ScalarUtf8.new;
    [exact IH |].
  unfold ScalarUtf8.check_next_input.
  induction Hb as [| x b Hx _ IHb]; [reflexivity |].
  cbn [fold_left]. unfold ScalarUtf8.check_byte at 2. cbn [ScalarUtf8.pending_bytes ScalarUtf8.new].
  unfold is_ascii in Hx.
  replace (x <? 128) with true by (symmetry; apply Z.ltb_lt; lia).
  exact IHb.
Qed.

(** ** The entry point on an ASCII input given as a list *)

Section IndexOfList.

Variable NLANES : positive.
Variable utf8_checker : Type.
Variable utf8_new : utf8_checker.
Variable check_next_input : utf8_checker -> simd_input64 -> utf8_checker.
Variable has_error : utf8_checker -> bool.
Hypothesis ascii_ok : accepts_ascii utf8_new check_next_input has_error.

Variable buf : pointer.
Variable l : list byte.
Variable pj : ParsedJson.
Hypothesis buf_l : holds buf l.
Hypothesis l_ascii : Forall is_ascii l.
Hypothesis within_capacity : Z.of_nat (length l) <= byte_capacity pj.

Let len := Z.of_nat (length l).
Let b := buffer_of l.
Let fsb := find_structural_bits NLANES utf8_checker utf8_new check_next_input
             has_error buf len pj.

Lemma list_inside : inside_before buf (Z.to_nat len) = inside_before b (length l).
Proof.
  unfold len. rewrite Nat2Z.id. apply inside_before_ext.
  intros q Hq. now apply holds_byte_at.
Qed.

Lemma list_offsets : offsets buf (Z.to_nat len) = offsets b (length l).
Proof.
  unfold len. rewrite Nat2Z.id. apply offsets_ext.
  intros q Hq. now apply holds_byte_at.
Qed.

Lemma list_control p :
  (p < length l)%nat -> unescaped_control buf p = unescaped_control b p.
Proof.
  intros Hp. apply unescaped_control_ext. intros q Hq.
  apply holds_byte_at; [assumption | lia].
Qed.

Theorem index_of_list :
  (inside_before b (length l) = true ->
   exists pj', fsb = Some (UNCLOSED_STRING, pj') /\
               n_structural_indexes pj' = n_structural_indexes pj) /\
  (inside_before b (length l) = false -> offsets b (length l) = [] ->
   fsb = Some (EMPTY, mk_ParsedJson (byte_capacity pj) (structural_indexes pj) 0)) /\
  (inside_before b (length l) = false -> offsets b (length l) <> [] ->
   len + 1 < 2 ^ 32 ->
   exists pj',
     fsb = Some (if existsb (unescaped_control b) (seq 0 (length l))
                 then UNESCAPED_CHARS else SUCCESS, pj') /\
     n_structural_indexes pj' = Z.of_nat (length (offsets b (length l))) + 1 /\
     forall i, structural_indexes pj' i =
               if i =? Z.of_nat (length (offsets b (length l))) + 1 then 0
               else stored (structural_indexes pj) 0
                      (offsets b (length l) ++ [len]) i).
Proof.
  destruct (index_result NLANES utf8_checker utf8_new check_next_input has_error
              buf len pj) as (st & n & _ & _ & _ & _ & He & Hu & R1 & R2 & R3);
    [unfold len; lia | exact within_capacity |].
  fold fsb in R1, R2, R3. rewrite list_inside in R1, R2, R3.
  rewrite list_offsets in R2, R3.
  split; [| split].
  - intros Hin. eexists. split; [now apply R1 | reflexivity].
  - exact R2.
  - intros Hin Hne Hmax.
    destruct (R3 Hin Hne Hmax) as (pj' & F1 & _ & F3 & F4).
    exists pj'. split; [| split; assumption].
    rewrite F1. f_equal. f_equal. unfold final_status, utf8_errors.
    rewrite Hu, ascii_padded; try assumption.
    + destruct (existsb (unescaped_control b) (seq 0 (length l))) eqn:Ex.
      * destruct (Z.eqb_spec (error_mask st) 0) as [E0 | E0]; [| reflexivity].
        pose proof (proj1 He E0) as E1. apply existsb_exists in Ex.
        destruct Ex as (p & Hp & Hc). apply in_seq in Hp.
        rewrite <- list_control, E1 in Hc by (unfold len; lia). discriminate.
      * rewrite existsb_seq_false in Ex.
        replace (error_mask st =? 0) with true; [reflexivity |].
        symmetry. apply Z.eqb_eq. apply (proj2 He). intros p Hp.
        unfold len in Hp. rewrite list_control by lia. apply Ex. lia.
    + intros i Hi. rewrite <- (Z2Nat.id i) by lia. rewrite buf_l by (unfold len in Hi; lia).
      rewrite Forall_forall in l_ascii. apply l_ascii, nth_In. unfold len in Hi. lia.
Qed.

End IndexOfList.

(* ================================================================== *)
(** * The claims of the specification *)

(** ** Scenario 1: the object [{"a":1}] *)

Lemma ascii_object_example : Forall is_ascii object_example.
Proof. unfold object_example. repeat constructor; unfold is_ascii; lia. Qed.

Lemma object_example_index NLANES (utf8_checker : Type) (utf8_new : utf8_checker)
    check_next_input has_error buf pj :
  accepts_ascii utf8_new check_next_input has_error ->
  holds buf object_example ->
  7 <= byte_capacity pj ->
  exists pj',
    find_structural_bits NLANES utf8_checker utf8_new check_next_input has_error
      buf 7 pj = Some (SUCCESS, pj') /\
    n_structural_indexes pj' = 6 /\
    forall i, structural_indexes pj' i =
              if i =? 6 then 0
              else stored (structural_indexes pj) 0 [0; 1; 4; 5; 6; 7] i.
Proof.
  intros A H C.
  destruct (index_of_list NLANES utf8_checker utf8_new check_next_input has_error
              A buf object_example pj H ascii_object_example C) as (_ & _ & R).
  assert (E1 : offsets (buffer_of object_example) (length object_example)
               = [0; 1; 4; 5; 6]) by (vm_compute; reflexivity).
  assert (E2 : existsb (unescaped_control (buffer_of object_example))
                 (seq 0 (length object_example)) = false) by (vm_compute; reflexivity).
  rewrite E1, E2 in R.
  destruct R as (pj' & F1 & F3 & F4);
    [vm_compute; reflexivity | discriminate | vm_compute; reflexivity |].
  exists pj'. split; [exact F1 |]. split; [exact F3 |]. exact F4.
Qed.

(** C3: on the 7-byte input [{"a":1}], with a capacity of at least 7 bytes,
    [find_structural_bits] returns [SUCCESS] (0), sets [n_structural_indexes]
    to 6 and writes exactly the offsets 0, 1, 4, 5, 6, 7, the last one being
    the virtual terminator; the slot after them holds 0.  The UTF-8 checker
    is only assumed to accept ASCII. *)
Theorem C3_object_example NLANES (utf8_checker : Type) (utf8_new : utf8_checker)
    check_next_input has_error buf pj :
  accepts_ascii utf8_new check_next_input has_error ->
  holds buf object_example ->
  7 <= byte_capacity pj ->
  exists pj',
    find_structural_bits NLANES utf8_checker utf8_new check_next_input has_error
      buf 7 pj = Some (SUCCESS, pj') /\
    error_code SUCCESS = 0 /\
    n_structural_indexes pj' = 6 /\
    map (structural_indexes pj') [0; 1; 2; 3; 4; 5] = [0; 1; 4; 5; 6; 7] /\
    structural_indexes pj' 6 = 0.
Proof.
  intros A H C.
  destruct (object_example_index NLANES utf8_checker utf8_new check_next_input
              has_error buf pj A H C) as (pj' & F1 & F3 & F4).
  exists pj'. split; [exact F1 |]. split; [reflexivity |]. split; [exact F3 |].
  split.
  - cbn [map]. rewrite !F4. reflexivity.
  - rewrite F4. reflexivity.
Qed.

Lemma C3_object_example_witness :
  accepts_ascii ScalarUtf8.new ScalarUtf8.check_next_input ScalarUtf8.has_error /\
  holds (buffer_of object_example) object_example /\
  7 <= byte_capacity (mk_ParsedJson 7 (fun _ => 0) 0) /\
  exists pj',
    find_structural_bits 1 ScalarUtf8.checker ScalarUtf8.new
      ScalarUtf8.check_next_input ScalarUtf8.has_error
      (buffer_of object_example) 7 (mk_ParsedJson 7 (fun _ => 0) 0)
      = Some (SUCCESS, pj') /\
    error_code SUCCESS = 0 /\
    n_structural_indexes pj' = 6 /\
    map (structural_indexes pj') [0; 1; 2; 3; 4; 5] = [0; 1; 4; 5; 6; 7] /\
    structural_indexes pj' 6 = 0.
Proof.
  split; [exact scalar_utf8_accepts_ascii |].
  split; [exact (holds_buffer_of object_example) |].
  split; [cbn; lia |].
  apply (C3_object_example 1 ScalarUtf8.checker ScalarUtf8.new
           ScalarUtf8.check_next_input ScalarUtf8.has_error
           (buffer_of object_example) (mk_ParsedJson 7 (fun _ => 0) 0)).
  - exact scalar_utf8_accepts_ascii.
  - exact (holds_buffer_of object_example).
  - cbn. lia.
Defined.

(** ** The default batch size *)

(** C8: a [JsonStream] constructed without an explicit [batch_size], from a
    pointer and a length or from a string, has a batch size of 1,000,000. *)
Theorem C8_default_batch_size :
  (forall buf len,
     JsonStream.batch_size (JsonStream.of_pointer buf len None) = 1000000) /\
  (forall s, JsonStream.batch_size (JsonStream.of_string s None) = 1000000).
Proof. split; intros; reflexivity. Qed.

(** ** Unclosed strings and control bytes *)

Section EndChecks.

Variable NLANES : positive.
Variable utf8_checker : Type.
Variable utf8_new : utf8_checker.
Variable check_next_input : utf8_checker -> simd_input64 -> utf8_checker.
Variable has_error : utf8_checker -> bool.

Lemma finish_closed len pj (st : scan_state utf8_checker) :
  prev_iter_inside_quote st = 0 ->
  fst (finish utf8_checker has_error len pj st) <> UNCLOSED_STRING.
Proof.
  intros Hq. unfold finish. rewrite Hq. change (negb (0 =? 0)) with false.
  cbv iota. destruct (flatten_bits _ _ _ _) as [a b].
  destruct (b =? 0); [discriminate |].
  destruct (a (b - 1) >? len); [discriminate |].
  destruct (negb (len =? a (b - 1))), (negb (error_mask st =? 0));
    try discriminate; unfold utf8_errors; cbn [fst];
    destruct (has_error (utf8_state st)); discriminate.
Qed.

Lemma finish_unescaped len pj (st : scan_state utf8_checker) :
  prev_iter_inside_quote st = 0 ->
  let ab := flatten_bits (base_ptr st) (base st) (idx st) (prev_structurals st) in
  snd ab <> 0 -> fst ab (snd ab - 1) <= len ->
  (fst (finish utf8_checker has_error len pj st) = UNESCAPED_CHARS
   <-> error_mask st <> 0).
Proof.
  intros Hq ab. unfold finish. rewrite Hq. change (negb (0 =? 0)) with false.
  cbv iota. subst ab. destruct (flatten_bits _ _ _ _) as [a b]. cbn [fst snd].
  intros Hb Hlast.
  replace (b =? 0) with false by (symmetry; now apply Z.eqb_neq).
  rewrite Z.gtb_ltb.
  replace (len <? a (b - 1)) with false by (symmetry; apply Z.ltb_ge; lia).
  destruct (negb (len =? a (b - 1)));
    (destruct (Z.eqb_spec (error_mask st) 0) as [E | E]; cbn [negb fst];
     [unfold utf8_errors; destruct (has_error (utf8_state st));
      split; (discriminate || congruence)
     | split; [intros _; exact E | reflexivity]]).
Qed.

Lemma inside_unclosed_example buf :
  holds buf unclosed_example -> inside_before buf 4 = true.
Proof.
  intros H.
  rewrite (inside_before_ext buf (buffer_of unclosed_example) 4).
  - vm_compute. reflexivity.
  - intros q Hq. now apply holds_byte_at.
Qed.

(** C5: for an input within capacity, [find_structural_bits] returns
    [UNCLOSED_STRING] if and only if the in-quote carry
    [prev_iter_inside_quote] is non-zero, that is all-ones, after the last
    chunk; the 4-byte input that opens a string and holds [abc] is
    reported as [UNCLOSED_STRING]. *)
Theorem C5_unclosed_string :
  (forall buf len pj,
     0 <= len -> len <= byte_capacity pj ->
     exists st r,
       scan NLANES utf8_checker utf8_new check_next_input buf len
         (structural_indexes pj) = Some st /\
       find_structural_bits NLANES utf8_checker utf8_new check_next_input
         has_error buf len pj = Some r /\
       (fst r = UNCLOSED_STRING <-> prev_iter_inside_quote st <> 0) /\
       (prev_iter_inside_quote st <> 0 <-> prev_iter_inside_quote st = ALL_ONES)) /\
  (forall buf pj,
     holds buf unclosed_example -> 4 <= byte_capacity pj ->
     exists pj',
       find_structural_bits NLANES utf8_checker utf8_new check_next_input
         has_error buf 4 pj = Some (UNCLOSED_STRING, pj')).
Proof.
  split.
  - intros buf len pj H0 Hc.
    destruct (index_result NLANES utf8_checker utf8_new check_next_input has_error
                buf len pj H0 Hc) as (st & n & E & R & _ & Hq & _).
    exists st, (finish utf8_checker has_error len pj st).
    split; [exact E |]. split; [exact R |]. split; [split |].
    + intros Hr Hz. now apply (finish_closed len pj st Hz).
    + intros Hz. now rewrite finish_unclosed.
    + rewrite Hq. destruct (inside_before buf (Z.to_nat len)); split;
        intros H; try reflexivity; try discriminate; congruence.
  - intros buf pj H Hc.
    destruct (index_result NLANES utf8_checker utf8_new check_next_input has_error
                buf 4 pj) as (st & n & _ & _ & _ & _ & _ & _ & R1 & _); [lia | lia |].
    eexists. apply R1. now apply inside_unclosed_example.
Qed.

(** C9: when the in-quote carry is non-zero at the end of an input within
    capacity, the entry point returns [UNCLOSED_STRING], whatever the other
    end-of-scan checks would have found; the index array is left as the
    last chunk left it (the pending [prev_structurals] is not flattened
    into it) and [n_structural_indexes] keeps its value. *)
Theorem C9_unclosed_first buf len pj :
  0 <= len -> len <= byte_capacity pj ->
  exists st,
    scan NLANES utf8_checker utf8_new check_next_input buf len
      (structural_indexes pj) = Some st /\
    (prev_iter_inside_quote st <> 0 ->
     exists pj',
       find_structural_bits NLANES utf8_checker utf8_new check_next_input
         has_error buf len pj = Some (UNCLOSED_STRING, pj') /\
       n_structural_indexes pj' = n_structural_indexes pj /\
       structural_indexes pj' = base_ptr st /\
       byte_capacity pj' = byte_capacity pj).
Proof.
  intros H0 Hc.
  destruct (index_result NLANES utf8_checker utf8_new check_next_input has_error
              buf len pj H0 Hc) as (st & n & E & R & _).
  exists st. split; [exact E |].
  intros Hz. eexists. split; [rewrite R, finish_unclosed by exact Hz; reflexivity |].
  repeat split.
Qed.

Lemma control_example_control buf :
  holds buf control_example -> unescaped_control buf 2 = true.
Proof.
  intros H.
  rewrite (unescaped_control_ext buf (buffer_of control_example) 2).
  - vm_compute. reflexivity.
  - intros q Hq. apply holds_byte_at; [assumption | cbn; lia].
Qed.

(** C6: [find_quote_mask_and_bits] ORs the quote mask ANDed with the mask
    of the bytes up to 0x1F into [error_mask]; the kernel passes it that
    mask for every block, so at the end of an input within capacity
    [error_mask] is non-zero as soon as a control byte lies inside a
    string.  When all strings are closed, there is a structural index and
    the last one does not exceed [len], the entry point returns
    [UNESCAPED_CHARS] if and only if [error_mask] is non-zero; a string
    that holds a byte 0x01 is reported as [UNESCAPED_CHARS]. *)
Theorem C6_unescaped_chars :
  (forall unescaped odd_ends inside_quote quote_bits err,
     let r := find_quote_mask_and_bits unescaped odd_ends inside_quote
                quote_bits err in
     qr_error_mask r = Z.lor err (Z.land (qr_quote_mask r) unescaped)) /\
  (forall in64 st,
     error_mask (block_step utf8_checker check_next_input in64 st) =
     Z.lor (error_mask st)
       (Z.land (qr_quote_mask (step_quotes in64 st)) (simd_lteq in64 0x1F))) /\
  (forall buf len pj,
     0 <= len -> len <= byte_capacity pj ->
     exists st r,
       scan NLANES utf8_checker utf8_new check_next_input buf len
         (structural_indexes pj) = Some st /\
       find_structural_bits NLANES utf8_checker utf8_new check_next_input
         has_error buf len pj = Some r /\
       ((exists p, (p < Z.to_nat len)%nat /\ in_quote_mask buf p = true /\
                   byte_at buf p <= 0x1F) ->
        error_mask st <> 0) /\
       (prev_iter_inside_quote st = 0 ->
        let ab := flatten_bits (base_ptr st) (base st) (idx st)
                    (prev_structurals st) in
        snd ab <> 0 -> fst ab (snd ab - 1) <= len ->
        (fst r = UNESCAPED_CHARS <-> error_mask st <> 0))) /\
  (forall buf pj,
     holds buf control_example -> 5 <= byte_capacity pj ->
     exists pj',
       find_structural_bits NLANES utf8_checker utf8_new check_next_input
         has_error buf 5 pj = Some (UNESCAPED_CHARS, pj')).
Proof.
  split; [reflexivity |]. split; [| split].
  - intros in64 st. rewrite block_step_eq. reflexivity.
  - intros buf len pj H0 Hc.
    destruct (index_result NLANES utf8_checker utf8_new check_next_input has_error
                buf len pj H0 Hc) as (st & n & E & R & _ & _ & He & _).
    exists st, (finish utf8_checker has_error len pj st).
    split; [exact E |]. split; [exact R |]. split.
    + intros (p & Hp & Hm & Hb) Hz.
      pose proof (proj1 He Hz p Hp) as F. unfold unescaped_control in F.
      rewrite Hm in F. cbn [andb] in F. apply Z.leb_gt in F. lia.
    + intros Hq. apply finish_unescaped. exact Hq.
  - intros buf pj H Hc.
    destruct (index_result NLANES utf8_checker utf8_new check_next_input has_error
                buf 5 pj) as (st & n & _ & _ & _ & _ & He & _ & _ & _ & R3);
      [lia | lia |].
    assert (Ei : inside_before buf (Z.to_nat 5) = false).
    { rewrite (inside_before_ext buf (buffer_of control_example)).
      - vm_compute. reflexivity.
      - intros q Hq. apply holds_byte_at; [assumption | cbn; lia]. }
    assert (Eo : offsets buf (Z.to_nat 5) = [0]).
    { rewrite (offsets_ext buf (buffer_of control_example)).
      - vm_compute. reflexivity.
      - intros q Hq. apply holds_byte_at; [assumption | cbn; lia]. }
    destruct (R3 Ei) as (pj' & F & _); [rewrite Eo; discriminate | lia |].
    exists pj'. rewrite F. f_equal. f_equal. unfold final_status.
    destruct (Z.eqb_spec (error_mask st) 0) as [Hz | Hz]; [| reflexivity].
    pose proof (proj1 He Hz 2%nat) as F2.
    rewrite control_example_control in F2 by assumption.
    discriminate F2. change (Z.to_nat 5) with 5%nat. lia.
Qed.

End EndChecks.

(** ** What the entry point reads *)

Section Reads.

Variable NLANES : positive.
Variable utf8_checker : Type.
Variable utf8_new : utf8_checker.
Variable check_next_input : utf8_checker -> simd_input64 -> utf8_checker.
Variable has_error : utf8_checker -> bool.



End Reads.


(** ** Chunked and whole-buffer indexing *)

Section Chunking.

Variable NLANES : positive.
Variable utf8_checker : Type.
Variable utf8_new : utf8_checker.
Variable check_next_input : utf8_checker -> simd_input64 -> utf8_checker.
Variable has_error : utf8_checker -> bool.

Let N : nat := Pos.to_nat NLANES.
Let SW : Z := SIMD_WIDTH NLANES.
Let run := blocks_state utf8_checker check_next_input.
Let index := index_chunk NLANES utf8_checker check_next_input.

Lemma buffer_of_app_l c r i :
  0 <= i < Z.of_nat (length c) -> buffer_of (c ++ r) i = buffer_of c i.
Proof.
  intros Hi. unfold buffer_of.
  replace (i <? 0) with false by (symmetry; apply Z.ltb_ge; lia).
  apply app_nth1. lia.
Qed.

Lemma buffer_of_app_r c r i :
  0 <= i -> buffer_of (c ++ r) (Z.of_nat (length c) + i) = buffer_of r i.
Proof.
  intros Hi. unfold buffer_of.
  replace (Z.of_nat (length c) + i <? 0) with false by (symmetry; apply Z.ltb_ge; lia).
  replace (i <? 0) with false by (symmetry; apply Z.ltb_ge; lia).
  rewrite app_nth2 by lia. f_equal. lia.
Qed.

Lemma index_blocks c m st :
  Z.of_nat (length c) = Z.of_nat m * SW ->
  index c st = run (buffer_of c) (N * m) st.
Proof.
  intros H. unfold index, index_chunk. fold SW.
  pose proof (SW_pos NLANES) as P. fold SW in P.
  rewrite H, Z.div_mul, Nat2Z.id by lia.
  apply kernel_iter_blocks.
Qed.

Lemma index_app c r m k st :
  Z.of_nat (length c) = Z.of_nat m * SW ->
  Z.of_nat (length r) = Z.of_nat k * SW ->
  index (c ++ r) st = index r (index c st).
Proof.
  intros Hc Hr.
  rewrite (index_blocks (c ++ r) (m + k)), (index_blocks c m), (index_blocks r k);
    try assumption; [| rewrite length_app; lia].
  replace (N * (m + k))%nat with (N * m + N * k)%nat by lia.
  unfold run. rewrite (blocks_state_add NLANES).
  assert (E : 64 * Z.of_nat (N * m) = Z.of_nat (length c)).
  { rewrite Hc. unfold SW. rewrite (SW_N NLANES). fold N. lia. }
  rewrite (blocks_state_ext NLANES _ _ (buffer_of (c ++ r)) (buffer_of c) (N * m)).
  - apply (blocks_state_ext NLANES). intros i Hi. unfold ptr_add.
    rewrite E. apply buffer_of_app_r. lia.
  - intros i Hi. apply buffer_of_app_l. lia.
Qed.

Lemma whole_concat chunks :
  Forall (whole_chunk NLANES) chunks ->
  exists k, Z.of_nat (length (concat chunks)) = Z.of_nat k * SW.
Proof.
  induction 1 as [| c chunks (m & _ & Hm) _ (k & Hk)].
  - exists 0%nat. reflexivity.
  - exists (m + k)%nat. cbn [concat]. rewrite length_app. lia.
Qed.

Lemma index_concat chunks st :
  Forall (whole_chunk NLANES) chunks ->
  fold_left (fun st c => index c st) chunks st = index (concat chunks) st.
Proof.
  intros H. revert st. induction H as [| c chunks (m & _ & Hm) Hw IH]; intros st.
  - cbn [fold_left concat]. rewrite (index_blocks [] 0) by reflexivity.
    now rewrite Nat.mul_0_r.
  - cbn [fold_left concat]. rewrite IH.
    destruct (whole_concat chunks Hw) as (k & Hk).
    symmetry. now apply (index_app c (concat chunks) m k).
Qed.

Lemma chunked_blocks chunks st :
  Forall (whole_chunk NLANES) chunks ->
  exists k,
    Z.of_nat (length (concat chunks)) = Z.of_nat k * SIMD_WIDTH NLANES /\
    fold_left (fun st c => index_chunk NLANES utf8_checker check_next_input c st)
      chunks st
    = index_chunk NLANES utf8_checker check_next_input (concat chunks) st /\
    index_chunk NLANES utf8_checker check_next_input (concat chunks) st
    = blocks_state utf8_checker check_next_input (buffer_of (concat chunks))
        (Pos.to_nat NLANES * k) st.
Proof.
  intros H. destruct (whole_concat chunks H) as (k & Hk).
  exists k. split; [exact Hk |].
  split; [apply index_concat; exact H | apply index_blocks; exact Hk].
Qed.

End Chunking.

Lemma nth_positions (l : list nat) k :
  nth k (map Z.of_nat l) 0 = Z.of_nat (nth k l 0%nat).
Proof. change 0 with (Z.of_nat 0). apply map_nth. Qed.

Section ChunkedIndex.

Variable NLANES : positive.
Variable utf8_checker : Type.
Variable utf8_new : utf8_checker.
Variable check_next_input : utf8_checker -> simd_input64 -> utf8_checker.
Variable has_error : utf8_checker -> bool.

(** C2: for every way of cutting an input into successive chunks that are
    positive multiples of [SIMD_WIDTH], running the chunk kernel over the
    chunks in order, each chunk in a buffer of its own and the carry
    record handed from one call to the next, reaches the same state (the
    offsets written, their count, the pending mask and the carries) as the
    kernel run over the whole buffer, and as the scan of the entry point
    on the whole buffer; the entry point on the whole buffer then returns
    what its final checks make of that state.  Once the pending mask is
    flattened, the offsets the chunked run has written are the structural
    positions of the whole buffer, read byte by byte, in increasing order
    and nothing else; the carries it ends with are those of the whole
    buffer (parity of the trailing backslash run, inside a string or not,
    pseudo-structural predecessor, control byte inside a string, UTF-8
    state after all blocks); and every other cut of the same input, at
    any other [SIMD_WIDTH], ends in the same state. *)
Theorem C2_chunking_independent chunks a0 :
  Forall (whole_chunk NLANES) chunks ->
  let whole := concat chunks in
  let len := Z.of_nat (length whole) in
  let init := initial_state utf8_checker utf8_new a0 in
  let chunked :=
    fold_left (fun st c => index_chunk NLANES utf8_checker check_next_input c st)
      chunks init in
  let positions := filter (structural_at (buffer_of whole)) (seq 0 (length whole)) in
  let flushed := flatten_bits (base_ptr chunked) (base chunked) (idx chunked)
                   (prev_structurals chunked) in
  chunked = index_chunk NLANES utf8_checker check_next_input whole init /\
  scan NLANES utf8_checker utf8_new check_next_input (buffer_of whole) len a0
    = Some chunked /\
  (forall pj,
     structural_indexes pj = a0 -> len <= byte_capacity pj ->
     find_structural_bits NLANES utf8_checker utf8_new check_next_input has_error
       (buffer_of whole) len pj
     = Some (finish utf8_checker has_error len pj chunked)) /\
  flushed = fold_left push (offsets (buffer_of whole) (length whole)) (a0, 0) /\
  (len < 2 ^ 32 ->
   snd flushed = Z.of_nat (length positions) /\
   (forall k, (k < length positions)%nat ->
      fst flushed (Z.of_nat k) = Z.of_nat (nth k positions 0%nat)) /\
   (forall i, i < 0 \/ Z.of_nat (length positions) <= i -> fst flushed i = a0 i)) /\
  prev_iter_ends_odd_backslash chunked = run_odd (buffer_of whole) (length whole) /\
  prev_iter_inside_quote chunked
    = (if inside_before (buffer_of whole) (length whole) then ALL_ONES else 0) /\
  prev_iter_ends_pseudo_pred chunked = pred_before (buffer_of whole) (length whole) /\
  (error_mask chunked = 0 <->
   forall p, (p < length whole)%nat -> unescaped_control (buffer_of whole) p = false) /\
  utf8_state chunked
    = utf8_after utf8_new check_next_input (buffer_of whole) (length whole / 64) /\
  (forall NLANES' chunks',
     Forall (whole_chunk NLANES') chunks' -> concat chunks' = whole ->
     fold_left (fun st c => index_chunk NLANES' utf8_checker check_next_input c st)
       chunks' init = chunked) /\
  (forall pj e pj',
     structural_indexes pj = a0 -> len <= byte_capacity pj -> len + 1 < 2 ^ 32 ->
     find_structural_bits NLANES utf8_checker utf8_new check_next_input has_error
       (buffer_of whole) len pj = Some (e, pj') ->
     e <> UNCLOSED_STRING ->
     n_structural_indexes pj' = (if snd flushed =? 0 then 0 else snd flushed + 1) /\
     (forall i, 0 <= i < snd flushed -> structural_indexes pj' i = fst flushed i) /\
     (snd flushed <> 0 -> structural_indexes pj' (snd flushed) = len)).
Proof.
  intros H whole len init chunked positions flushed.
  destruct (chunked_blocks NLANES utf8_checker check_next_input chunks init H)
    as (k & Hk & E1 & E1'). fold whole in Hk, E1, E1'. fold chunked in E1.
  pose proof (SW_N NLANES) as HN. cbv zeta in HN.
  set (n := (Pos.to_nat NLANES * k)%nat) in *.
  assert (Ln : length whole = (64 * n)%nat) by (unfold n; nia).
  assert (EC : chunked
               = blocks_state utf8_checker check_next_input (buffer_of whole) n init)
    by (rewrite E1; exact E1').
  destruct (blocks_state_meaning utf8_checker utf8_new check_next_input
              (buffer_of whole) a0 n) as (_ & I2 & I3 & I4 & _ & I6 & _).
  cbv zeta in I2, I3, I4, I6. fold init in I2, I3, I4, I6.
  rewrite <- EC in I2, I3, I4, I6.
  assert (F : flushed
              = fold_left push (offsets (buffer_of whole) (length whole)) (a0, 0)).
  { unfold flushed. rewrite EC, Ln.
    apply (pending_flatten utf8_checker utf8_new check_next_input
             (buffer_of whole) a0 n). }
  split; [exact E1 |]. split; [| split].
  - destruct (scan_blocks NLANES utf8_checker utf8_new check_next_input
                (buffer_of whole) a0 len) as (K & E & B); [unfold len; lia |].
    cbv zeta in E, B. fold init in E.
    assert (K = k) by (fold len in Hk; pose proof (Pos2Nat.is_pos NLANES); nia).
    subst K. fold n in E. rewrite E, EC.
    apply f_equal. apply (blocks_state_ext NLANES).
    intros i Hi. unfold padded.
    replace (i <? len) with true; [reflexivity |].
    symmetry. apply Z.ltb_lt. unfold len. lia.
  - intros pj Ha Hc. subst a0.
    apply entry_point; [assumption |].
    destruct (scan_blocks NLANES utf8_checker utf8_new check_next_input
                (buffer_of whole) (structural_indexes pj) len)
      as (K & E & B); [unfold len; lia |].
    cbv zeta in E, B. fold init in E.
    assert (K = k) by (fold len in Hk; pose proof (Pos2Nat.is_pos NLANES); nia).
    subst K. fold n in E. rewrite E, EC.
    apply f_equal. apply (blocks_state_ext NLANES).
    intros i Hi. unfold padded.
    replace (i <? len) with true; [reflexivity |].
    symmetry. apply Z.ltb_lt. unfold len. lia.
  - split; [exact F |].
    assert (Lo : length (offsets (buffer_of whole) (length whole)) = length positions)
      by (unfold offsets; apply length_map).
    split.
    { intros Hmax.
      pose proof (length_offsets (buffer_of whole) (length whole)) as Lle.
      destruct (fold_push (offsets (buffer_of whole) (length whole)) a0 0)
        as [S1 S2]; [lia | unfold len in Hmax; lia |].
      rewrite F. split; [rewrite S1, Lo; lia |]. split.
      - intros j Hj. rewrite S2, stored_at by lia.
        rewrite offsets_positions by (unfold len in Hmax; lia).
        apply nth_positions.
      - intros i Hi. rewrite S2. unfold stored. rewrite Lo.
        destruct (Z.leb_spec 0 i), (Z.ltb_spec i (0 + Z.of_nat (length positions)));
          try reflexivity; lia. }
    rewrite Ln. split; [exact I2 |]. split; [exact I3 |]. split; [exact I4 |].
    split; [rewrite I6; apply or_masks_zero_iff |].
    split.
    { rewrite EC, Nat.mul_comm, Nat.div_mul by lia.
      apply utf8_state_blocks. }
    split.
    { intros NLANES' chunks' H' Hc.
      destruct (chunked_blocks NLANES' utf8_checker check_next_input chunks' init H')
        as (k' & Hk' & E2 & E2'). rewrite Hc in Hk', E2, E2'.
      rewrite E2, E2', EC. f_equal.
      pose proof (SW_N NLANES') as HN'. cbv zeta in HN'. unfold n. nia. }
    intros pj e pj' Ha Hc Hmax R Hne.
    assert (H0 : 0 <= len) by (unfold len; lia).
    destruct (index_result NLANES utf8_checker utf8_new check_next_input has_error
                (buffer_of whole) len pj H0 Hc)
      as (st & m & _ & _ & _ & _ & _ & _ & R1 & R2 & R3).
    cbv zeta in R1, R2, R3.
    replace (Z.to_nat len) with (length whole) in R1, R2, R3
      by (unfold len; now rewrite Nat2Z.id).
    rewrite Ha in R2, R3.
    pose proof (length_offsets (buffer_of whole) (length whole)) as Lle.
    destruct (fold_push (offsets (buffer_of whole) (length whole)) a0 0)
      as [S1 S2]; [lia | unfold len in Hmax; lia |].
    rewrite <- F in S1, S2. rewrite Z.add_0_l in S1.
    destruct (inside_before (buffer_of whole) (length whole)).
    { rewrite R1 in R by reflexivity. injection R as R _. now contradiction Hne. }
    destruct (offsets (buffer_of whole) (length whole)) as [| x0 l0] eqn:Eo.
    { rewrite R2 in R by reflexivity. injection R as _ R. subst pj'.
      cbn [length] in S1. rewrite S1. cbn [n_structural_indexes].
      split; [reflexivity |]. split; [intros i Hi; lia | intros Hz; now contradiction Hz]. }
    destruct R3 as (pj'' & F1 & _ & F3 & F4);
      [reflexivity | discriminate | exact Hmax |].
    rewrite F1 in R. injection R as _ R. subst pj''.
    rewrite S1.
    replace (Z.of_nat (length (x0 :: l0)) =? 0) with false
      by (symmetry; apply Z.eqb_neq; cbn [length]; lia).
    split; [exact F3 |]. split.
    + intros i Hi. rewrite F4, S2.
      replace (i =? Z.of_nat (length (x0 :: l0)) + 1) with false
        by (symmetry; apply Z.eqb_neq; lia).
      rewrite <- (Z2Nat.id i) by lia.
      rewrite !stored_at by (rewrite ?length_app; cbn [length] in *; lia).
      apply app_nth1. lia.
    + intros _. rewrite F4.
      replace (Z.of_nat (length (x0 :: l0)) =? Z.of_nat (length (x0 :: l0)) + 1)
        with false by (symmetry; apply Z.eqb_neq; lia).
      rewrite stored_at by (rewrite length_app; cbn [length]; lia).
      rewrite app_nth2 by lia. now rewrite Nat.sub_diag.
Qed.

End ChunkedIndex.

(** ** Backslash runs before a quote *)

Section Backslashes.

Variable s : pointer.

Lemma backslash_carry_run_odd j : backslash_carry s j = run_odd s (64 * j).
Proof.
  induction j as [| j IH]; [reflexivity |].
  cbn [backslash_carry]. rewrite IH.
  now destruct (odd_ends_global s j) as (_ & -> & _).
Qed.

Lemma odd_ends_of_bit j b :
  (b < 64)%nat ->
  Z.testbit (odd_ends_of s j) (Z.of_nat b)
  = negb (byte_at s (64 * j + b) =? 0x5C) && run_odd s (64 * j + b).
Proof.
  intros Hb. unfold odd_ends_of. rewrite backslash_carry_run_odd.
  destruct (odd_ends_global s j) as (_ & _ & H). now apply H.
Qed.

Lemma position_split p : (64 * (p / 64) + p mod 64)%nat = p.
Proof. symmetry. apply Nat.div_mod_eq. Qed.

Lemma in_odd_ends_spec p :
  in_odd_ends s p = negb (byte_at s p =? 0x5C) && run_odd s p.
Proof.
  unfold in_odd_ends.
  rewrite odd_ends_of_bit by (apply Nat.mod_upper_bound; lia).
  now rewrite position_split.
Qed.

Lemma in_quote_bits_spec p : in_quote_bits s p = real_quote s p.
Proof.
  unfold in_quote_bits, quote_bits_of, find_quote_mask_and_bits.
  cbn [qr_quote_bits].
  assert (Hb : (p mod 64 < 64)%nat) by (apply Nat.mod_upper_bound; lia).
  rewrite Z.land_spec, testbit_not64 by lia.
  fold (in_odd_ends s p). rewrite in_odd_ends_spec.
  unfold simd_eq. rewrite testbit_block_bitmask, position_split by assumption.
  unfold real_quote.
  destruct (byte_at s p =? 0x22) eqn:E; [| reflexivity].
  now rewrite (quote_is_not_backslash _ E).
Qed.

Lemma run_odd_after_run start k :
  backslash_run s start k -> run_odd s (start + k) = Nat.odd k.
Proof.
  intros [H0 H]. induction k as [| k IH].
  - rewrite Nat.add_0_r. destruct start as [| q]; [reflexivity |].
    destruct H0 as [H0 | H0]; [discriminate |].
    cbn [run_odd]. replace (S q - 1)%nat with q in H0 by lia.
    now replace (byte_at s q =? 0x5C) with false
      by (symmetry; now apply Z.eqb_neq).
  - replace (start + S k)%nat with (S (start + k)) by lia.
    cbn [run_odd]. rewrite H, Z.eqb_refl, IH by (intros; apply H; lia) || lia.
    rewrite Nat.odd_succ. apply Nat.negb_odd.
Qed.

End Backslashes.

(** C7: when a maximal run of [k] backslashes is immediately followed by a
    quote, the position of the quote is in the [odd_ends] mask that
    [find_odd_backslash_sequences] returns for its block, and is cleared
    from [quote_bits], if and only if [k] is odd; with a run of [k + 1]
    backslashes instead, the quote changes sides.  The masks are those the
    kernel computes for the block when it scans the stream. *)
Theorem C7_backslash_parity s start k :
  backslash_run s start k ->
  byte_at s (start + k) = 0x22 ->
  let p := (start + k)%nat in
  in_odd_ends s p = Nat.odd k /\
  in_quote_bits s p = Nat.even k /\
  (forall s' start',
     backslash_run s' start' (S k) ->
     byte_at s' (start' + S k) = 0x22 ->
     in_odd_ends s' (start' + S k) = negb (in_odd_ends s p) /\
     in_quote_bits s' (start' + S k) = negb (in_quote_bits s p)) /\
  (forall (utf8_checker : Type) (utf8_new : utf8_checker) check_next_input a0
          unescaped inside err,
     let st := blocks_state utf8_checker check_next_input s (p / 64)
                 (initial_state utf8_checker utf8_new a0) in
     fst (step_odd_ends (block s (p / 64)) st) = odd_ends_of s (p / 64) /\
     qr_quote_bits (step_quotes (block s (p / 64)) st) = quote_bits_of s (p / 64) /\
     qr_quote_bits (find_quote_mask_and_bits unescaped (odd_ends_of s (p / 64))
                      inside (simd_eq (block s (p / 64)) 0x22) err)
       = quote_bits_of s (p / 64)).
Proof.
  intros Hrun Hq p.
  assert (A : forall s1 st1 k1, backslash_run s1 st1 k1 ->
              byte_at s1 (st1 + k1) = 0x22 ->
              in_odd_ends s1 (st1 + k1) = Nat.odd k1 /\
              in_quote_bits s1 (st1 + k1) = Nat.even k1).
  { intros s1 st1 k1 R Q.
    rewrite in_odd_ends_spec, in_quote_bits_spec. unfold real_quote.
    rewrite Q, (run_odd_after_run s1 st1 k1 R). cbn [Z.eqb negb andb Pos.eqb].
    split; [reflexivity | apply Nat.negb_odd]. }
  destruct (A s start k Hrun Hq) as [A1 A2]. fold p in A1, A2.
  split; [exact A1 |]. split; [exact A2 |]. split.
  - intros s' start' R' Q'. destruct (A s' start' (S k) R' Q') as [B1 B2].
    rewrite A1, A2, B1, B2, Nat.odd_succ, Nat.even_succ.
    now rewrite Nat.negb_odd, Nat.negb_even.
  - intros utf8_checker utf8_new check_next_input a0 unescaped inside err st.
    destruct (blocks_state_meaning utf8_checker utf8_new check_next_input s a0 (p / 64))
      as (_ & I2 & _).
    fold st in I2.
    assert (E : fst (step_odd_ends (block s (p / 64)) st) = odd_ends_of s (p / 64)).
    { unfold step_odd_ends, odd_ends_of.
      now rewrite I2, backslash_carry_run_odd. }
    split; [exact E |]. split; [| reflexivity].
    unfold step_quotes. rewrite E. reflexivity.
Qed.

Lemma C7_backslash_parity_witness :
  backslash_run (buffer_of [0x22; 0x5C; 0x5C; 0x5C; 0x22; 0x22]) 1 3 /\
  byte_at (buffer_of [0x22; 0x5C; 0x5C; 0x5C; 0x22; 0x22]) (1 + 3) = 0x22 /\
  in_odd_ends (buffer_of [0x22; 0x5C; 0x5C; 0x5C; 0x22; 0x22]) (1 + 3) = Nat.odd 3 /\
  in_quote_bits (buffer_of [0x22; 0x5C; 0x5C; 0x5C; 0x22; 0x22]) (1 + 3) = Nat.even 3.
Proof.
  assert (R : backslash_run (buffer_of [0x22; 0x5C; 0x5C; 0x5C; 0x22; 0x22]) 1 3).
  { split; [right; discriminate |].
    intros i Hi. destruct i as [| [| [| i]]]; try reflexivity; lia. }
  split; [exact R |]. split; [reflexivity |].
  destruct (C7_backslash_parity (buffer_of [0x22; 0x5C; 0x5C; 0x5C; 0x22; 0x22]) 1 3
              R eq_refl) as (A1 & A2 & _).
  split; [exact A1 | exact A2].
Defined.

(** ** String literals in the index *)

Section Literals.

Variable buf : pointer.
Variables o c : nat.
Hypothesis literal : string_literal buf o c.

Lemma inside_literal p : (o < p <= c)%nat -> inside_before buf p = true.
Proof.
  destruct literal as (Ho & Hi & Hoc & Hc & Hmid).
  induction p as [| q IH]; intros Hp; [lia |].
  cbn [inside_before]. destruct (Nat.eq_dec q o) as [-> | Hne].
  - now rewrite Hi, Ho.
  - now rewrite IH, Hmid by lia.
Qed.

Lemma literal_structural p :
  (o <= p <= c)%nat -> structural_at buf p = (p =? o)%nat.
Proof.
  destruct literal as (Ho & Hi & Hoc & Hc & Hmid). intros Hp.
  unfold structural_at, masked_structural, in_quote_mask.
  destruct (Nat.eqb_spec p o) as [-> | Hne].
  - rewrite Ho, (inside_literal (S o)) by lia.
    cbn [negb andb]. now rewrite orb_true_r.
  - destruct (Nat.eq_dec p c) as [-> | Hnc].
    + cbn [inside_before]. rewrite inside_literal, Hc by lia.
      cbn [xorb negb andb]. apply andb_false_r.
    + rewrite (inside_literal (S p)), Hmid by lia.
      cbn [negb andb orb]. now rewrite !andb_false_r.
Qed.

End Literals.

Lemma emitted_iff pj' a0 l x :
  n_structural_indexes pj' = Z.of_nat (length l) ->
  (forall i, 0 <= i < Z.of_nat (length l) ->
     structural_indexes pj' i = stored a0 0 l i) ->
  (emitted pj' x <-> In x l).
Proof.
  intros Hn Ha. unfold emitted. rewrite Hn. split.
  - intros (i & Hi & <-). rewrite Ha by assumption.
    rewrite <- (Z2Nat.id i) by lia. rewrite stored_at by lia.
    apply nth_In. lia.
  - intros Hin. destruct (In_nth l x 0 Hin) as (k & Hk & <-).
    exists (Z.of_nat k). split; [lia |].
    rewrite Ha by lia. now apply stored_at.
Qed.

Lemma index_emitted pj' a0 l v :
  n_structural_indexes pj' = Z.of_nat (length l) + 1 ->
  (forall i, structural_indexes pj' i =
             if i =? Z.of_nat (length l) + 1 then 0 else stored a0 0 (l ++ [v]) i) ->
  n_structural_indexes pj' = Z.of_nat (length (l ++ [v])) /\
  forall i, 0 <= i < Z.of_nat (length (l ++ [v])) ->
    structural_indexes pj' i = stored a0 0 (l ++ [v]) i.
Proof.
  intros Hn Ha. rewrite length_app. cbn [length]. split; [lia |].
  intros i Hi. rewrite Ha.
  now replace (i =? Z.of_nat (length l) + 1) with false
    by (symmetry; apply Z.eqb_neq; lia).
Qed.

Lemma string_literal_object_example :
  string_literal (buffer_of object_example) 1 3.
Proof.
  split; [reflexivity |]. split; [reflexivity |]. split; [lia |].
  split; [reflexivity |].
  intros p Hp. replace p with 2%nat by lia. reflexivity.
Qed.

(** The claim C1 as the specification states it fails on [{"a":1}]: of the
    string literal at the offsets 1 to 3, only the opening quote (offset 1)
    is reported; the byte after it (offset 2) is not. *)
Lemma C1_counterexample :
  string_literal (buffer_of object_example) 1 3 /\
  exists pj',
    find_structural_bits 1 ScalarUtf8.checker ScalarUtf8.new
      ScalarUtf8.check_next_input ScalarUtf8.has_error
      (buffer_of object_example) 7 (mk_ParsedJson 7 (fun _ => 0) 0)
      = Some (SUCCESS, pj') /\
    emitted pj' 1 /\ ~ emitted pj' 2 /\
    ~ (forall x, 1 <= x <= 3 -> (emitted pj' x <-> x = 1 \/ x = 1 + 1)).
Proof.
  split; [exact string_literal_object_example |].
  destruct (object_example_index 1 ScalarUtf8.checker ScalarUtf8.new
              ScalarUtf8.check_next_input ScalarUtf8.has_error
              (buffer_of object_example) (mk_ParsedJson 7 (fun _ => 0) 0)
              scalar_utf8_accepts_ascii (holds_buffer_of object_example))
    as (pj' & F1 & F3 & F4); [cbn; lia |].
  exists pj'. split; [exact F1 |].
  assert (E : forall x, emitted pj' x <-> In x [0; 1; 4; 5; 6; 7]).
  { intros x. apply (emitted_iff pj' (fun _ => 0)); [exact F3 |].
    intros i Hi. rewrite F4.
    now replace (i =? 6) with false by (symmetry; apply Z.eqb_neq; cbn in Hi; lia). }
  assert (N2 : ~ emitted pj' 2).
  { rewrite E. cbn [In]. lia. }
  split; [apply E; cbn [In]; lia |]. split; [exact N2 |].
  intros H. apply N2, H; lia.
Qed.

Section LiteralIndex.

Variable NLANES : positive.
Variable utf8_checker : Type.
Variable utf8_new : utf8_checker.
Variable check_next_input : utf8_checker -> simd_input64 -> utf8_checker.
Variable has_error : utf8_checker -> bool.

(** C1, amended: for an input within capacity that contains a string
    literal (an unescaped opening quote up to the next unescaped quote),
    the structural masks the kernel hands to [flatten_bits] have, among
    the positions of the literal, only the bit of the opening quote set;
    and when the entry point completes the index (it does not return
    [UNCLOSED_STRING]) on an input whose length plus one fits 32 bits,
    exactly one reported offset lies in the literal: the opening quote.
    Neither the byte after it nor the closing quote is reported. *)
Theorem C1_string_literal_offsets buf len pj o c :
  0 <= len -> len <= byte_capacity pj ->
  string_literal buf o c -> Z.of_nat c < len ->
  (forall p, (o <= p <= c)%nat ->
     Z.testbit
       (prev_structurals
          (blocks_state utf8_checker check_next_input (padded buf len)
             (S (p / 64))
             (initial_state utf8_checker utf8_new (structural_indexes pj))))
       (Z.of_nat (p mod 64)) = (p =? o)%nat) /\
  (forall e pj',
     find_structural_bits NLANES utf8_checker utf8_new check_next_input
       has_error buf len pj = Some (e, pj') ->
     e <> UNCLOSED_STRING -> len + 1 < 2 ^ 32 ->
     forall x, Z.of_nat o <= x <= Z.of_nat c ->
       (emitted pj' x <-> x = Z.of_nat o)).
Proof.
  intros H0 Hc Hlit Hend. split.
  - intros p Hp.
    destruct (blocks_state_meaning utf8_checker utf8_new check_next_input
                (padded buf len) (structural_indexes pj) (S (p / 64)))
      as (_ & _ & _ & _ & I5 & _).
    rewrite I5. cbn [pending].
    rewrite testbit_block_mask by (apply Nat.mod_upper_bound; lia).
    rewrite position_split, <- (literal_structural buf o c Hlit p Hp).
    apply structural_at_ext. intros q Hq.
    apply padded_below; lia.
  - intros e pj' R Hne Hmax x Hx.
    destruct (index_result NLANES utf8_checker utf8_new check_next_input has_error
                buf len pj H0 Hc) as (st & n & _ & _ & _ & _ & _ & _ & R1 & _ & R3).
    assert (Hin : In (Z.of_nat o) (offsets buf (Z.to_nat len))).
    { apply in_offsets; [lia |]. exists o. split; [reflexivity |].
      split; [lia |]. rewrite (literal_structural buf o c Hlit) by (destruct Hlit; lia).
      apply Nat.eqb_refl. }
    destruct (inside_before buf (Z.to_nat len)).
    { rewrite R1 in R by reflexivity. congruence. }
    destruct R3 as (pj'' & F1 & _ & F3 & F4);
      [reflexivity | intros E; now rewrite E in Hin | assumption |].
    rewrite F1 in R. injection R as _ ->.
    destruct (index_emitted pj' _ _ _ F3 F4) as [G1 G2].
    rewrite (emitted_iff pj' _ _ x G1 G2), in_app_iff. cbn [In]. split.
    + intros [Hi | [Hi | []]]; [| lia].
      apply in_offsets in Hi; [| lia]. destruct Hi as (p & -> & Hp & Hs).
      rewrite (literal_structural buf o c Hlit) in Hs by lia.
      apply Nat.eqb_eq in Hs. now subst.
    + intros ->. now left.
Qed.

End LiteralIndex.

Lemma C1_string_literal_offsets_witness :
  0 <= 7 /\ 7 <= byte_capacity (mk_ParsedJson 7 (fun _ => 0) 0) /\
  string_literal (buffer_of object_example) 1 3 /\ Z.of_nat 3 < 7 /\
  forall e pj',
    find_structural_bits 1 ScalarUtf8.checker ScalarUtf8.new
      ScalarUtf8.check_next_input ScalarUtf8.has_error
      (buffer_of object_example) 7 (mk_ParsedJson 7 (fun _ => 0) 0)
      = Some (e, pj') ->
    e <> UNCLOSED_STRING -> 7 + 1 < 2 ^ 32 ->
    forall x, Z.of_nat 1 <= x <= Z.of_nat 3 -> (emitted pj' x <-> x = Z.of_nat 1).
Proof.
  split; [lia |]. split; [cbn; lia |].
  split; [exact string_literal_object_example |]. split; [cbn; lia |].
  apply (C1_string_literal_offsets 1 ScalarUtf8.checker ScalarUtf8.new
           ScalarUtf8.check_next_input ScalarUtf8.has_error
           (buffer_of object_example) 7 (mk_ParsedJson 7 (fun _ => 0) 0) 1 3).
  - lia.
  - cbn. lia.
  - exact string_literal_object_example.
  - cbn. lia.
Defined.

(** ** The invariants of the index *)

Section IndexInvariant.

Variable NLANES : positive.
Variable utf8_checker : Type.
Variable utf8_new : utf8_checker.
Variable check_next_input : utf8_checker -> simd_input64 -> utf8_checker.
Variable has_error : utf8_checker -> bool.

(** C4, amended: when [find_structural_bits] returns [SUCCESS] on an input
    whose length plus one fits 32 bits, the reported offsets are strictly
    increasing, lie in [0, len], the last one is [len], and the slot after
    them holds 0. *)
Theorem C4_offsets_invariant buf len pj pj' :
  0 <= len -> len + 1 < 2 ^ 32 ->
  find_structural_bits NLANES utf8_checker utf8_new check_next_input has_error
    buf len pj = Some (SUCCESS, pj') ->
  let n := n_structural_indexes pj' in
  let a := structural_indexes pj' in
  (forall i j, 0 <= i -> i < j -> j < n -> a i < a j) /\
  (forall i, 0 <= i < n -> 0 <= a i <= len) /\
  0 < n /\ a (n - 1) = len /\ a n = 0.
Proof.
  intros H0 Hmax R n a.
  destruct (Z.leb_spec len (byte_capacity pj)) as [Hc | Hc].
  2:{ unfold find_structural_bits in R. rewrite Z.gtb_ltb in R.
      replace (byte_capacity pj <? len) with true in R
        by (symmetry; apply Z.ltb_lt; lia).
      discriminate. }
  destruct (index_result NLANES utf8_checker utf8_new check_next_input has_error
              buf len pj H0 Hc) as (st & k & _ & _ & _ & _ & _ & _ & R1 & R2 & R3).
  destruct (inside_before buf (Z.to_nat len)).
  { rewrite R1 in R by reflexivity. discriminate. }
  destruct (offsets_sorted buf len) as [I F]; [lia | lia |].
  destruct (offsets buf (Z.to_nat len)) as [| x0 l0] eqn:Eo.
  { rewrite R2 in R by reflexivity. discriminate. }
  rewrite <- Eo in *. set (offs := offsets buf (Z.to_nat len)) in *.
  destruct R3 as (pj'' & F1 & _ & F3 & F4);
    [reflexivity | rewrite Eo; discriminate | assumption |].
  rewrite F1 in R. injection R as _ ->.
  destruct (index_emitted pj' _ _ _ F3 F4) as [G1 G2].
  assert (Hs : increasing_from 0 (offs ++ [len])).
  { apply increasing_from_app; assumption. }
  assert (V : forall i, 0 <= i < n -> a i = nth (Z.to_nat i) (offs ++ [len]) 0).
  { intros i Hi. unfold a, n in *. rewrite G2 by lia.
    rewrite <- (Z2Nat.id i) at 1 by lia. apply stored_at. lia. }
  assert (Hlen : n = Z.of_nat (length offs) + 1) by exact F3.
  assert (Hl : length (offs ++ [len]) = S (length offs))
    by (rewrite length_app; cbn; lia).
  split; [| split; [| split; [| split]]].
  - intros i j Hi Hij Hj. rewrite !V by lia.
    apply (increasing_from_nth 0); [assumption | lia].
  - intros i Hi. rewrite V by lia. split.
    + apply increasing_from_bound; [assumption | lia].
    + destruct (Z.eq_dec i (n - 1)) as [-> | Hne].
      * replace (Z.to_nat (n - 1)) with (length offs) by lia.
        rewrite app_nth2, Nat.sub_diag by lia. cbn. lia.
      * rewrite app_nth1 by lia.
        rewrite Forall_forall in F. apply Z.lt_le_incl, F, nth_In. lia.
  - lia.
  - rewrite V by lia.
    replace (Z.to_nat (n - 1)) with (length offs) by lia.
    now rewrite app_nth2, Nat.sub_diag by lia.
  - unfold a. rewrite F4. fold n. rewrite <- Hlen. now rewrite Z.eqb_refl.
Qed.

End IndexInvariant.

Lemma C4_offsets_invariant_witness :
  0 <= 7 /\ 7 + 1 < 2 ^ 32 /\
  exists pj',
    find_structural_bits 1 ScalarUtf8.checker ScalarUtf8.new
      ScalarUtf8.check_next_input ScalarUtf8.has_error
      (buffer_of object_example) 7 (mk_ParsedJson 7 (fun _ => 0) 0)
      = Some (SUCCESS, pj') /\
    structural_indexes pj' (n_structural_indexes pj' - 1) = 7 /\
    structural_indexes pj' (n_structural_indexes pj') = 0.
Proof.
  split; [lia |]. split; [lia |].
  destruct (object_example_index 1 ScalarUtf8.checker ScalarUtf8.new
              ScalarUtf8.check_next_input ScalarUtf8.has_error
              (buffer_of object_example) (mk_ParsedJson 7 (fun _ => 0) 0)
              scalar_utf8_accepts_ascii (holds_buffer_of object_example))
    as (pj' & F1 & _); [cbn; lia |].
  exists pj'. split; [exact F1 |].
  destruct (C4_offsets_invariant 1 ScalarUtf8.checker ScalarUtf8.new
              ScalarUtf8.check_next_input ScalarUtf8.has_error
              (buffer_of object_example) 7 (mk_ParsedJson 7 (fun _ => 0) 0) pj')
    as (_ & _ & _ & A & B); [lia | lia | exact F1 |].
  split; [exact A | exact B].
Defined.

(** ** An input of 4 GiB *)

Lemma no_quote_inside s :
  (forall p, real_quote s p = false) -> forall n, inside_before s n = false.
Proof.
  intros H n. induction n as [| n IH]; [reflexivity |].
  cbn [inside_before]. now rewrite IH, H.
Qed.

Lemma filter_none (f : nat -> bool) l :
  (forall p, In p l -> f p = false) -> filter f l = [].
Proof.
  intros H. induction l as [| x l IH]; [reflexivity |].
  cbn [filter]. rewrite H by now left. apply IH. intros p Hp. apply H. now right.
Qed.

Lemma offsets_single s n :
  structural_at s 0 = true ->
  (forall p, (0 < p)%nat -> structural_at s p = false) ->
  (0 < n)%nat -> offsets s n = [0].
Proof.
  intros H0 H Hn. unfold offsets. destruct n as [| n]; [lia |].
  cbn [seq filter]. rewrite H0, filter_none; [reflexivity |].
  intros p Hp. apply in_seq in Hp. apply H. lia.
Qed.

Lemma huge_input_byte p : byte_at huge_input (S p) = 0x20.
Proof.
  unfold byte_at, huge_input.
  now replace (Z.of_nat (S p) =? 0) with false by (symmetry; apply Z.eqb_neq; lia).
Qed.

Lemma huge_input_no_quote p : real_quote huge_input p = false.
Proof.
  destruct p as [| p]; [reflexivity |].
  apply space_not_quote, huge_input_byte.
Qed.

(** The claim C4 as the specification states it fails on an input of 2^32
    bytes (the digit 1 followed by spaces): the entry point returns
    [SUCCESS] with the two offsets 0 and 0, because the virtual terminator
    [len] is stored in a 32-bit slot. *)
Lemma C4_counterexample :
  exists pj',
    find_structural_bits 1 ScalarUtf8.checker ScalarUtf8.new
      ScalarUtf8.check_next_input ScalarUtf8.has_error
      huge_input (2 ^ 32) (mk_ParsedJson (2 ^ 32) (fun _ => 0) 0)
      = Some (SUCCESS, pj') /\
    n_structural_indexes pj' = 2 /\
    structural_indexes pj' 0 = 0 /\ structural_indexes pj' 1 = 0 /\
    ~ (structural_indexes pj' 0 < structural_indexes pj' 1) /\
    structural_indexes pj' (n_structural_indexes pj' - 1) <> 2 ^ 32.
Proof.
  set (len := 2 ^ 32). set (pj := mk_ParsedJson len (fun _ => 0) 0).
  assert (H0 : 0 <= len) by (unfold len; lia).
  destruct (scan_summary 1 ScalarUtf8.checker ScalarUtf8.new
              ScalarUtf8.check_next_input huge_input len (structural_indexes pj) H0)
    as (st & n & E & _ & Hq & He & Hf & Hu).
  pose proof (entry_point 1 ScalarUtf8.checker ScalarUtf8.new
                ScalarUtf8.check_next_input ScalarUtf8.has_error huge_input len pj
                (Z.le_refl len) st E) as R.
  rewrite (no_quote_inside huge_input huge_input_no_quote) in Hq.
  rewrite offsets_single in Hf; [ | reflexivity | | unfold len; lia].
  2:{ intros p Hp. destruct p as [| p]; [lia |].
      apply space_not_structural, huge_input_byte. }
  assert (Hz : error_mask st = 0).
  { apply (proj2 He). intros p _. unfold unescaped_control, in_quote_mask.
    now rewrite (no_quote_inside huge_input huge_input_no_quote). }
  assert (Hv : ScalarUtf8.has_error (utf8_state st) = false).
  { rewrite Hu. apply ascii_padded; [exact scalar_utf8_accepts_ascii |].
    intros i _. unfold huge_input, is_ascii. destruct (i =? 0); lia. }
  eexists. split.
  - rewrite R. unfold finish. rewrite Hq, Hf, Hz. unfold utf8_errors.
    rewrite Hv. reflexivity.
  - cbn [n_structural_indexes structural_indexes].
    repeat split; try reflexivity; unfold array_set; cbn; lia.
Qed.

(** ** The claims at concrete inputs *)

Lemma C5_unclosed_string_witness :
  0 <= 4 /\ 4 <= byte_capacity (mk_ParsedJson 4 (fun _ => 0) 0) /\
  holds (buffer_of unclosed_example) unclosed_example /\
  (exists st r,
     scan 1 ScalarUtf8.checker ScalarUtf8.new ScalarUtf8.check_next_input
       (buffer_of unclosed_example) 4 (fun _ => 0) = Some st /\
     find_structural_bits 1 ScalarUtf8.checker ScalarUtf8.new
       ScalarUtf8.check_next_input ScalarUtf8.has_error
       (buffer_of unclosed_example) 4 (mk_ParsedJson 4 (fun _ => 0) 0) = Some r /\
     (fst r = UNCLOSED_STRING <-> prev_iter_inside_quote st <> 0) /\
     (prev_iter_inside_quote st <> 0 <-> prev_iter_inside_quote st = ALL_ONES)) /\
  (exists pj',
     find_structural_bits 1 ScalarUtf8.checker ScalarUtf8.new
       ScalarUtf8.check_next_input ScalarUtf8.has_error
       (buffer_of unclosed_example) 4 (mk_ParsedJson 4 (fun _ => 0) 0)
     = Some (UNCLOSED_STRING, pj')).
Proof.
  destruct (C5_unclosed_string 1 ScalarUtf8.checker ScalarUtf8.new
              ScalarUtf8.check_next_input ScalarUtf8.has_error) as [A B].
  split; [lia |]. split; [cbn; lia |].
  split; [exact (holds_buffer_of unclosed_example) |]. split.
  - apply (A (buffer_of unclosed_example) 4 (mk_ParsedJson 4 (fun _ => 0) 0));
      cbn; lia.
  - apply (B (buffer_of unclosed_example) (mk_ParsedJson 4 (fun _ => 0) 0)).
    + exact (holds_buffer_of unclosed_example).
    + cbn. lia.
Defined.

Lemma C9_unclosed_first_witness :
  0 <= 4 /\ 4 <= byte_capacity (mk_ParsedJson 4 (fun _ => 0) 0) /\
  exists st,
    scan 1 ScalarUtf8.checker ScalarUtf8.new ScalarUtf8.check_next_input
      (buffer_of unclosed_example) 4 (fun _ => 0) = Some st /\
    (prev_iter_inside_quote st <> 0 ->
     exists pj',
       find_structural_bits 1 ScalarUtf8.checker ScalarUtf8.new
         ScalarUtf8.check_next_input ScalarUtf8.has_error
         (buffer_of unclosed_example) 4 (mk_ParsedJson 4 (fun _ => 0) 0)
       = Some (UNCLOSED_STRING, pj') /\
       n_structural_indexes pj' = 0 /\
       structural_indexes pj' = base_ptr st /\
       byte_capacity pj' = 4).
Proof.
  split; [lia |]. split; [cbn; lia |].
  apply (C9_unclosed_first 1 ScalarUtf8.checker ScalarUtf8.new
           ScalarUtf8.check_next_input ScalarUtf8.has_error
           (buffer_of unclosed_example) 4 (mk_ParsedJson 4 (fun _ => 0) 0));
    cbn; lia.
Defined.

Lemma C6_unescaped_chars_witness :
  0 <= 5 /\ 5 <= byte_capacity (mk_ParsedJson 5 (fun _ => 0) 0) /\
  holds (buffer_of control_example) control_example /\
  exists pj',
    find_structural_bits 1 ScalarUtf8.checker ScalarUtf8.new
      ScalarUtf8.check_next_input ScalarUtf8.has_error
      (buffer_of control_example) 5 (mk_ParsedJson 5 (fun _ => 0) 0)
    = Some (UNESCAPED_CHARS, pj').
Proof.
  destruct (C6_unescaped_chars 1 ScalarUtf8.checker ScalarUtf8.new
              ScalarUtf8.check_next_input ScalarUtf8.has_error) as (_ & _ & _ & D).
  split; [lia |]. split; [cbn; lia |].
  split; [exact (holds_buffer_of control_example) |].
  apply (D (buffer_of control_example) (mk_ParsedJson 5 (fun _ => 0) 0)).
  - exact (holds_buffer_of control_example).
  - cbn. lia.
Defined.

Lemma whole_chunk_64 l : length l = 64%nat -> whole_chunk 1 l.
Proof. intros H. exists 1%nat. split; [lia |]. rewrite H. reflexivity. Qed.

Lemma C2_chunking_independent_witness :
  Forall (whole_chunk 1) example_chunks /\
  let init := initial_state ScalarUtf8.checker ScalarUtf8.new (fun _ => 0) in
  let chunked :=
    fold_left (fun st c => index_chunk 1 ScalarUtf8.checker
                             ScalarUtf8.check_next_input c st)
      example_chunks init in
  chunked = index_chunk 1 ScalarUtf8.checker ScalarUtf8.check_next_input
              (concat example_chunks) init /\
  flatten_bits (base_ptr chunked) (base chunked) (idx chunked)
    (prev_structurals chunked)
  = fold_left push
      (offsets (buffer_of (concat example_chunks))
         (length (concat example_chunks)))
      (fun _ => 0, 0).
Proof.
  assert (W : Forall (whole_chunk 1) example_chunks).
  { repeat constructor; apply whole_chunk_64; reflexivity. }
  split; [exact W |].
  pose proof (C2_chunking_independent 1 ScalarUtf8.checker ScalarUtf8.new
                ScalarUtf8.check_next_input ScalarUtf8.has_error example_chunks
                (fun _ => 0) W) as D.
  cbv zeta in D. destruct D as (A & _ & _ & B & _).
  cbv zeta. split; [exact A | exact B].
Defined.

(* ================================================================== *)
(** * Further properties of the code *)

(** ** The three mask computations, block by block *)

(** X1: [find_odd_backslash_sequences] on any 64-bit backslash mask and
    carry returns a 64-bit mask that holds no backslash position; its bit
    [n] is set exactly when bit [n] of [bs_bits] is clear and the run of
    backslashes that ends just before [n] (continued from the block before
    when the carry is set) has odd length; the carry it hands on tells
    whether the block ends in a run of odd length. *)
Theorem X1_odd_backslash_block bs_bits carry :
  is64 bs_bits ->
  let r := find_odd_backslash_sequences bs_bits carry in
  is64 (fst r) /\
  Z.land (fst r) bs_bits = 0 /\
  snd r = lane_run_odd bs_bits carry 64 /\
  forall n, (n < 64)%nat ->
    Z.testbit (fst r) (Z.of_nat n)
    = negb (Z.testbit bs_bits (Z.of_nat n)) && lane_run_odd bs_bits carry n.
Proof.
  intros H r. pose proof (find_odd_backslash_sequences_bits bs_bits carry H) as P.
  subst r. destruct (find_odd_backslash_sequences bs_bits carry) as [oe c'].
  destruct P as (P1 & P2 & P3). cbn [fst snd].
  split; [exact P1 |]. split; [| split; [exact P2 | exact P3]].
  apply is64_zero_bits; [now apply is64_land |].
  intros i Hi. rewrite Z.land_spec, <- (Z2Nat.id i), P3 by lia.
  destruct (Z.testbit bs_bits (Z.of_nat (Z.to_nat i)));
    [reflexivity | apply andb_false_r].
Qed.

Lemma X1_odd_backslash_block_witness :
  is64 7 /\
  fst (find_odd_backslash_sequences 7 false) = 8 /\
  snd (find_odd_backslash_sequences 7 false) = lane_run_odd 7 false 64.
Proof.
  assert (H : is64 7) by (unfold is64; lia).
  split; [exact H |]. split; [reflexivity |].
  exact (proj1 (proj2 (proj2 (X1_odd_backslash_block 7 false H)))).
Defined.



(** X3: [finalize_structurals] on 64-bit masks never reports a closing quote
    (a quote bit outside the quote mask), reports nothing inside the quote
    mask but quote bits, reports every structural bit outside the quote mask
    that is not a closing quote, and hands on whether byte 63 is whitespace,
    a structural outside strings or a quote. *)
Theorem X3_finalize_block structurals whitespace quote_mask quote_bits pred :
  is64 structurals -> is64 whitespace -> is64 quote_mask -> is64 quote_bits ->
  let r := finalize_structurals structurals whitespace quote_mask quote_bits pred in
  Z.land (fst r) (Z.land quote_bits (not64 quote_mask)) = 0 /\
  (forall n, (n < 64)%nat ->
     Z.testbit (fst r) (Z.of_nat n) = true ->
     Z.testbit quote_mask (Z.of_nat n) = true ->
     Z.testbit quote_bits (Z.of_nat n) = true) /\
  (forall n, (n < 64)%nat ->
     Z.testbit structurals (Z.of_nat n) = true ->
     Z.testbit quote_mask (Z.of_nat n) = false ->
     Z.testbit quote_bits (Z.of_nat n) = false ->
     Z.testbit (fst r) (Z.of_nat n) = true) /\
  snd r = (Z.testbit structurals 63 && negb (Z.testbit quote_mask 63)
           || Z.testbit quote_bits 63 || Z.testbit whitespace 63).
Proof.
  intros Hs Hw Hm Hb r.
  pose proof (finalize_structurals_bits structurals whitespace quote_mask quote_bits
                pred Hs Hw Hm Hb) as P.
  cbv zeta in P. subst r.
  destruct (finalize_structurals structurals whitespace quote_mask quote_bits pred)
    as [out pred'].
  destruct P as (P1 & P2 & P3). cbn [fst snd].
  split; [| split; [| split; [| exact P2]]].
  - apply is64_zero_bits; [now apply is64_land |].
    intros i Hi. rewrite !Z.land_spec, testbit_not64 by lia.
    rewrite <- (Z2Nat.id i), P3 by lia.
    match goal with
    | |- ?x && negb ?c && ?c = false =>
        destruct c; rewrite andb_false_r; reflexivity
    end.
  - intros n Hn. rewrite P3 by assumption. intros E Q. rewrite Q in E.
    cbn [negb] in E. rewrite !andb_false_r, !orb_false_r in E.
    apply andb_prop in E. destruct E as [E _].
    destruct (Z.testbit quote_bits (Z.of_nat n)); [reflexivity | discriminate].
  - intros n Hn S Q B. rewrite P3, S, Q, B by assumption. reflexivity.
Qed.

Lemma X3_finalize_block_witness :
  is64 1 /\ is64 0 /\
  Z.testbit (fst (finalize_structurals 1 0 0 0 true)) (Z.of_nat 0) = true.
Proof.
  assert (H1 : is64 1) by (unfold is64; lia).
  assert (H0 : is64 0) by (unfold is64; lia).
  split; [exact H1 |]. split; [exact H0 |].
  destruct (X3_finalize_block 1 0 0 0 true H1 H0 H0 H0) as (_ & _ & A & _).
  apply (A 0%nat); [lia | reflexivity | reflexivity | reflexivity].
Defined.

(** ** The kernel and the scan *)

Section KernelFacts.

Variable NLANES : positive.
Variable utf8_checker : Type.
Variable utf8_new : utf8_checker.
Variable check_next_input : utf8_checker -> simd_input64 -> utf8_checker.
Variable has_error : utf8_checker -> bool.

(** X4: the chunk kernel, which runs each of its five passes over all the
    64-byte blocks of the chunk before the next pass starts, computes what
    one combined step per block computes, block after block: a pass only
    threads its own carry.  Each call advances [idx] by [SIMD_WIDTH]. *)
Theorem X4_kernel_is_block_steps in_buf st :
  find_structural_bits_chunk NLANES utf8_checker check_next_input in_buf st
  = blocks_state utf8_checker check_next_input in_buf (Pos.to_nat NLANES) st /\
  idx (find_structural_bits_chunk NLANES utf8_checker check_next_input in_buf st)
  = idx st + SIMD_WIDTH NLANES.
Proof.
  split; [apply chunk_blocks |].
  rewrite chunk_blocks, (idx_blocks_state NLANES). unfold SIMD_WIDTH.
  now rewrite positive_nat_Z.
Qed.

(** X5: the scan of the entry point terminates on every input: the main
    loop and the padded tail together call the kernel until [idx] is the
    least multiple of [SIMD_WIDTH] that is not below [len]. *)
Theorem X5_scan_terminates buf len a0 :
  0 <= len ->
  exists st,
    scan NLANES utf8_checker utf8_new check_next_input buf len a0 = Some st /\
    len <= idx st < len + SIMD_WIDTH NLANES /\
    idx st mod SIMD_WIDTH NLANES = 0.
Proof.
  intros H0.
  destruct (scan_blocks NLANES utf8_checker utf8_new check_next_input buf a0 len H0)
    as (K & E & B).
  eexists. split; [exact E |].
  rewrite (idx_blocks_state NLANES). cbn [idx initial_state].
  replace (0 + 64 * Z.of_nat (Pos.to_nat NLANES * K))
    with (Z.of_nat K * SIMD_WIDTH NLANES)
    by (rewrite (SW_N NLANES); lia).
  split; [lia |]. apply Z.mod_mul. pose proof (SW_pos NLANES). lia.
Qed.

Lemma finish_status len pj (st : scan_state utf8_checker) :
  let e := fst (finish utf8_checker has_error len pj st) in
  e = UNCLOSED_STRING \/ e = EMPTY \/ e = UNEXPECTED_ERROR \/
  e = UNESCAPED_CHARS \/ e = UTF8_ERROR \/ e = SUCCESS.
Proof.
  unfold finish.
  destruct (negb (prev_iter_inside_quote st =? 0)); [now left |].
  destruct (flatten_bits _ _ _ _) as [a b].
  destruct (b =? 0); [now right; left |].
  destruct (a (b - 1) >? len); [now right; right; left |].
  destruct (negb (len =? a (b - 1))), (negb (error_mask st =? 0));
    cbn [fst]; unfold utf8_errors; try destruct (has_error (utf8_state st));
    tauto.
Qed.

(** X6: the entry point returns [CAPACITY] exactly when [len] exceeds
    [byte_capacity]; it then leaves the output object as it was. *)
Theorem X6_capacity buf len pj :
  0 <= len ->
  exists r,
    find_structural_bits NLANES utf8_checker utf8_new check_next_input has_error
      buf len pj = Some r /\
    (fst r = CAPACITY <-> byte_capacity pj < len) /\
    (byte_capacity pj < len -> snd r = pj).
Proof.
  intros H0. unfold find_structural_bits. rewrite Z.gtb_ltb.
  destruct (Z.ltb_spec (byte_capacity pj) len) as [Hlt | Hge].
  - eexists. split; [reflexivity |]. cbn [fst snd]. split; [tauto | reflexivity].
  - destruct (scan_blocks NLANES utf8_checker utf8_new check_next_input buf
                (structural_indexes pj) len H0) as (K & -> & _).
    eexists. split; [reflexivity |]. split; [| lia].
    split; [| lia]. intros E.
    pose proof (finish_status len pj
                  (blocks_state utf8_checker check_next_input (padded buf len)
                     (Pos.to_nat NLANES * K)
                     (initial_state utf8_checker utf8_new (structural_indexes pj))))
      as S.
    cbv zeta in S. rewrite E in S.
    destruct S as [S | [S | [S | [S | [S | S]]]]]; discriminate.
Qed.

(** X7: on an input whose length plus one fits 32 bits the entry point
    returns one of [CAPACITY], [UNCLOSED_STRING], [EMPTY], [UNESCAPED_CHARS],
    [UTF8_ERROR] and [SUCCESS]: the check that would give
    [UNEXPECTED_ERROR] never fails, because the padding never yields a
    structural offset; and the index then holds one offset per structural
    position plus the virtual terminator. *)
Theorem X7_statuses buf len pj :
  0 <= len -> len + 1 < 2 ^ 32 ->
  exists e pj',
    find_structural_bits NLANES utf8_checker utf8_new check_next_input has_error
      buf len pj = Some (e, pj') /\
    (e = CAPACITY \/ e = UNCLOSED_STRING \/ e = EMPTY \/
     e = UNESCAPED_CHARS \/ e = UTF8_ERROR \/ e = SUCCESS) /\
    (e = UNESCAPED_CHARS \/ e = UTF8_ERROR \/ e = SUCCESS ->
     n_structural_indexes pj'
     = Z.of_nat (length (filter (structural_at buf) (seq 0 (Z.to_nat len)))) + 1).
Proof.
  intros H0 Hmax.
  destruct (Z.leb_spec len (byte_capacity pj)) as [Hc | Hc].
  2:{ exists CAPACITY, pj. unfold find_structural_bits. rewrite Z.gtb_ltb.
      replace (byte_capacity pj <? len) with true by (symmetry; apply Z.ltb_lt; lia).
      split; [reflexivity |]. split; [now left |].
      intros [E | [E | E]]; discriminate. }
  destruct (index_result NLANES utf8_checker utf8_new check_next_input has_error
              buf len pj H0 Hc) as (st & k & _ & _ & _ & _ & _ & _ & R1 & R2 & R3).
  destruct (inside_before buf (Z.to_nat len)).
  { eexists _, _. split; [now apply R1 |]. split; [tauto |].
    intros [E | [E | E]]; discriminate. }
  destruct (offsets buf (Z.to_nat len)) as [| x0 l0] eqn:Eo.
  { eexists _, _. split; [now apply R2 |]. split; [tauto |].
    intros [E | [E | E]]; discriminate. }
  rewrite <- Eo in R3.
  destruct R3 as (pj' & F1 & _ & F3 & _);
    [reflexivity | rewrite Eo; discriminate | assumption |].
  exists (final_status has_error st), pj'. split; [exact F1 |]. split.
  - unfold final_status, utf8_errors.
    destruct (error_mask st =? 0); [| tauto].
    destruct (has_error (utf8_state st)); tauto.
  - intros _. rewrite F3. unfold offsets. now rewrite length_map.
Qed.

Lemma whitespace_byte x :
  is_whitespace x = true ->
  (x =? 0x22) = false /\ is_structural x = false /\ (x =? 0x5C) = false.
Proof.
  unfold is_whitespace. intros H.
  repeat (apply orb_prop in H; destruct H as [H | H]);
    apply Z.eqb_eq in H; subst; repeat split; reflexivity.
Qed.

Lemma whitespace_not_structural s p :
  is_whitespace (byte_at s p) = true -> structural_at s p = false.
Proof.
  intros H. destruct (whitespace_byte _ H) as (Q & S & _).
  unfold structural_at, masked_structural, real_quote.
  rewrite H, Q, S. cbn [andb negb orb]. now rewrite andb_false_r.
Qed.

(** X8: an input within capacity that holds nothing but whitespace (space,
    tab, line feed, carriage return), the empty input included, is answered
    with [EMPTY]; [n_structural_indexes] is set to 0 and no offset is
    written. *)
Theorem X8_whitespace_is_empty buf len pj :
  0 <= len -> len <= byte_capacity pj ->
  (forall i, 0 <= i < len -> is_whitespace (buf i) = true) ->
  find_structural_bits NLANES utf8_checker utf8_new check_next_input has_error
    buf len pj
  = Some (EMPTY, mk_ParsedJson (byte_capacity pj) (structural_indexes pj) 0).
Proof.
  intros H0 Hc Hw.
  destruct (index_result NLANES utf8_checker utf8_new check_next_input has_error
              buf len pj H0 Hc) as (st & k & _ & _ & _ & _ & _ & _ & _ & R2 & _).
  assert (W : forall p, (p < Z.to_nat len)%nat -> is_whitespace (byte_at buf p) = true).
  { intros p Hp. apply Hw. lia. }
  apply R2.
  - assert (G : forall n, (n <= Z.to_nat len)%nat -> inside_before buf n = false).
    { induction n as [| n IH]; intros Hn; [reflexivity |].
      cbn [inside_before]. rewrite IH by lia. unfold real_quote.
      destruct (whitespace_byte _ (W n Hn)) as (-> & _). reflexivity. }
    apply G. lia.
  - unfold offsets. rewrite filter_none; [reflexivity |].
    intros p Hp. apply in_seq in Hp. apply whitespace_not_structural, W. lia.
Qed.

End KernelFacts.

Lemma X5_scan_terminates_witness :
  0 <= 7 /\
  exists st,
    scan 1 ScalarUtf8.checker ScalarUtf8.new ScalarUtf8.check_next_input
      (buffer_of object_example) 7 (fun _ => 0) = Some st /\
    7 <= idx st < 7 + SIMD_WIDTH 1 /\ idx st mod SIMD_WIDTH 1 = 0.
Proof.
  split; [lia |].
  apply (X5_scan_terminates 1 ScalarUtf8.checker ScalarUtf8.new
           ScalarUtf8.check_next_input (buffer_of object_example) 7 (fun _ => 0)).
  lia.
Defined.

Lemma X6_capacity_witness :
  0 <= 7 /\
  exists r,
    find_structural_bits 1 ScalarUtf8.checker ScalarUtf8.new
      ScalarUtf8.check_next_input ScalarUtf8.has_error
      (buffer_of object_example) 7 (mk_ParsedJson 6 (fun _ => 0) 0) = Some r /\
    (fst r = CAPACITY <-> byte_capacity (mk_ParsedJson 6 (fun _ => 0) 0) < 7) /\
    (byte_capacity (mk_ParsedJson 6 (fun _ => 0) 0) < 7 ->
     snd r = mk_ParsedJson 6 (fun _ => 0) 0).
Proof.
  split; [lia |].
  apply (X6_capacity 1 ScalarUtf8.checker ScalarUtf8.new
           ScalarUtf8.check_next_input ScalarUtf8.has_error
           (buffer_of object_example) 7 (mk_ParsedJson 6 (fun _ => 0) 0)).
  lia.
Defined.

Lemma X7_statuses_witness :
  0 <= 7 /\ 7 + 1 < 2 ^ 32 /\
  exists e pj',
    find_structural_bits 1 ScalarUtf8.checker ScalarUtf8.new
      ScalarUtf8.check_next_input ScalarUtf8.has_error
      (buffer_of object_example) 7 (mk_ParsedJson 7 (fun _ => 0) 0)
    = Some (e, pj') /\
    (e = CAPACITY \/ e = UNCLOSED_STRING \/ e = EMPTY \/
     e = UNESCAPED_CHARS \/ e = UTF8_ERROR \/ e = SUCCESS) /\
    (e = UNESCAPED_CHARS \/ e = UTF8_ERROR \/ e = SUCCESS ->
     n_structural_indexes pj'
     = Z.of_nat (length (filter (structural_at (buffer_of object_example))
                           (seq 0 (Z.to_nat 7)))) + 1).
Proof.
  split; [lia |]. split; [lia |].
  apply (X7_statuses 1 ScalarUtf8.checker ScalarUtf8.new
           ScalarUtf8.check_next_input ScalarUtf8.has_error
           (buffer_of object_example) 7 (mk_ParsedJson 7 (fun _ => 0) 0)); lia.
Defined.

Lemma X8_whitespace_is_empty_witness :
  0 <= 3 /\ 3 <= byte_capacity (mk_ParsedJson 3 (fun _ => 0) 5) /\
  (forall i, 0 <= i < 3 -> is_whitespace (buffer_of [0x20; 0x0A; 0x09] i) = true) /\
  find_structural_bits 1 ScalarUtf8.checker ScalarUtf8.new
    ScalarUtf8.check_next_input ScalarUtf8.has_error
    (buffer_of [0x20; 0x0A; 0x09]) 3 (mk_ParsedJson 3 (fun _ => 0) 5)
  = Some (EMPTY, mk_ParsedJson 3 (fun _ => 0) 0).
Proof.
  assert (W : forall i, 0 <= i < 3 ->
              is_whitespace (buffer_of [0x20; 0x0A; 0x09] i) = true).
  { intros i Hi.
    assert (C : i = 0 \/ i = 1 \/ i = 2) by lia.
    destruct C as [-> | [-> | ->]]; reflexivity. }
  split; [lia |]. split; [cbn; lia |]. split; [exact W |].
  apply (X8_whitespace_is_empty 1 ScalarUtf8.checker ScalarUtf8.new
           ScalarUtf8.check_next_input ScalarUtf8.has_error
           (buffer_of [0x20; 0x0A; 0x09]) 3 (mk_ParsedJson 3 (fun _ => 0) 5)).
  - lia.
  - cbn. lia.
  - exact W.
Defined.

(** ** What is reported, position by position *)

Lemma structural_byte_not_quote x : is_structural x = true -> (x =? 0x22) = false.
Proof.
  unfold is_structural. intros H.
  repeat (apply orb_prop in H; destruct H as [H | H]);
    apply Z.eqb_eq in H; subst; reflexivity.
Qed.

Section Reported.

Variable NLANES : positive.
Variable utf8_checker : Type.
Variable utf8_new : utf8_checker.
Variable check_next_input : utf8_checker -> simd_input64 -> utf8_checker.
Variable has_error : utf8_checker -> bool.

Variable buf : pointer.
Variable len : Z.
Variable pj : ParsedJson.
Variable e : errorValues.
Variable pj' : ParsedJson.

Hypothesis len_nonneg : 0 <= len.
Hypothesis within_capacity : len <= byte_capacity pj.
Hypothesis fits : len + 1 < 2 ^ 32.
Hypothesis result :
  find_structural_bits NLANES utf8_checker utf8_new check_next_input has_error
    buf len pj = Some (e, pj').
Hypothesis complete : e <> UNCLOSED_STRING.

Lemma emitted_offsets x :
  emitted pj' x <->
  In x (offsets buf (Z.to_nat len)) \/ (x = len /\ e <> EMPTY).
Proof.
  destruct (index_result NLANES utf8_checker utf8_new check_next_input has_error
              buf len pj len_nonneg within_capacity)
    as (st & k & _ & _ & _ & _ & _ & _ & R1 & R2 & R3).
  destruct (inside_before buf (Z.to_nat len)).
  { rewrite R1 in result by reflexivity. congruence. }
  destruct (offsets buf (Z.to_nat len)) as [| x0 l0] eqn:Eo.
  - rewrite R2 in result by reflexivity. injection result as <- <-.
    unfold emitted. cbn [n_structural_indexes In]. split.
    + intros (i & Hi & _). lia.
    + intros [[] | [_ H]]. congruence.
  - rewrite <- Eo in *.
    destruct R3 as (pj'' & F1 & _ & F3 & F4);
      [reflexivity | rewrite Eo; discriminate | assumption |].
    rewrite F1 in result. injection result as <- <-.
    destruct (index_emitted pj'' _ _ _ F3 F4) as [G1 G2].
    rewrite (emitted_iff pj'' _ _ x G1 G2), in_app_iff. cbn [In].
    assert (Hs : final_status has_error st <> EMPTY).
    { unfold final_status, utf8_errors.
      destruct (error_mask st =? 0); [| discriminate].
      destruct (has_error (utf8_state st)); discriminate. }
    split.
    + intros [H | [H | []]]; [now left | right; split; [now symmetry | exact Hs]].
    + intros [H | [H _]]; [now left | right; left; now symmetry].
Qed.

Lemma emitted_position p :
  (p < Z.to_nat len)%nat ->
  (emitted pj' (Z.of_nat p) <-> structural_at buf p = true).
Proof.
  intros Hp. rewrite emitted_offsets, in_offsets by lia. split.
  - intros [(q & Hq & _ & Hs) | [H _]]; [| lia].
    apply Nat2Z.inj in Hq. now subst.
  - intros Hs. left. exists p. now repeat split.
Qed.

(** X9: when the index is complete on an input whose length plus one fits
    32 bits, every structural character (one of the six bytes of
    "{ } [ ] , :") that is outside the quote mask, that is outside every
    string, is reported. *)
Theorem X9_structurals_reported p :
  (p < Z.to_nat len)%nat ->
  is_structural (byte_at buf p) = true ->
  in_quote_mask buf p = false ->
  emitted pj' (Z.of_nat p).
Proof.
  intros Hp Hs Hq. apply emitted_position; [assumption |].
  unfold structural_at, masked_structural, real_quote.
  rewrite Hs, Hq, (structural_byte_not_quote _ Hs). reflexivity.
Qed.

(** X10: when the index is complete on an input whose length plus one fits
    32 bits, every reported offset is either the virtual terminator [len]
    or the offset of a byte of the input that is not whitespace; the
    terminator is reported unless the status is [EMPTY]. *)
Theorem X10_no_whitespace_reported x :
  (emitted pj' x ->
   x = len \/ (0 <= x < len /\ is_whitespace (buf x) = false)) /\
  (e <> EMPTY -> emitted pj' len).
Proof.
  split.
  - rewrite emitted_offsets, in_offsets by lia.
    intros [(p & -> & Hp & Hs) | [H _]]; [right | now left].
    split; [lia |].
    destruct (is_whitespace (buf (Z.of_nat p))) eqn:W; [| reflexivity].
    now rewrite (whitespace_not_structural buf p W) in Hs.
  - intros He. apply emitted_offsets. right. now split.
Qed.

(** X11: when the index is complete on an input whose length plus one fits
    32 bits, an unescaped quote is reported exactly when it opens a string, and no position strictly inside a string is
    reported, whatever byte it holds (escaped quotes and structural
    characters included). *)
Theorem X11_quotes_and_strings p :
  (p < Z.to_nat len)%nat ->
  (real_quote buf p = true ->
   (emitted pj' (Z.of_nat p) <-> inside_before buf p = false)) /\
  (inside_before buf p = true -> real_quote buf p = false ->
   ~ emitted pj' (Z.of_nat p)).
Proof.
  intros Hp. rewrite emitted_position by assumption.
  unfold structural_at, masked_structural, in_quote_mask. cbn [inside_before].
  split.
  - intros ->. destruct (inside_before buf p); cbn [xorb negb andb].
    + rewrite andb_false_r. split; discriminate.
    + rewrite orb_true_r. split; reflexivity.
  - intros -> ->. cbn [xorb negb andb orb].
    rewrite !andb_false_r. discriminate.
Qed.

(** X12: when the index is complete on an input whose length plus one fits
    32 bits, a byte outside strings that is neither whitespace nor a quote is reported exactly when it is a structural
    character or starts a run: it is the first byte of the input, or the
    byte before it is whitespace, a structural character or an unescaped
    quote.  The inner bytes of a number or of an atom are not reported. *)
Theorem X12_runs_outside_strings p :
  (p < Z.to_nat len)%nat ->
  inside_before buf p = false ->
  byte_at buf p <> 0x22 ->
  is_whitespace (byte_at buf p) = false ->
  (emitted pj' (Z.of_nat p) <->
   is_structural (byte_at buf p) = true \/ starts_run buf p = true).
Proof.
  intros Hp Hi Hq Hw. rewrite emitted_position by assumption.
  assert (Q : real_quote buf p = false).
  { unfold real_quote.
    now replace (byte_at buf p =? 0x22) with false
      by (symmetry; now apply Z.eqb_neq). }
  assert (M : in_quote_mask buf p = false).
  { unfold in_quote_mask. cbn [inside_before]. now rewrite Hi, Q. }
  assert (P : pred_before buf p = starts_run buf p).
  { destruct p as [| q]; [reflexivity |].
    cbn [pred_before starts_run]. unfold pseudo_pred, masked_structural.
    unfold in_quote_mask. rewrite Hi. cbn [negb]. rewrite andb_true_r.
    destruct (is_whitespace (byte_at buf q)), (is_structural (byte_at buf q)),
      (real_quote buf q); reflexivity. }
  unfold structural_at, masked_structural. rewrite Q, M, Hw, P.
  cbn [negb andb]. rewrite !andb_true_r, orb_false_r.
  destruct (is_structural (byte_at buf p)), (starts_run buf p);
    cbn [orb]; split; try tauto; try discriminate.
Qed.

End Reported.

Lemma X9_structurals_reported_witness :
  exists pj',
    find_structural_bits 1 ScalarUtf8.checker ScalarUtf8.new
      ScalarUtf8.check_next_input ScalarUtf8.has_error
      (buffer_of object_example) 7 (mk_ParsedJson 7 (fun _ => 0) 0)
    = Some (SUCCESS, pj') /\
    is_structural (byte_at (buffer_of object_example) 4) = true /\
    in_quote_mask (buffer_of object_example) 4 = false /\
    emitted pj' (Z.of_nat 4).
Proof.
  destruct (object_example_index 1 ScalarUtf8.checker ScalarUtf8.new
              ScalarUtf8.check_next_input ScalarUtf8.has_error
              (buffer_of object_example) (mk_ParsedJson 7 (fun _ => 0) 0)
              scalar_utf8_accepts_ascii (holds_buffer_of object_example))
    as (pj' & F1 & _); [cbn; lia |].
  exists pj'. split; [exact F1 |]. split; [reflexivity |]. split; [reflexivity |].
  apply (X9_structurals_reported 1 ScalarUtf8.checker ScalarUtf8.new
           ScalarUtf8.check_next_input ScalarUtf8.has_error
           (buffer_of object_example) 7 (mk_ParsedJson 7 (fun _ => 0) 0)
           SUCCESS pj');
    [lia | cbn; lia | lia | exact F1 | discriminate | cbn; lia | reflexivity
    | reflexivity].
Defined.

Lemma X10_no_whitespace_reported_witness :
  exists pj',
    find_structural_bits 1 ScalarUtf8.checker ScalarUtf8.new
      ScalarUtf8.check_next_input ScalarUtf8.has_error
      (buffer_of object_example) 7 (mk_ParsedJson 7 (fun _ => 0) 0)
    = Some (SUCCESS, pj') /\
    emitted pj' 7.
Proof.
  destruct (object_example_index 1 ScalarUtf8.checker ScalarUtf8.new
              ScalarUtf8.check_next_input ScalarUtf8.has_error
              (buffer_of object_example) (mk_ParsedJson 7 (fun _ => 0) 0)
              scalar_utf8_accepts_ascii (holds_buffer_of object_example))
    as (pj' & F1 & _); [cbn; lia |].
  exists pj'. split; [exact F1 |].
  apply (X10_no_whitespace_reported 1 ScalarUtf8.checker ScalarUtf8.new
           ScalarUtf8.check_next_input ScalarUtf8.has_error
           (buffer_of object_example) 7 (mk_ParsedJson 7 (fun _ => 0) 0)
           SUCCESS pj');
    [lia | cbn; lia | lia | exact F1 | discriminate | exact 0 | discriminate].
Defined.

Lemma X11_quotes_and_strings_witness :
  exists pj',
    find_structural_bits 1 ScalarUtf8.checker ScalarUtf8.new
      ScalarUtf8.check_next_input ScalarUtf8.has_error
      (buffer_of object_example) 7 (mk_ParsedJson 7 (fun _ => 0) 0)
    = Some (SUCCESS, pj') /\
    emitted pj' (Z.of_nat 1) /\ ~ emitted pj' (Z.of_nat 3) /\
    ~ emitted pj' (Z.of_nat 2).
Proof.
  destruct (object_example_index 1 ScalarUtf8.checker ScalarUtf8.new
              ScalarUtf8.check_next_input ScalarUtf8.has_error
              (buffer_of object_example) (mk_ParsedJson 7 (fun _ => 0) 0)
              scalar_utf8_accepts_ascii (holds_buffer_of object_example))
    as (pj' & F1 & _); [cbn; lia |].
  exists pj'. split; [exact F1 |].
  assert (X : forall p, (p < Z.to_nat 7)%nat ->
     (real_quote (buffer_of object_example) p = true ->
      (emitted pj' (Z.of_nat p) <-> inside_before (buffer_of object_example) p = false)) /\
     (inside_before (buffer_of object_example) p = true ->
      real_quote (buffer_of object_example) p = false ->
      ~ emitted pj' (Z.of_nat p))).
  { apply (X11_quotes_and_strings 1 ScalarUtf8.checker ScalarUtf8.new
           ScalarUtf8.check_next_input ScalarUtf8.has_error
           (buffer_of object_example) 7 (mk_ParsedJson 7 (fun _ => 0) 0)
           SUCCESS pj');
    [lia | cbn; lia | lia | exact F1 | discriminate]. }
  split; [| split].
  - apply (proj1 (X 1%nat ltac:(cbn; lia))); reflexivity.
  - intros H. apply (proj1 (X 3%nat ltac:(cbn; lia))) in H; [discriminate | reflexivity].
  - apply (proj2 (X 2%nat ltac:(cbn; lia))); reflexivity.
Defined.

Lemma X12_runs_outside_strings_witness :
  exists pj',
    find_structural_bits 1 ScalarUtf8.checker ScalarUtf8.new
      ScalarUtf8.check_next_input ScalarUtf8.has_error
      (buffer_of object_example) 7 (mk_ParsedJson 7 (fun _ => 0) 0)
    = Some (SUCCESS, pj') /\
    (emitted pj' (Z.of_nat 5) <->
     is_structural (byte_at (buffer_of object_example) 5) = true \/
     starts_run (buffer_of object_example) 5 = true).
Proof.
  destruct (object_example_index 1 ScalarUtf8.checker ScalarUtf8.new
              ScalarUtf8.check_next_input ScalarUtf8.has_error
              (buffer_of object_example) (mk_ParsedJson 7 (fun _ => 0) 0)
              scalar_utf8_accepts_ascii (holds_buffer_of object_example))
    as (pj' & F1 & _); [cbn; lia |].
  exists pj'. split; [exact F1 |].
  apply (X12_runs_outside_strings 1 ScalarUtf8.checker ScalarUtf8.new
           ScalarUtf8.check_next_input ScalarUtf8.has_error
           (buffer_of object_example) 7 (mk_ParsedJson 7 (fun _ => 0) 0)
           SUCCESS pj');
    [lia | cbn; lia | lia | exact F1 | discriminate | cbn; lia | reflexivity
    | vm_compute; discriminate | reflexivity].
Defined.

(** ** The entry point against the scalar reference *)

Section Reference.

Variable utf8_checker : Type.
Variable utf8_new : utf8_checker.
Variable check_next_input : utf8_checker -> simd_input64 -> utf8_checker.
Variable has_error : utf8_checker -> bool.
Hypothesis ascii_ok : accepts_ascii utf8_new check_next_input has_error.

Variable buf : pointer.
Variable l : list byte.
Variable pj : ParsedJson.
Hypothesis buf_l : holds buf l.
Hypothesis l_ascii : Forall is_ascii l.
Hypothesis within_capacity : Z.of_nat (length l) <= byte_capacity pj.
Hypothesis fits : Z.of_nat (length l) + 1 < 2 ^ 32.

Lemma reference_result NLANES :
  exists pj',
    find_structural_bits NLANES utf8_checker utf8_new check_next_input has_error
      buf (Z.of_nat (length l)) pj = Some (fst (reference_index l), pj') /\
    (fst (reference_index l) <> UNCLOSED_STRING ->
     n_structural_indexes pj' = Z.of_nat (length (snd (reference_index l))) /\
     forall k, (k < length (snd (reference_index l)))%nat ->
       structural_indexes pj' (Z.of_nat k) = nth k (snd (reference_index l)) 0).
Proof.
  destruct (index_of_list NLANES utf8_checker utf8_new check_next_input has_error
              ascii_ok buf l pj buf_l l_ascii within_capacity) as (R1 & R2 & R3).
  destruct (inside_before (buffer_of l) (length l)) eqn:Ein.
  - assert (Er : reference_index l = (UNCLOSED_STRING, []))
      by (unfold reference_index; cbv zeta; now rewrite Ein).
    rewrite Er. cbn [fst snd].
    destruct R1 as (pj' & F & _); [reflexivity |].
    exists pj'. split; [exact F |]. intros H. now contradiction H.
  - destruct (offsets (buffer_of l) (length l)) as [| x0 l0] eqn:Eo.
    + assert (Er : reference_index l = (EMPTY, []))
        by (unfold reference_index; cbv zeta; now rewrite Ein, Eo).
      rewrite Er. cbn [fst snd].
      eexists. split; [now apply R2 |]. intros _.
      split; [reflexivity |]. intros k Hk. cbn in Hk. lia.
    + assert (Er : reference_index l =
                   (if existsb (unescaped_control (buffer_of l)) (seq 0 (length l))
                    then UNESCAPED_CHARS else SUCCESS,
                    (x0 :: l0) ++ [Z.of_nat (length l)]))
        by (unfold reference_index; cbv zeta; now rewrite Ein, Eo).
      rewrite Er. cbn [fst snd].
      destruct R3 as (pj' & F1 & F3 & F4);
        [reflexivity | discriminate | exact fits |].
      exists pj'. split; [exact F1 |]. intros _.
      destruct (index_emitted pj' _ _ _ F3 F4) as [G1 G2].
      split; [exact G1 |].
      intros k Hk. rewrite G2 by lia. now apply stored_at.
Qed.

(** X13: for an ASCII input given as a list, within capacity and with a
    length plus one that fits 32 bits, the bit-parallel entry point returns
    the status the byte-by-byte reference computes ([UNCLOSED_STRING] for
    an odd number of unescaped quotes, [EMPTY] without structural position,
    [UNESCAPED_CHARS] for a control byte inside a string, else [SUCCESS])
    and, unless a string is unclosed, exactly the offsets of the reference,
    whatever [SIMD_WIDTH] is.  The UTF-8 checker is only assumed to accept
    ASCII. *)
Theorem X13_agrees_with_reference NLANES :
  exists pj',
    find_structural_bits NLANES utf8_checker utf8_new check_next_input has_error
      buf (Z.of_nat (length l)) pj = Some (fst (reference_index l), pj') /\
    (fst (reference_index l) <> UNCLOSED_STRING ->
     n_structural_indexes pj' = Z.of_nat (length (snd (reference_index l))) /\
     forall k, (k < length (snd (reference_index l)))%nat ->
       structural_indexes pj' (Z.of_nat k) = nth k (snd (reference_index l)) 0).
Proof. apply reference_result. Qed.

(** X14: for such an input the status, and the count and the offsets of a
    complete index, do not depend on [SIMD_WIDTH]: two instantiations of
    the generic code with different chunk widths report the same. *)
Theorem X14_simd_width_independent NLANES1 NLANES2 e1 pj1 e2 pj2 :
  find_structural_bits NLANES1 utf8_checker utf8_new check_next_input has_error
    buf (Z.of_nat (length l)) pj = Some (e1, pj1) ->
  find_structural_bits NLANES2 utf8_checker utf8_new check_next_input has_error
    buf (Z.of_nat (length l)) pj = Some (e2, pj2) ->
  e1 = e2 /\
  (e1 <> UNCLOSED_STRING ->
   n_structural_indexes pj1 = n_structural_indexes pj2 /\
   forall i, 0 <= i < n_structural_indexes pj1 ->
     structural_indexes pj1 i = structural_indexes pj2 i).
Proof.
  intros H1 H2.
  destruct (reference_result NLANES1) as (q1 & F1 & G1).
  destruct (reference_result NLANES2) as (q2 & F2 & G2).
  rewrite F1 in H1. rewrite F2 in H2.
  injection H1 as <- <-. injection H2 as <- <-.
  split; [reflexivity |]. intros Hne.
  destruct (G1 Hne) as [N1 A1]. destruct (G2 Hne) as [N2 A2].
  split; [congruence |].
  intros i Hi. rewrite <- (Z2Nat.id i) by lia.
  rewrite A1, A2 by lia. reflexivity.
Qed.

End Reference.

Lemma X13_agrees_with_reference_witness :
  exists pj',
    find_structural_bits 1 ScalarUtf8.checker ScalarUtf8.new
      ScalarUtf8.check_next_input ScalarUtf8.has_error
      (buffer_of object_example) (Z.of_nat (length object_example))
      (mk_ParsedJson 7 (fun _ => 0) 0)
    = Some (fst (reference_index object_example), pj') /\
    (fst (reference_index object_example) <> UNCLOSED_STRING ->
     n_structural_indexes pj'
     = Z.of_nat (length (snd (reference_index object_example))) /\
     forall k, (k < length (snd (reference_index object_example)))%nat ->
       structural_indexes pj' (Z.of_nat k)
       = nth k (snd (reference_index object_example)) 0).
Proof.
  apply (X13_agrees_with_reference ScalarUtf8.checker ScalarUtf8.new
           ScalarUtf8.check_next_input ScalarUtf8.has_error
           scalar_utf8_accepts_ascii (buffer_of object_example) object_example
           (mk_ParsedJson 7 (fun _ => 0) 0)
           (holds_buffer_of object_example) ascii_object_example
           ltac:(cbn; lia) ltac:(cbn; lia) 1%positive).
Defined.

Lemma X14_simd_width_independent_witness :
  exists pj1 pj2,
    find_structural_bits 1 ScalarUtf8.checker ScalarUtf8.new
      ScalarUtf8.check_next_input ScalarUtf8.has_error
      (buffer_of object_example) (Z.of_nat (length object_example))
      (mk_ParsedJson 7 (fun _ => 0) 0) = Some (SUCCESS, pj1) /\
    find_structural_bits 2 ScalarUtf8.checker ScalarUtf8.new
      ScalarUtf8.check_next_input ScalarUtf8.has_error
      (buffer_of object_example) (Z.of_nat (length object_example))
      (mk_ParsedJson 7 (fun _ => 0) 0) = Some (SUCCESS, pj2) /\
    (SUCCESS = SUCCESS /\
     (SUCCESS <> UNCLOSED_STRING ->
      n_structural_indexes pj1 = n_structural_indexes pj2 /\
      forall i, 0 <= i < n_structural_indexes pj1 ->
        structural_indexes pj1 i = structural_indexes pj2 i)).
Proof.
  destruct (object_example_index 1 ScalarUtf8.checker ScalarUtf8.new
              ScalarUtf8.check_next_input ScalarUtf8.has_error
              (buffer_of object_example) (mk_ParsedJson 7 (fun _ => 0) 0)
              scalar_utf8_accepts_ascii (holds_buffer_of object_example))
    as (pj1 & F1 & _); [cbn; lia |].
  destruct (object_example_index 2 ScalarUtf8.checker ScalarUtf8.new
              ScalarUtf8.check_next_input ScalarUtf8.has_error
              (buffer_of object_example) (mk_ParsedJson 7 (fun _ => 0) 0)
              scalar_utf8_accepts_ascii (holds_buffer_of object_example))
    as (pj2 & F2 & _); [cbn; lia |].
  exists pj1, pj2. split; [exact F1 |]. split; [exact F2 |].
  exact (X14_simd_width_independent ScalarUtf8.checker ScalarUtf8.new
           ScalarUtf8.check_next_input ScalarUtf8.has_error
           scalar_utf8_accepts_ascii (buffer_of object_example) object_example
           (mk_ParsedJson 7 (fun _ => 0) 0)
           (holds_buffer_of object_example) ascii_object_example
           ltac:(cbn; lia) ltac:(cbn; lia) 1%positive 2%positive
           SUCCESS pj1 SUCCESS pj2 F1 F2).
Defined.

(** ** The UTF-8 verdict and the bytes a report depends on *)

Section Verdicts.

Variable NLANES : positive.
Variable utf8_checker : Type.
Variable utf8_new : utf8_checker.
Variable check_next_input : utf8_checker -> simd_input64 -> utf8_checker.
Variable has_error : utf8_checker -> bool.

(** X15: the UTF-8 checker is fed the 64-byte blocks of the input padded
    with spaces up to the next multiple of [SIMD_WIDTH], each block once and
    in order, and its verdict is consulted last: on an input within
    capacity whose length plus one fits 32 bits the entry point returns
    [UTF8_ERROR] exactly when every string is closed, there is a structural
    position, no control byte lies inside a string, and the checker reports
    an error after these blocks. *)
Theorem X15_utf8_error_last buf len pj :
  0 <= len -> len <= byte_capacity pj -> len + 1 < 2 ^ 32 ->
  exists K e pj',
    find_structural_bits NLANES utf8_checker utf8_new check_next_input has_error
      buf len pj = Some (e, pj') /\
    len <= SIMD_WIDTH NLANES * Z.of_nat K < len + SIMD_WIDTH NLANES /\
    (e = UTF8_ERROR <->
     inside_before buf (Z.to_nat len) = false /\
     offsets buf (Z.to_nat len) <> [] /\
     (forall p, (p < Z.to_nat len)%nat -> unescaped_control buf p = false) /\
     has_error (utf8_after utf8_new check_next_input (padded buf len)
                  (Pos.to_nat NLANES * K)) = true).
Proof.
  intros H0 Hc Hmax.
  destruct (scan_blocks NLANES utf8_checker utf8_new check_next_input buf
              (structural_indexes pj) len H0) as (K & E & B).
  destruct (index_result NLANES utf8_checker utf8_new check_next_input has_error
              buf len pj H0 Hc) as (st & n & E' & _ & _ & _ & He & _ & R1 & R2 & R3).
  rewrite E in E'. injection E' as E'.
  assert (U : utf8_state st
              = utf8_after utf8_new check_next_input (padded buf len)
                  (Pos.to_nat NLANES * K)).
  { rewrite <- E'. apply utf8_state_blocks. }
  exists K.
  destruct (inside_before buf (Z.to_nat len)).
  { eexists _, _. split; [now apply R1 |]. split; [exact B |].
    split; [discriminate | intros (H & _); discriminate]. }
  destruct (offsets buf (Z.to_nat len)) as [| x0 l0] eqn:Eo.
  { eexists _, _. split; [now apply R2 |]. split; [exact B |].
    split; [discriminate | intros (_ & H & _); now contradiction H]. }
  destruct R3 as (pj' & F & _); [reflexivity | discriminate | exact Hmax |].
  exists (final_status has_error st), pj'.
  split; [exact F |]. split; [exact B |].
  unfold final_status, utf8_errors. rewrite U.
  destruct (Z.eqb_spec (error_mask st) 0) as [Z0 | Z0].
  - destruct (has_error _).
    + split; [| reflexivity]. intros _.
      split; [reflexivity |]. split; [discriminate |].
      split; [now apply He | reflexivity].
    + split; [discriminate | intros (_ & _ & _ & H); discriminate].
  - split; [discriminate |]. intros (_ & _ & H & _).
    contradiction Z0. now apply He.
Qed.

(** X16: whether the offset of a byte is reported depends only on the bytes
    up to and including it: two inputs that agree up to position [p], both
    indexed completely and both of a length that plus one fits 32 bits,
    report [p] or not alike, whatever follows and whatever their lengths
    are. *)
Theorem X16_prefix_determines buf1 len1 pj1 e1 pj1' buf2 len2 pj2 e2 pj2' p :
  0 <= len1 -> len1 <= byte_capacity pj1 -> len1 + 1 < 2 ^ 32 ->
  find_structural_bits NLANES utf8_checker utf8_new check_next_input has_error
    buf1 len1 pj1 = Some (e1, pj1') ->
  e1 <> UNCLOSED_STRING ->
  0 <= len2 -> len2 <= byte_capacity pj2 -> len2 + 1 < 2 ^ 32 ->
  find_structural_bits NLANES utf8_checker utf8_new check_next_input has_error
    buf2 len2 pj2 = Some (e2, pj2') ->
  e2 <> UNCLOSED_STRING ->
  (p < Z.to_nat len1)%nat -> (p < Z.to_nat len2)%nat ->
  (forall q, (q <= p)%nat -> buf1 (Z.of_nat q) = buf2 (Z.of_nat q)) ->
  (emitted pj1' (Z.of_nat p) <-> emitted pj2' (Z.of_nat p)).
Proof.
  intros A1 A2 A3 A4 A5 B1 B2 B3 B4 B5 P1 P2 H.
  rewrite (emitted_position NLANES utf8_checker utf8_new check_next_input
             has_error buf1 len1 pj1 e1 pj1' A1 A2 A3 A4 A5 p P1).
  rewrite (emitted_position NLANES utf8_checker utf8_new check_next_input
             has_error buf2 len2 pj2 e2 pj2' B1 B2 B3 B4 B5 p P2).
  rewrite (structural_at_ext buf1 buf2 p); [reflexivity |].
  intros q Hq. unfold byte_at. now apply H.
Qed.

End Verdicts.

Lemma X15_utf8_error_last_witness :
  exists K e pj',
    find_structural_bits 1 ScalarUtf8.checker ScalarUtf8.new
      ScalarUtf8.check_next_input ScalarUtf8.has_error
      (buffer_of object_example) 7 (mk_ParsedJson 7 (fun _ => 0) 0)
    = Some (e, pj') /\
    7 <= SIMD_WIDTH 1 * Z.of_nat K < 7 + SIMD_WIDTH 1 /\
    (e = UTF8_ERROR <->
     inside_before (buffer_of object_example) (Z.to_nat 7) = false /\
     offsets (buffer_of object_example) (Z.to_nat 7) <> [] /\
     (forall p, (p < Z.to_nat 7)%nat ->
        unescaped_control (buffer_of object_example) p = false) /\
     ScalarUtf8.has_error
       (utf8_after ScalarUtf8.new ScalarUtf8.check_next_input
          (padded (buffer_of object_example) 7) (Pos.to_nat 1 * K)) = true).
Proof.
  apply (X15_utf8_error_last 1 ScalarUtf8.checker ScalarUtf8.new
           ScalarUtf8.check_next_input ScalarUtf8.has_error
           (buffer_of object_example) 7 (mk_ParsedJson 7 (fun _ => 0) 0));
    [lia | cbn; lia | lia].
Defined.

Lemma trailing_space_ascii : Forall is_ascii (object_example ++ [0x20]).
Proof.
  unfold object_example. cbn [app].
  repeat (apply Forall_cons; [unfold is_ascii; lia |]). apply Forall_nil.
Qed.

Lemma X16_prefix_determines_witness :
  exists pj1' pj2',
    find_structural_bits 1 ScalarUtf8.checker ScalarUtf8.new
      ScalarUtf8.check_next_input ScalarUtf8.has_error
      (buffer_of object_example) 7 (mk_ParsedJson 7 (fun _ => 0) 0)
    = Some (SUCCESS, pj1') /\
    find_structural_bits 1 ScalarUtf8.checker ScalarUtf8.new
      ScalarUtf8.check_next_input ScalarUtf8.has_error
      (buffer_of (object_example ++ [0x20])) 8 (mk_ParsedJson 8 (fun _ => 0) 0)
    = Some (SUCCESS, pj2') /\
    (emitted pj1' (Z.of_nat 6) <-> emitted pj2' (Z.of_nat 6)).
Proof.
  destruct (reference_result ScalarUtf8.checker ScalarUtf8.new
              ScalarUtf8.check_next_input ScalarUtf8.has_error
              scalar_utf8_accepts_ascii (buffer_of object_example) object_example
              (mk_ParsedJson 7 (fun _ => 0) 0)
              (holds_buffer_of object_example) ascii_object_example
              ltac:(cbn; lia) ltac:(cbn; lia) 1%positive) as (pj1' & F1 & _).
  destruct (reference_result ScalarUtf8.checker ScalarUtf8.new
              ScalarUtf8.check_next_input ScalarUtf8.has_error
              scalar_utf8_accepts_ascii (buffer_of (object_example ++ [0x20]))
              (object_example ++ [0x20])
              (mk_ParsedJson 8 (fun _ => 0) 0)
              (holds_buffer_of (object_example ++ [0x20])) trailing_space_ascii
              ltac:(cbn; lia) ltac:(cbn; lia) 1%positive) as (pj2' & F2 & _).
  exists pj1', pj2'. split; [exact F1 |]. split; [exact F2 |].
  apply (X16_prefix_determines 1 ScalarUtf8.checker ScalarUtf8.new
           ScalarUtf8.check_next_input ScalarUtf8.has_error
           (buffer_of object_example) 7 (mk_ParsedJson 7 (fun _ => 0) 0)
           SUCCESS pj1'
           (buffer_of (object_example ++ [0x20])) 8
           (mk_ParsedJson 8 (fun _ => 0) 0) SUCCESS pj2');
    [lia | cbn; lia | lia | exact F1 | discriminate
    | lia | cbn; lia | lia | exact F2 | discriminate
    | cbn; lia | cbn; lia |].
  intros q Hq.
  do 7 (destruct q as [| q]; [reflexivity |]). lia.
Defined.
